(** * Crucible: the epistemic utilities and the Phase 0 review flow

    A shallow embedding of [frontend/src/utils/epistemic.js]
    ([calcPeerAlignment], [calcVerdict], [annotateChairmanText]) and of the
    Phase 0 handlers of [App.jsx], with the properties the specification
    states about them; then of the other utilities ([calcConfidenceRange],
    [getMinorityModel], [groupClaimsByVerdict], [getModelShortName]) and
    of what the components compute from them, with properties read off
    the code.

    Conventions.
    - A JavaScript string is a list of UTF-16 code units, numbers below
      65536 ([N]).  [toLowerCase] is the Unicode default lower-casing
      that ECMAScript prescribes, on code points, with the case data of
      Unicode 14.0: the simple lowercase mappings, U+0130, which becomes
      two code units, and the final sigma.  [\w], [\s] and [trim] are
      those of ECMAScript.
    - A JavaScript number is a double.  Module [Binary64] reads
      [calcVerdict] on IEEE 754 doubles, and what the specification
      states about means and about the order of the responses is stated
      there, of the mean as the code computes it.  The further
      properties take a declared confidence to be an integer score
      ([Z]), a mean or a ratio then being the exact rational ([Q]) the
      source's division denotes.
    - [null]/[undefined] is [None]. *)

From Stdlib Require Import Ascii String DecimalString.
From Stdlib Require Import Floats.
From Stdlib Require Uint63 DecimalNat.
From Stdlib Require Import List Bool Arith NArith ZArith QArith Lia Lqa.
From Stdlib Require Import Permutation Sorted.
Import ListNotations.

Open Scope string_scope.
Open Scope list_scope.
Open Scope nat_scope.

(* ================================================================== *)
(** ** JavaScript strings and arrays *)
(* ================================================================== *)

Module Js.

(** A string is a sequence of UTF-16 code units, numbers below 65536. *)
Definition str := list N.

(** A string literal of the source; all of them are ASCII. *)
Definition lit (s : string) : str := map N_of_ascii (list_ascii_of_string s).

Fixpoint str_eqb (a b : str) : bool :=
  match a, b with
  | [], [] => true
  | x :: a', y :: b' => N.eqb x y && str_eqb a' b'
  | _, _ => false
  end.

Definition in_range (lo hi n : N) : bool := (lo <=? n)%N && (n <=? hi)%N.

(** The case data of the Unicode Character Database, version 14.0. *)
Module Unicode.
Local Open Scope N_scope.

(** The simple lowercase mappings of [UnicodeData.txt], as progressions
    [(first, last, step, image of first)]: a code point
    [first + k * step <= last] maps to [image + k * step]. *)
Definition lowerTable : list (N * N * N * N) :=
  [
   (0x41, 0x5A, 1, 0x61); (0xC0, 0xD6, 1, 0xE0); (0xD8, 0xDE, 1, 0xF8);
   (0x100, 0x12E, 2, 0x101); (0x132, 0x136, 2, 0x133);
   (0x139, 0x147, 2, 0x13A); (0x14A, 0x176, 2, 0x14B);
   (0x178, 0x178, 1, 0xFF); (0x179, 0x17D, 2, 0x17A);
   (0x181, 0x181, 1, 0x253); (0x182, 0x184, 2, 0x183);
   (0x186, 0x186, 1, 0x254); (0x187, 0x187, 1, 0x188);
   (0x189, 0x18A, 1, 0x256); (0x18B, 0x18B, 1, 0x18C);
   (0x18E, 0x18E, 1, 0x1DD); (0x18F, 0x18F, 1, 0x259);
   (0x190, 0x190, 1, 0x25B); (0x191, 0x191, 1, 0x192);
   (0x193, 0x193, 1, 0x260); (0x194, 0x194, 1, 0x263);
   (0x196, 0x196, 1, 0x269); (0x197, 0x197, 1, 0x268);
   (0x198, 0x198, 1, 0x199); (0x19C, 0x19C, 1, 0x26F);
   (0x19D, 0x19D, 1, 0x272); (0x19F, 0x19F, 1, 0x275);
   (0x1A0, 0x1A4, 2, 0x1A1); (0x1A6, 0x1A6, 1, 0x280);
   (0x1A7, 0x1A7, 1, 0x1A8); (0x1A9, 0x1A9, 1, 0x283);
   (0x1AC, 0x1AC, 1, 0x1AD); (0x1AE, 0x1AE, 1, 0x288);
   (0x1AF, 0x1AF, 1, 0x1B0); (0x1B1, 0x1B2, 1, 0x28A);
   (0x1B3, 0x1B5, 2, 0x1B4); (0x1B7, 0x1B7, 1, 0x292);
   (0x1B8, 0x1B8, 1, 0x1B9); (0x1BC, 0x1BC, 1, 0x1BD);
   (0x1C4, 0x1C4, 1, 0x1C6); (0x1C5, 0x1C5, 1, 0x1C6);
   (0x1C7, 0x1C7, 1, 0x1C9); (0x1C8, 0x1C8, 1, 0x1C9);
   (0x1CA, 0x1CA, 1, 0x1CC); (0x1CB, 0x1DB, 2, 0x1CC);
   (0x1DE, 0x1EE, 2, 0x1DF); (0x1F1, 0x1F1, 1, 0x1F3);
   (0x1F2, 0x1F4, 2, 0x1F3); (0x1F6, 0x1F6, 1, 0x195);
   (0x1F7, 0x1F7, 1, 0x1BF); (0x1F8, 0x21E, 2, 0x1F9);
   (0x220, 0x220, 1, 0x19E); (0x222, 0x232, 2, 0x223);
   (0x23A, 0x23A, 1, 0x2C65); (0x23B, 0x23B, 1, 0x23C);
   (0x23D, 0x23D, 1, 0x19A); (0x23E, 0x23E, 1, 0x2C66);
   (0x241, 0x241, 1, 0x242); (0x243, 0x243, 1, 0x180);
   (0x244, 0x244, 1, 0x289); (0x245, 0x245, 1, 0x28C);
   (0x246, 0x24E, 2, 0x247); (0x370, 0x372, 2, 0x371);
   (0x376, 0x376, 1, 0x377); (0x37F, 0x37F, 1, 0x3F3);
   (0x386, 0x386, 1, 0x3AC); (0x388, 0x38A, 1, 0x3AD);
   (0x38C, 0x38C, 1, 0x3CC); (0x38E, 0x38F, 1, 0x3CD);
   (0x391, 0x3A1, 1, 0x3B1); (0x3A3, 0x3AB, 1, 0x3C3);
   (0x3CF, 0x3CF, 1, 0x3D7); (0x3D8, 0x3EE, 2, 0x3D9);
   (0x3F4, 0x3F4, 1, 0x3B8); (0x3F7, 0x3F7, 1, 0x3F8);
   (0x3F9, 0x3F9, 1, 0x3F2); (0x3FA, 0x3FA, 1, 0x3FB);
   (0x3FD, 0x3FF, 1, 0x37B); (0x400, 0x40F, 1, 0x450);
   (0x410, 0x42F, 1, 0x430); (0x460, 0x480, 2, 0x461);
   (0x48A, 0x4BE, 2, 0x48B); (0x4C0, 0x4C0, 1, 0x4CF);
   (0x4C1, 0x4CD, 2, 0x4C2); (0x4D0, 0x52E, 2, 0x4D1);
   (0x531, 0x556, 1, 0x561); (0x10A0, 0x10C5, 1, 0x2D00);
   (0x10C7, 0x10C7, 1, 0x2D27); (0x10CD, 0x10CD, 1, 0x2D2D);
   (0x13A0, 0x13EF, 1, 0xAB70); (0x13F0, 0x13F5, 1, 0x13F8);
   (0x1C90, 0x1CBA, 1, 0x10D0); (0x1CBD, 0x1CBF, 1, 0x10FD);
   (0x1E00, 0x1E94, 2, 0x1E01); (0x1E9E, 0x1E9E, 1, 0xDF);
   (0x1EA0, 0x1EFE, 2, 0x1EA1); (0x1F08, 0x1F0F, 1, 0x1F00);
   (0x1F18, 0x1F1D, 1, 0x1F10); (0x1F28, 0x1F2F, 1, 0x1F20);
   (0x1F38, 0x1F3F, 1, 0x1F30); (0x1F48, 0x1F4D, 1, 0x1F40);
   (0x1F59, 0x1F5F, 2, 0x1F51); (0x1F68, 0x1F6F, 1, 0x1F60);
   (0x1F88, 0x1F8F, 1, 0x1F80); (0x1F98, 0x1F9F, 1, 0x1F90);
   (0x1FA8, 0x1FAF, 1, 0x1FA0); (0x1FB8, 0x1FB9, 1, 0x1FB0);
   (0x1FBA, 0x1FBB, 1, 0x1F70); (0x1FBC, 0x1FBC, 1, 0x1FB3);
   (0x1FC8, 0x1FCB, 1, 0x1F72); (0x1FCC, 0x1FCC, 1, 0x1FC3);
   (0x1FD8, 0x1FD9, 1, 0x1FD0); (0x1FDA, 0x1FDB, 1, 0x1F76);
   (0x1FE8, 0x1FE9, 1, 0x1FE0); (0x1FEA, 0x1FEB, 1, 0x1F7A);
   (0x1FEC, 0x1FEC, 1, 0x1FE5); (0x1FF8, 0x1FF9, 1, 0x1F78);
   (0x1FFA, 0x1FFB, 1, 0x1F7C); (0x1FFC, 0x1FFC, 1, 0x1FF3);
   (0x2126, 0x2126, 1, 0x3C9); (0x212A, 0x212A, 1, 0x6B);
   (0x212B, 0x212B, 1, 0xE5); (0x2132, 0x2132, 1, 0x214E);
   (0x2160, 0x216F, 1, 0x2170); (0x2183, 0x2183, 1, 0x2184);
   (0x24B6, 0x24CF, 1, 0x24D0); (0x2C00, 0x2C2F, 1, 0x2C30);
   (0x2C60, 0x2C60, 1, 0x2C61); (0x2C62, 0x2C62, 1, 0x26B);
   (0x2C63, 0x2C63, 1, 0x1D7D); (0x2C64, 0x2C64, 1, 0x27D);
   (0x2C67, 0x2C6B, 2, 0x2C68); (0x2C6D, 0x2C6D, 1, 0x251);
   (0x2C6E, 0x2C6E, 1, 0x271); (0x2C6F, 0x2C6F, 1, 0x250);
   (0x2C70, 0x2C70, 1, 0x252); (0x2C72, 0x2C72, 1, 0x2C73);
   (0x2C75, 0x2C75, 1, 0x2C76); (0x2C7E, 0x2C7F, 1, 0x23F);
   (0x2C80, 0x2CE2, 2, 0x2C81); (0x2CEB, 0x2CED, 2, 0x2CEC);
   (0x2CF2, 0x2CF2, 1, 0x2CF3); (0xA640, 0xA66C, 2, 0xA641);
   (0xA680, 0xA69A, 2, 0xA681); (0xA722, 0xA72E, 2, 0xA723);
   (0xA732, 0xA76E, 2, 0xA733); (0xA779, 0xA77B, 2, 0xA77A);
   (0xA77D, 0xA77D, 1, 0x1D79); (0xA77E, 0xA786, 2, 0xA77F);
   (0xA78B, 0xA78B, 1, 0xA78C); (0xA78D, 0xA78D, 1, 0x265);
   (0xA790, 0xA792, 2, 0xA791); (0xA796, 0xA7A8, 2, 0xA797);
   (0xA7AA, 0xA7AA, 1, 0x266); (0xA7AB, 0xA7AB, 1, 0x25C);
   (0xA7AC, 0xA7AC, 1, 0x261); (0xA7AD, 0xA7AD, 1, 0x26C);
   (0xA7AE, 0xA7AE, 1, 0x26A); (0xA7B0, 0xA7B0, 1, 0x29E);
   (0xA7B1, 0xA7B1, 1, 0x287); (0xA7B2, 0xA7B2, 1, 0x29D);
   (0xA7B3, 0xA7B3, 1, 0xAB53); (0xA7B4, 0xA7C2, 2, 0xA7B5);
   (0xA7C4, 0xA7C4, 1, 0xA794); (0xA7C5, 0xA7C5, 1, 0x282);
   (0xA7C6, 0xA7C6, 1, 0x1D8E); (0xA7C7, 0xA7C9, 2, 0xA7C8);
   (0xA7D0, 0xA7D0, 1, 0xA7D1); (0xA7D6, 0xA7D8, 2, 0xA7D7);
   (0xA7F5, 0xA7F5, 1, 0xA7F6); (0xFF21, 0xFF3A, 1, 0xFF41);
   (0x10400, 0x10427, 1, 0x10428); (0x104B0, 0x104D3, 1, 0x104D8);
   (0x10570, 0x10594, 2, 0x10597); (0x10571, 0x10579, 2, 0x10598);
   (0x1057D, 0x10589, 2, 0x105A4); (0x1058D, 0x10591, 2, 0x105B4);
   (0x10595, 0x10595, 1, 0x105BC); (0x10C80, 0x10CB2, 1, 0x10CC0);
   (0x118A0, 0x118BF, 1, 0x118C0); (0x16E40, 0x16E5F, 1, 0x16E60);
   (0x1E900, 0x1E921, 1, 0x1E922)
  ].

(** The code points with the property [Cased] and with the property
    [Case_Ignorable] of [DerivedCoreProperties.txt], as intervals. *)
Definition casedRanges : list (N * N) :=
  [
   (0x41, 0x5A); (0x61, 0x7A); (0xAA, 0xAA); (0xB5, 0xB5); (0xBA, 0xBA);
   (0xC0, 0xD6); (0xD8, 0xF6); (0xF8, 0x1BA); (0x1BC, 0x1BF);
   (0x1C4, 0x293); (0x295, 0x2B8); (0x2C0, 0x2C1); (0x2E0, 0x2E4);
   (0x345, 0x345); (0x370, 0x373); (0x376, 0x377); (0x37A, 0x37D);
   (0x37F, 0x37F); (0x386, 0x386); (0x388, 0x38A); (0x38C, 0x38C);
   (0x38E, 0x3A1); (0x3A3, 0x3F5); (0x3F7, 0x481); (0x48A, 0x52F);
   (0x531, 0x556); (0x560, 0x588); (0x10A0, 0x10C5); (0x10C7, 0x10C7);
   (0x10CD, 0x10CD); (0x10D0, 0x10FA); (0x10FD, 0x10FF); (0x13A0, 0x13F5);
   (0x13F8, 0x13FD); (0x1C80, 0x1C88); (0x1C90, 0x1CBA); (0x1CBD, 0x1CBF);
   (0x1D00, 0x1DBF); (0x1E00, 0x1F15); (0x1F18, 0x1F1D); (0x1F20, 0x1F45);
   (0x1F48, 0x1F4D); (0x1F50, 0x1F57); (0x1F59, 0x1F59); (0x1F5B, 0x1F5B);
   (0x1F5D, 0x1F5D); (0x1F5F, 0x1F7D); (0x1F80, 0x1FB4); (0x1FB6, 0x1FBC);
   (0x1FBE, 0x1FBE); (0x1FC2, 0x1FC4); (0x1FC6, 0x1FCC); (0x1FD0, 0x1FD3);
   (0x1FD6, 0x1FDB); (0x1FE0, 0x1FEC); (0x1FF2, 0x1FF4); (0x1FF6, 0x1FFC);
   (0x2071, 0x2071); (0x207F, 0x207F); (0x2090, 0x209C); (0x2102, 0x2102);
   (0x2107, 0x2107); (0x210A, 0x2113); (0x2115, 0x2115); (0x2119, 0x211D);
   (0x2124, 0x2124); (0x2126, 0x2126); (0x2128, 0x2128); (0x212A, 0x212D);
   (0x212F, 0x2134); (0x2139, 0x2139); (0x213C, 0x213F); (0x2145, 0x2149);
   (0x214E, 0x214E); (0x2160, 0x217F); (0x2183, 0x2184); (0x24B6, 0x24E9);
   (0x2C00, 0x2CE4); (0x2CEB, 0x2CEE); (0x2CF2, 0x2CF3); (0x2D00, 0x2D25);
   (0x2D27, 0x2D27); (0x2D2D, 0x2D2D); (0xA640, 0xA66D); (0xA680, 0xA69D);
   (0xA722, 0xA787); (0xA78B, 0xA78E); (0xA790, 0xA7CA); (0xA7D0, 0xA7D1);
   (0xA7D3, 0xA7D3); (0xA7D5, 0xA7D9); (0xA7F5, 0xA7F6); (0xA7F8, 0xA7FA);
   (0xAB30, 0xAB5A); (0xAB5C, 0xAB68); (0xAB70, 0xABBF); (0xFB00, 0xFB06);
   (0xFB13, 0xFB17); (0xFF21, 0xFF3A); (0xFF41, 0xFF5A); (0x10400, 0x1044F);
   (0x104B0, 0x104D3); (0x104D8, 0x104FB); (0x10570, 0x1057A);
   (0x1057C, 0x1058A); (0x1058C, 0x10592); (0x10594, 0x10595);
   (0x10597, 0x105A1); (0x105A3, 0x105B1); (0x105B3, 0x105B9);
   (0x105BB, 0x105BC); (0x10780, 0x10780); (0x10783, 0x10785);
   (0x10787, 0x107B0); (0x107B2, 0x107BA); (0x10C80, 0x10CB2);
   (0x10CC0, 0x10CF2); (0x118A0, 0x118DF); (0x16E40, 0x16E7F);
   (0x1D400, 0x1D454); (0x1D456, 0x1D49C); (0x1D49E, 0x1D49F);
   (0x1D4A2, 0x1D4A2); (0x1D4A5, 0x1D4A6); (0x1D4A9, 0x1D4AC);
   (0x1D4AE, 0x1D4B9); (0x1D4BB, 0x1D4BB); (0x1D4BD, 0x1D4C3);
   (0x1D4C5, 0x1D505); (0x1D507, 0x1D50A); (0x1D50D, 0x1D514);
   (0x1D516, 0x1D51C); (0x1D51E, 0x1D539); (0x1D53B, 0x1D53E);
   (0x1D540, 0x1D544); (0x1D546, 0x1D546); (0x1D54A, 0x1D550);
   (0x1D552, 0x1D6A5); (0x1D6A8, 0x1D6C0); (0x1D6C2, 0x1D6DA);
   (0x1D6DC, 0x1D6FA); (0x1D6FC, 0x1D714); (0x1D716, 0x1D734);
   (0x1D736, 0x1D74E); (0x1D750, 0x1D76E); (0x1D770, 0x1D788);
   (0x1D78A, 0x1D7A8); (0x1D7AA, 0x1D7C2); (0x1D7C4, 0x1D7CB);
   (0x1DF00, 0x1DF09); (0x1DF0B, 0x1DF1E); (0x1E900, 0x1E943);
   (0x1F130, 0x1F149); (0x1F150, 0x1F169); (0x1F170, 0x1F189)
  ].

Definition caseIgnorableRanges : list (N * N) :=
  [
   (0x27, 0x27); (0x2E, 0x2E); (0x3A, 0x3A); (0x5E, 0x5E); (0x60, 0x60);
   (0xA8, 0xA8); (0xAD, 0xAD); (0xAF, 0xAF); (0xB4, 0xB4); (0xB7, 0xB8);
   (0x2B0, 0x36F); (0x374, 0x375); (0x37A, 0x37A); (0x384, 0x385);
   (0x387, 0x387); (0x483, 0x489); (0x559, 0x559); (0x55F, 0x55F);
   (0x591, 0x5BD); (0x5BF, 0x5BF); (0x5C1, 0x5C2); (0x5C4, 0x5C5);
   (0x5C7, 0x5C7); (0x5F4, 0x5F4); (0x600, 0x605); (0x610, 0x61A);
   (0x61C, 0x61C); (0x640, 0x640); (0x64B, 0x65F); (0x670, 0x670);
   (0x6D6, 0x6DD); (0x6DF, 0x6E8); (0x6EA, 0x6ED); (0x70F, 0x70F);
   (0x711, 0x711); (0x730, 0x74A); (0x7A6, 0x7B0); (0x7EB, 0x7F5);
   (0x7FA, 0x7FA); (0x7FD, 0x7FD); (0x816, 0x82D); (0x859, 0x85B);
   (0x888, 0x888); (0x890, 0x891); (0x898, 0x89F); (0x8C9, 0x902);
   (0x93A, 0x93A); (0x93C, 0x93C); (0x941, 0x948); (0x94D, 0x94D);
   (0x951, 0x957); (0x962, 0x963); (0x971, 0x971); (0x981, 0x981);
   (0x9BC, 0x9BC); (0x9C1, 0x9C4); (0x9CD, 0x9CD); (0x9E2, 0x9E3);
   (0x9FE, 0x9FE); (0xA01, 0xA02); (0xA3C, 0xA3C); (0xA41, 0xA42);
   (0xA47, 0xA48); (0xA4B, 0xA4D); (0xA51, 0xA51); (0xA70, 0xA71);
   (0xA75, 0xA75); (0xA81, 0xA82); (0xABC, 0xABC); (0xAC1, 0xAC5);
   (0xAC7, 0xAC8); (0xACD, 0xACD); (0xAE2, 0xAE3); (0xAFA, 0xAFF);
   (0xB01, 0xB01); (0xB3C, 0xB3C); (0xB3F, 0xB3F); (0xB41, 0xB44);
   (0xB4D, 0xB4D); (0xB55, 0xB56); (0xB62, 0xB63); (0xB82, 0xB82);
   (0xBC0, 0xBC0); (0xBCD, 0xBCD); (0xC00, 0xC00); (0xC04, 0xC04);
   (0xC3C, 0xC3C); (0xC3E, 0xC40); (0xC46, 0xC48); (0xC4A, 0xC4D);
   (0xC55, 0xC56); (0xC62, 0xC63); (0xC81, 0xC81); (0xCBC, 0xCBC);
   (0xCBF, 0xCBF); (0xCC6, 0xCC6); (0xCCC, 0xCCD); (0xCE2, 0xCE3);
   (0xD00, 0xD01); (0xD3B, 0xD3C); (0xD41, 0xD44); (0xD4D, 0xD4D);
   (0xD62, 0xD63); (0xD81, 0xD81); (0xDCA, 0xDCA); (0xDD2, 0xDD4);
   (0xDD6, 0xDD6); (0xE31, 0xE31); (0xE34, 0xE3A); (0xE46, 0xE4E);
   (0xEB1, 0xEB1); (0xEB4, 0xEBC); (0xEC6, 0xEC6); (0xEC8, 0xECD);
   (0xF18, 0xF19); (0xF35, 0xF35); (0xF37, 0xF37); (0xF39, 0xF39);
   (0xF71, 0xF7E); (0xF80, 0xF84); (0xF86, 0xF87); (0xF8D, 0xF97);
   (0xF99, 0xFBC); (0xFC6, 0xFC6); (0x102D, 0x1030); (0x1032, 0x1037);
   (0x1039, 0x103A); (0x103D, 0x103E); (0x1058, 0x1059); (0x105E, 0x1060);
   (0x1071, 0x1074); (0x1082, 0x1082); (0x1085, 0x1086); (0x108D, 0x108D);
   (0x109D, 0x109D); (0x10FC, 0x10FC); (0x135D, 0x135F); (0x1712, 0x1714);
   (0x1732, 0x1733); (0x1752, 0x1753); (0x1772, 0x1773); (0x17B4, 0x17B5);
   (0x17B7, 0x17BD); (0x17C6, 0x17C6); (0x17C9, 0x17D3); (0x17D7, 0x17D7);
   (0x17DD, 0x17DD); (0x180B, 0x180F); (0x1843, 0x1843); (0x1885, 0x1886);
   (0x18A9, 0x18A9); (0x1920, 0x1922); (0x1927, 0x1928); (0x1932, 0x1932);
   (0x1939, 0x193B); (0x1A17, 0x1A18); (0x1A1B, 0x1A1B); (0x1A56, 0x1A56);
   (0x1A58, 0x1A5E); (0x1A60, 0x1A60); (0x1A62, 0x1A62); (0x1A65, 0x1A6C);
   (0x1A73, 0x1A7C); (0x1A7F, 0x1A7F); (0x1AA7, 0x1AA7); (0x1AB0, 0x1ACE);
   (0x1B00, 0x1B03); (0x1B34, 0x1B34); (0x1B36, 0x1B3A); (0x1B3C, 0x1B3C);
   (0x1B42, 0x1B42); (0x1B6B, 0x1B73); (0x1B80, 0x1B81); (0x1BA2, 0x1BA5);
   (0x1BA8, 0x1BA9); (0x1BAB, 0x1BAD); (0x1BE6, 0x1BE6); (0x1BE8, 0x1BE9);
   (0x1BED, 0x1BED); (0x1BEF, 0x1BF1); (0x1C2C, 0x1C33); (0x1C36, 0x1C37);
   (0x1C78, 0x1C7D); (0x1CD0, 0x1CD2); (0x1CD4, 0x1CE0); (0x1CE2, 0x1CE8);
   (0x1CED, 0x1CED); (0x1CF4, 0x1CF4); (0x1CF8, 0x1CF9); (0x1D2C, 0x1D6A);
   (0x1D78, 0x1D78); (0x1D9B, 0x1DFF); (0x1FBD, 0x1FBD); (0x1FBF, 0x1FC1);
   (0x1FCD, 0x1FCF); (0x1FDD, 0x1FDF); (0x1FED, 0x1FEF); (0x1FFD, 0x1FFE);
   (0x200B, 0x200F); (0x2018, 0x2019); (0x2024, 0x2024); (0x2027, 0x2027);
   (0x202A, 0x202E); (0x2060, 0x2064); (0x2066, 0x206F); (0x2071, 0x2071);
   (0x207F, 0x207F); (0x2090, 0x209C); (0x20D0, 0x20F0); (0x2C7C, 0x2C7D);
   (0x2CEF, 0x2CF1); (0x2D6F, 0x2D6F); (0x2D7F, 0x2D7F); (0x2DE0, 0x2DFF);
   (0x2E2F, 0x2E2F); (0x3005, 0x3005); (0x302A, 0x302D); (0x3031, 0x3035);
   (0x303B, 0x303B); (0x3099, 0x309E); (0x30FC, 0x30FE); (0xA015, 0xA015);
   (0xA4F8, 0xA4FD); (0xA60C, 0xA60C); (0xA66F, 0xA672); (0xA674, 0xA67D);
   (0xA67F, 0xA67F); (0xA69C, 0xA69F); (0xA6F0, 0xA6F1); (0xA700, 0xA721);
   (0xA770, 0xA770); (0xA788, 0xA78A); (0xA7F2, 0xA7F4); (0xA7F8, 0xA7F9);
   (0xA802, 0xA802); (0xA806, 0xA806); (0xA80B, 0xA80B); (0xA825, 0xA826);
   (0xA82C, 0xA82C); (0xA8C4, 0xA8C5); (0xA8E0, 0xA8F1); (0xA8FF, 0xA8FF);
   (0xA926, 0xA92D); (0xA947, 0xA951); (0xA980, 0xA982); (0xA9B3, 0xA9B3);
   (0xA9B6, 0xA9B9); (0xA9BC, 0xA9BD); (0xA9CF, 0xA9CF); (0xA9E5, 0xA9E6);
   (0xAA29, 0xAA2E); (0xAA31, 0xAA32); (0xAA35, 0xAA36); (0xAA43, 0xAA43);
   (0xAA4C, 0xAA4C); (0xAA70, 0xAA70); (0xAA7C, 0xAA7C); (0xAAB0, 0xAAB0);
   (0xAAB2, 0xAAB4); (0xAAB7, 0xAAB8); (0xAABE, 0xAABF); (0xAAC1, 0xAAC1);
   (0xAADD, 0xAADD); (0xAAEC, 0xAAED); (0xAAF3, 0xAAF4); (0xAAF6, 0xAAF6);
   (0xAB5B, 0xAB5F); (0xAB69, 0xAB6B); (0xABE5, 0xABE5); (0xABE8, 0xABE8);
   (0xABED, 0xABED); (0xFB1E, 0xFB1E); (0xFBB2, 0xFBC2); (0xFE00, 0xFE0F);
   (0xFE13, 0xFE13); (0xFE20, 0xFE2F); (0xFE52, 0xFE52); (0xFE55, 0xFE55);
   (0xFEFF, 0xFEFF); (0xFF07, 0xFF07); (0xFF0E, 0xFF0E); (0xFF1A, 0xFF1A);
   (0xFF3E, 0xFF3E); (0xFF40, 0xFF40); (0xFF70, 0xFF70); (0xFF9E, 0xFF9F);
   (0xFFE3, 0xFFE3); (0xFFF9, 0xFFFB); (0x101FD, 0x101FD);
   (0x102E0, 0x102E0); (0x10376, 0x1037A); (0x10780, 0x10785);
   (0x10787, 0x107B0); (0x107B2, 0x107BA); (0x10A01, 0x10A03);
   (0x10A05, 0x10A06); (0x10A0C, 0x10A0F); (0x10A38, 0x10A3A);
   (0x10A3F, 0x10A3F); (0x10AE5, 0x10AE6); (0x10D24, 0x10D27);
   (0x10EAB, 0x10EAC); (0x10F46, 0x10F50); (0x10F82, 0x10F85);
   (0x11001, 0x11001); (0x11038, 0x11046); (0x11070, 0x11070);
   (0x11073, 0x11074); (0x1107F, 0x11081); (0x110B3, 0x110B6);
   (0x110B9, 0x110BA); (0x110BD, 0x110BD); (0x110C2, 0x110C2);
   (0x110CD, 0x110CD); (0x11100, 0x11102); (0x11127, 0x1112B);
   (0x1112D, 0x11134); (0x11173, 0x11173); (0x11180, 0x11181);
   (0x111B6, 0x111BE); (0x111C9, 0x111CC); (0x111CF, 0x111CF);
   (0x1122F, 0x11231); (0x11234, 0x11234); (0x11236, 0x11237);
   (0x1123E, 0x1123E); (0x112DF, 0x112DF); (0x112E3, 0x112EA);
   (0x11300, 0x11301); (0x1133B, 0x1133C); (0x11340, 0x11340);
   (0x11366, 0x1136C); (0x11370, 0x11374); (0x11438, 0x1143F);
   (0x11442, 0x11444); (0x11446, 0x11446); (0x1145E, 0x1145E);
   (0x114B3, 0x114B8); (0x114BA, 0x114BA); (0x114BF, 0x114C0);
   (0x114C2, 0x114C3); (0x115B2, 0x115B5); (0x115BC, 0x115BD);
   (0x115BF, 0x115C0); (0x115DC, 0x115DD); (0x11633, 0x1163A);
   (0x1163D, 0x1163D); (0x1163F, 0x11640); (0x116AB, 0x116AB);
   (0x116AD, 0x116AD); (0x116B0, 0x116B5); (0x116B7, 0x116B7);
   (0x1171D, 0x1171F); (0x11722, 0x11725); (0x11727, 0x1172B);
   (0x1182F, 0x11837); (0x11839, 0x1183A); (0x1193B, 0x1193C);
   (0x1193E, 0x1193E); (0x11943, 0x11943); (0x119D4, 0x119D7);
   (0x119DA, 0x119DB); (0x119E0, 0x119E0); (0x11A01, 0x11A0A);
   (0x11A33, 0x11A38); (0x11A3B, 0x11A3E); (0x11A47, 0x11A47);
   (0x11A51, 0x11A56); (0x11A59, 0x11A5B); (0x11A8A, 0x11A96);
   (0x11A98, 0x11A99); (0x11C30, 0x11C36); (0x11C38, 0x11C3D);
   (0x11C3F, 0x11C3F); (0x11C92, 0x11CA7); (0x11CAA, 0x11CB0);
   (0x11CB2, 0x11CB3); (0x11CB5, 0x11CB6); (0x11D31, 0x11D36);
   (0x11D3A, 0x11D3A); (0x11D3C, 0x11D3D); (0x11D3F, 0x11D45);
   (0x11D47, 0x11D47); (0x11D90, 0x11D91); (0x11D95, 0x11D95);
   (0x11D97, 0x11D97); (0x11EF3, 0x11EF4); (0x13430, 0x13438);
   (0x16AF0, 0x16AF4); (0x16B30, 0x16B36); (0x16B40, 0x16B43);
   (0x16F4F, 0x16F4F); (0x16F8F, 0x16F9F); (0x16FE0, 0x16FE1);
   (0x16FE3, 0x16FE4); (0x1AFF0, 0x1AFF3); (0x1AFF5, 0x1AFFB);
   (0x1AFFD, 0x1AFFE); (0x1BC9D, 0x1BC9E); (0x1BCA0, 0x1BCA3);
   (0x1CF00, 0x1CF2D); (0x1CF30, 0x1CF46); (0x1D167, 0x1D169);
   (0x1D173, 0x1D182); (0x1D185, 0x1D18B); (0x1D1AA, 0x1D1AD);
   (0x1D242, 0x1D244); (0x1DA00, 0x1DA36); (0x1DA3B, 0x1DA6C);
   (0x1DA75, 0x1DA75); (0x1DA84, 0x1DA84); (0x1DA9B, 0x1DA9F);
   (0x1DAA1, 0x1DAAF); (0x1E000, 0x1E006); (0x1E008, 0x1E018);
   (0x1E01B, 0x1E021); (0x1E023, 0x1E024); (0x1E026, 0x1E02A);
   (0x1E130, 0x1E13D); (0x1E2AE, 0x1E2AE); (0x1E2EC, 0x1E2EF);
   (0x1E8D0, 0x1E8D6); (0x1E944, 0x1E94B); (0x1F3FB, 0x1F3FF);
   (0xE0001, 0xE0001); (0xE0020, 0xE007F); (0xE0100, 0xE01EF)
  ].

Definition covers (c : N) (e : N * N * N * N) : bool :=
  let '(first, last, step, _) := e in
  in_range first last c && ((c - first) mod step =? 0).

Definition simpleLower (c : N) : N :=
  match find (covers c) lowerTable with
  | Some (first, _, _, image) => image + (c - first)
  | None => c
  end.

Definition within (c : N) (r : N * N) : bool := in_range (fst r) (snd r) c.

Definition isCased (c : N) : bool := existsb (within c) casedRanges.

Definition isCaseIgnorable (c : N) : bool :=
  existsb (within c) caseIgnorableRanges.

End Unicode.

Definition isHighSurrogate (u : N) : bool := in_range 0xD800 0xDBFF u.
Definition isLowSurrogate (u : N) : bool := in_range 0xDC00 0xDFFF u.

(** [StringToCodePoints]: a high surrogate followed by a low one is one
    supplementary code point, any other code unit a code point by
    itself. *)
Fixpoint codePoints (s : str) : list N :=
  match s with
  | [] => []
  | u :: s' =>
      match s' with
      | v :: s'' =>
          if isHighSurrogate u && isLowSurrogate v
          then (0x10000 + (u - 0xD800) * 0x400 + (v - 0xDC00))%N
               :: codePoints s''
          else u :: codePoints s'
      | [] => [u]
      end
  end.

(** [UTF16EncodeCodePoint]. *)
Definition utf16 (c : N) : str :=
  if in_range 0x10000 0x10FFFF c
  then [(0xD800 + (c - 0x10000) / 0x400)%N;
        (0xDC00 + (c - 0x10000) mod 0x400)%N]
  else [c].

(** Whether what follows is a run of case-ignorable code points and
    then a cased one; the second half of the condition [Final_Sigma]
    is that it is not. *)
Fixpoint followedByCased (cps : list N) : bool :=
  match cps with
  | [] => false
  | c :: rest =>
      if Unicode.isCaseIgnorable c then followedByCased rest
      else Unicode.isCased c
  end.

(** The Unicode default lower-casing of a sequence of code points.
    [afterCased] is the first half of [Final_Sigma]: what precedes is a
    cased code point and then a run of case-ignorable ones.  The two
    entries of [SpecialCasing.txt] that do not depend on the language
    are written out: U+0130 becomes U+0069 U+0307, and U+03A3 becomes
    U+03C2 at the end of a word and U+03C3 elsewhere. *)
Fixpoint lowerPoints (afterCased : bool) (cps : list N) : list N :=
  match cps with
  | [] => []
  | c :: rest =>
      (if (c =? 0x130)%N then [0x69%N; 0x307%N]
       else if (c =? 0x3A3)%N
       then [if afterCased && negb (followedByCased rest)
             then 0x3C2%N else 0x3C3%N]
       else [Unicode.simpleLower c])
      ++ lowerPoints (if Unicode.isCaseIgnorable c then afterCased
                      else Unicode.isCased c) rest
  end.

(** [String.prototype.toLowerCase]. *)
Definition toLowerCase (s : str) : str :=
  flat_map utf16 (lowerPoints false (codePoints s)).

(** [\w] without the unicode flag: [A-Za-z0-9_]. *)
Definition isWord (c : N) : bool :=
  in_range 65 90 c || in_range 97 122 c || in_range 48 57 c || (c =? 95)%N.

(** [\s], and the code units [trim] removes: the white space and the
    line terminators of ECMAScript. *)
Definition isSpace (c : N) : bool :=
  in_range 9 13 c || (c =? 32)%N || (c =? 0xA0)%N || (c =? 0x1680)%N
  || in_range 0x2000 0x200A c || in_range 0x2028 0x2029 c
  || (c =? 0x202F)%N || (c =? 0x205F)%N || (c =? 0x3000)%N
  || (c =? 0xFEFF)%N.

Fixpoint dropWhile (p : N -> bool) (s : str) : str :=
  match s with
  | [] => []
  | c :: s' => if p c then dropWhile p s' else s
  end.

Definition trim (s : str) : str :=
  rev (dropWhile isSpace (rev (dropWhile isSpace s))).

(** [Array.prototype.includes] on an array of strings. *)
Definition includes (l : list str) (x : str) : bool :=
  existsb (str_eqb x) l.

(** [[...new Set(flat)]]: the distinct elements in order of first
    occurrence. *)
Fixpoint uniq_acc (seen : list str) (l : list str) : list str :=
  match l with
  | [] => []
  | x :: l' =>
      if includes seen x then uniq_acc seen l'
      else x :: uniq_acc (x :: seen) l'
  end.

Definition uniq (l : list str) : list str := uniq_acc [] l.

(** The elements of an array of numbers-or-null that pass
    [(v) => v != null]. *)
Fixpoint nonNull {N : Type} (l : list (option N)) : list N :=
  match l with
  | [] => []
  | Some v :: l' => v :: nonNull l'
  | None :: l' => nonNull l'
  end.

(** [reduce((sum, v) => sum + v, 0)]. *)
Definition sum (l : list Z) : Z := fold_left Z.add l 0%Z.

(** [Array.prototype.sort(cmp)]: the sort is stable, and [cmp a b <= 0]
    keeps [a] in front of [b].  Insertion from the right end yields the
    stable order. *)
Section Sort.
Context {A : Type}.
Variable cmp : A -> A -> Z.

Fixpoint insert (x : A) (l : list A) : list A :=
  match l with
  | [] => [x]
  | y :: l' => if (cmp x y <=? 0)%Z then x :: l else y :: insert x l'
  end.

Definition sort (l : list A) : list A := fold_right insert [] l.
End Sort.

End Js.

Import Js.

(* ================================================================== *)
(** ** Data model *)
(* ================================================================== *)

(** One Stage 2.5 verification result. *)
Record VerificationResult := mkResult {
  model : str;
  claim : str;
  status : str;
  delta : option str;
  source : option str
}.

(** One Stage 1 model response, as far as the utilities read it, over
    the numbers [N] a confidence is drawn from.  [factual_claims] is
    [None] when the field is absent or not an array. *)
Record ResponseOf (N : Type) := mkResponseOf {
  r_model : str;
  confidence : option N;
  factual_claims : option (list str)
}.

Arguments mkResponseOf {N}.
Arguments r_model {N}.
Arguments confidence {N}.
Arguments factual_claims {N}.

(** A response whose confidence is an integer score. *)
Definition ModelResponse : Type := ResponseOf Z.

Definition mkResponse (m : str) (c : option Z) (fc : option (list str))
  : ModelResponse := mkResponseOf m c fc.

(** One entry of the aggregate rankings of Stage 2. *)
Record AggregateRanking := mkRanking {
  a_model : str;
  average_rank : Q
}.

Inductive verdict :=
  Verified | Disputed | Consensus | Split | Uncertain | Unknown.

Inductive alignment :=
  AlignUnanimous | AlignMajority | AlignSplit | AlignUnknown.

Definition CONTRADICTED : str := lit "CONTRADICTED".
Definition VERIFIED : str := lit "VERIFIED".
Definition CONTESTED : str := lit "CONTESTED".
Definition UNVERIFIABLE : str := lit "UNVERIFIABLE".

(* ================================================================== *)
(** ** [calcVerdict] and [calcPeerAlignment] *)
(* ================================================================== *)

(** [str.toLowerCase().replace(/[^\w\s]/g, '').trim()] *)
Definition normalize (s : str) : str :=
  trim (filter (fun c => isWord c || isSpace c) (toLowerCase s)).

Definition isContradicted (r : VerificationResult) : bool :=
  str_eqb (status r) CONTRADICTED.

Definition isVerified (r : VerificationResult) : bool :=
  str_eqb (status r) VERIFIED.

(** [r.status === 'VERIFIED' || r.status === 'CONTRADICTED' ||
    r.status === 'CONTESTED'] *)
Definition isActionable (r : VerificationResult) : bool :=
  str_eqb (status r) VERIFIED || str_eqb (status r) CONTRADICTED
  || str_eqb (status r) CONTESTED.

(** Step 1 of the waterfall; [None] is the fall-through to Step 2. *)
Definition externalEvidence (stage25 : option (list VerificationResult))
  : option verdict :=
  match stage25 with
  | None | Some [] => None
  | Some rs =>
      if existsb isContradicted rs then Some Disputed
      else
        let actionable := filter isActionable rs in
        if (0 <? length actionable) && forallb isVerified actionable
        then Some Verified
        else None
  end.

(** [stage1.map((r) => r.confidence).filter((v) => v != null)] *)
Definition confidences (stage1 : list ModelResponse) : list Z :=
  nonNull (map confidence stage1).

(** [avgConf]: the mean, or [null] when nobody declared a confidence. *)
Definition avgConf (stage1 : list ModelResponse) : option Q :=
  let cs := confidences stage1 in
  if 0 <? length cs
  then Some (Js.sum cs # Pos.of_nat (length cs))
  else None.

Definition Qlt_bool (x y : Q) : bool := negb (Qle_bool y x).

(** [avgConf !== null && avgConf < k] *)
Definition avgBelow (a : option Q) (k : Z) : bool :=
  match a with
  | Some q => Qlt_bool q (inject_Z k)
  | None => false
  end.

(** [avgConf !== null && avgConf >= k] *)
Definition avgAtLeast (a : option Q) (k : Z) : bool :=
  match a with
  | Some q => Qle_bool (inject_Z k) q
  | None => false
  end.

(** [stage1.map((r) => Array.isArray(r.factual_claims)
                        ? r.factual_claims.map(normalize) : [])] *)
Definition allClaims {N : Type} (stage1 : list (ResponseOf N))
  : list (list str) :=
  map (fun r => match factual_claims r with
                | Some cs => map normalize cs
                | None => []
                end) stage1.

Definition unique {N : Type} (stage1 : list (ResponseOf N)) : list str :=
  uniq (concat (allClaims stage1)).

(** [allClaims.filter((list) => list.includes(claim)).length >= 2] *)
Definition sharedByTwo (lists : list (list str)) (c : str) : bool :=
  2 <=? length (filter (fun l => includes l c) lists).

Definition overlapping {N : Type} (stage1 : list (ResponseOf N))
  : list str :=
  filter (sharedByTwo (allClaims stage1)) (unique stage1).

(** [overlapping.length / unique.length], read only where [unique] is
    not empty. *)
Definition overlapRatio {N : Type} (stage1 : list (ResponseOf N)) : Q :=
  Z.of_nat (length (overlapping stage1))
  # Pos.of_nat (length (unique stage1)).

(** Step 2 of the waterfall on a non-empty Stage 1 list, given the two
    tests on the mean: [below k] is [avgConf !== null && avgConf < k],
    [atLeast k] is [avgConf !== null && avgConf >= k]. *)
Definition agreement {N : Type} (below atLeast : Z -> bool)
    (rs : list (ResponseOf N)) : verdict :=
  if below 50%Z then Uncertain
  else if forallb (fun l => length l =? 0) (allClaims rs)
  then (if atLeast 65%Z then Consensus else Split)
  else if Qle_bool (1 # 2) (overlapRatio rs) && atLeast 65%Z
  then Consensus
  else if below 55%Z then Uncertain else Split.

(** Step 2 of the waterfall. *)
Definition factualConsensus (stage1 : option (list ModelResponse))
  : verdict :=
  match stage1 with
  | None | Some [] => Unknown
  | Some rs =>
      let avg := avgConf rs in
      agreement (avgBelow avg) (avgAtLeast avg) rs
  end.

Definition calcVerdict (stage25 : option (list VerificationResult))
                       (stage1 : option (list ModelResponse)) : verdict :=
  match externalEvidence stage25 with
  | Some v => v
  | None => factualConsensus stage1
  end.

(** The waterfall on binary64 numbers: the sum, the division and the
    comparisons are those of IEEE 754 doubles. *)
Module Binary64.

Definition ofZ (k : Z) : float := PrimFloat.of_uint63 (Uint63.of_Z k).

(** [reduce((sum, v) => sum + v, 0)] *)
Definition sum (l : list float) : float :=
  fold_left PrimFloat.add l (ofZ 0).

Definition avgConf (stage1 : list (ResponseOf float)) : option float :=
  let cs := nonNull (map confidence stage1) in
  if 0 <? length cs
  then Some (PrimFloat.div (sum cs) (ofZ (Z.of_nat (length cs))))
  else None.

Definition avgBelow (a : option float) (k : Z) : bool :=
  match a with
  | Some x => PrimFloat.ltb x (ofZ k)
  | None => false
  end.

Definition avgAtLeast (a : option float) (k : Z) : bool :=
  match a with
  | Some x => PrimFloat.leb (ofZ k) x
  | None => false
  end.

Definition factualConsensus (stage1 : option (list (ResponseOf float)))
  : verdict :=
  match stage1 with
  | None | Some [] => Unknown
  | Some rs =>
      let avg := avgConf rs in
      agreement (avgBelow avg) (avgAtLeast avg) rs
  end.

Definition calcVerdict (stage25 : option (list VerificationResult))
    (stage1 : option (list (ResponseOf float))) : verdict :=
  match externalEvidence stage25 with
  | Some v => v
  | None => factualConsensus stage1
  end.

End Binary64.

(** The spread of the declared confidences:
    [Math.max(...confidences) - Math.min(...confidences)]. *)
Definition maxOf (l : list Z) : Z :=
  match l with
  | [] => 0%Z
  | x :: l' => fold_left Z.max l' x
  end.

Definition minOf (l : list Z) : Z :=
  match l with
  | [] => 0%Z
  | x :: l' => fold_left Z.min l' x
  end.

Definition calcPeerAlignment (stage1 : option (list ModelResponse))
  : alignment :=
  match stage1 with
  | None => AlignUnknown
  | Some rs =>
      if length rs <? 2 then AlignUnknown
      else if 0 <? length (unique rs)
      then
        let ratio := overlapRatio rs in
        if Qle_bool (1 # 2) ratio then AlignUnanimous
        else if Qle_bool (1 # 5) ratio then AlignMajority
        else AlignSplit
      else
        let cs := confidences rs in
        if length cs =? 0 then AlignUnknown
        else
          let spread := (maxOf cs - minOf cs)%Z in
          if (spread <=? 15)%Z then AlignUnanimous
          else if (spread <=? 30)%Z then AlignMajority
          else AlignSplit
  end.

(** The call sites in [EpistemicSummary] and [EpistemicDrawer] pass the
    aggregate rankings: [calcPeerAlignment(aggregateRankings)].  Read as
    a Stage 1 response, a ranking entry has neither [confidence] nor
    [factual_claims]: both property reads give [undefined]. *)
Definition rankingAsResponse (a : AggregateRanking) : ModelResponse :=
  mkResponse (a_model a) None None.

Definition peerAlignmentAtCallSite
  (aggregateRankings : option (list AggregateRanking)) : alignment :=
  calcPeerAlignment (option_map (map rankingAsResponse) aggregateRankings).

(* ================================================================== *)
(** ** [annotateChairmanText] *)
(* ================================================================== *)

Module Annotate.

Fixpoint isPrefix (p s : str) : bool :=
  match p, s with
  | [], _ => true
  | x :: p', y :: s' => N.eqb x y && isPrefix p' s'
  | _ :: _, [] => false
  end.

(** Scan of [hay], the text from position [i] on, for [needle]. *)
Fixpoint indexOfFrom (needle hay : str) (i : nat) : option nat :=
  match hay with
  | [] => if isPrefix needle [] then Some i else None
  | _ :: hay' =>
      if isPrefix needle hay then Some i
      else indexOfFrom needle hay' (S i)
  end.

(** [s.indexOf(needle, pos)]; [None] is the source's [-1]. *)
Definition indexOf (s needle : str) (pos : nat) : option nat :=
  indexOfFrom needle (skipn pos s) (Nat.min pos (length s)).

(** [s.slice(a, b)] and [s.slice(a)] for indices that are not negative. *)
Definition slice (s : str) (a b : nat) : str := firstn (b - a) (skipn a s).
Definition sliceFrom (s : str) (a : nat) : str := skipn a s.

(** [{ ...r, originalIdx: idx }] *)
Record Item := mkItem {
  item : VerificationResult;
  originalIdx : nat
}.

Record Replacement := mkReplacement {
  start : nat;
  end_ : nat;
  claimIdx : nat;
  rstatus : str
}.

Fixpoint withIndex (rs : list VerificationResult) (idx : nat) : list Item :=
  match rs with
  | [] => []
  | r :: rs' => mkItem r idx :: withIndex rs' (S idx)
  end.

(** [stage25Results.map((r, idx) => ({ ...r, originalIdx: idx }))
      .filter((r) => ['VERIFIED', 'CONTRADICTED', 'CONTESTED']
                       .includes(r.status))] *)
Definition actionable (rs : list VerificationResult) : list Item :=
  filter (fun it => includes [VERIFIED; CONTRADICTED; CONTESTED]
                             (status (item it)))
         (withIndex rs 0).

(** [(a, b) => b.claim.length - a.claim.length] *)
Definition byClaimLength (a b : Item) : Z :=
  (Z.of_nat (length (claim (item b))) - Z.of_nat (length (claim (item a))))%Z.

(** The order in which the claims are matched. *)
Definition matchingOrder (rs : list VerificationResult) : list Item :=
  Js.sort byClaimLength (actionable rs).

(** [used.some(([s, e]) => found < e && end > s)] *)
Definition overlaps (used : list (nat * nat)) (found e : nat) : bool :=
  existsb (fun u => (found <? snd u) && (fst u <? e)) used.

(** The [while] loop: the next occurrence at or after [pos] whose span
    is free.  Every round moves [pos] past the occurrence it rejected,
    so [fuel] rounds with [length lower < pos + fuel] are enough. *)
Fixpoint search (lower claimLower : str) (len : nat)
    (used : list (nat * nat)) (pos fuel : nat) : option (nat * nat) :=
  match fuel with
  | 0 => None
  | S fuel' =>
      match indexOf lower claimLower pos with
      | None => None
      | Some found =>
          let e := found + len in
          if overlaps used found e
          then search lower claimLower len used (found + 1) fuel'
          else Some (found, e)
      end
  end.

(** The two arrays the [for] loop grows. *)
Definition matchState : Type := (list Replacement * list (nat * nat))%type.

(** One round of the [for] loop. *)
Definition matchItem (lower : str) (st : matchState) (it : Item)
  : matchState :=
  let claimLower := toLowerCase (claim (item it)) in
  match claimLower with
  | [] => st
  | _ :: _ =>
      match search lower claimLower (length (claim (item it))) (snd st)
                   0 (S (length lower)) with
      | Some (found, e) =>
          (fst st ++ [mkReplacement found e (originalIdx it)
                                    (toLowerCase (status (item it)))],
           snd st ++ [(found, e)])
      | None => st
      end
  end.

Definition matchAll (responseText : str) (items : list Item) : matchState :=
  fold_left (matchItem (toLowerCase responseText)) items ([], []).

(** [replacements], in the order the loop pushed them. *)
Definition replacements (responseText : str) (rs : list VerificationResult)
  : list Replacement :=
  fst (matchAll responseText (matchingOrder rs)).

(** [(a, b) => b.start - a.start] *)
Definition byStartDesc (a b : Replacement) : Z :=
  (Z.of_nat (start b) - Z.of_nat (start a))%Z.

Definition dq : N := 34%N.

(** [String(claimIdx)] *)
Definition decimal (n : nat) : str :=
  lit (NilZero.string_of_uint (Nat.to_uint n)).

(** The opening tag of the template literal. *)
Definition openTag (st : str) (idx : nat) : str :=
  lit "<span class=" ++ [dq] ++ lit "claim-annotation claim-annotation--"
  ++ st ++ [dq] ++ lit " data-claim-idx=" ++ [dq] ++ decimal idx ++ [dq]
  ++ lit " role=" ++ [dq] ++ lit "button" ++ [dq]
  ++ lit " tabindex=" ++ [dq] ++ lit "0" ++ [dq] ++ lit ">".

Definition closeTag : str := lit "</span>".

(** One round of the injection loop. *)
Definition inject (result : str) (r : Replacement) : str :=
  let piece := slice result (start r) (end_ r) in
  let span := openTag (rstatus r) (claimIdx r) ++ piece ++ closeTag in
  slice result 0 (start r) ++ span ++ sliceFrom result (end_ r).

Definition annotateChairmanText (responseText : str)
    (stage25Results : option (list VerificationResult)) : str :=
  match stage25Results with
  | None | Some [] => responseText
  | Some rs =>
      if length (actionable rs) =? 0 then responseText
      else
        let reps := replacements responseText rs in
        if length reps =? 0 then responseText
        else fold_left inject (Js.sort byStartDesc reps) responseText
  end.

End Annotate.

(* ================================================================== *)
(** ** The Phase 0 review flow of [App.jsx] *)
(* ================================================================== *)

Module App.

Record Phase0State := mkPhase0 {
  status : str;
  original : str;
  scrubbed : str;
  reasoning : str
}.

(** [{ status: 'idle', original: '', scrubbed: '', reasoning: '' }] *)
Definition PHASE0_IDLE : Phase0State := mkPhase0 (lit "idle") [] [] [].

(** What [api.scrubPhase0] resolves to. *)
Record ScrubResult := mkScrub {
  r_original : str;
  r_scrubbed : str;
  r_reasoning : str
}.

Inductive Role := User | Assistant.

Record Message := mkMessage {
  role : Role;
  content : str;
  scrubbedContent : option str;
  m_reasoning : option str;
  usedScrubbed : bool
}.

(** The component state the Phase 0 handlers touch.  [scrubsInFlight]
    counts the [api.scrubPhase0] calls that have not settled yet;
    [streams] lists the arguments [runCouncilStream] was called with. *)
Record State := mkState {
  currentConversationId : option str;
  messages : list Message;
  isLoading : bool;
  phase0State : Phase0State;
  scrubsInFlight : nat;
  streams : list (str * option str)
}.

Definition initial : State := mkState None [] false PHASE0_IDLE 0 [].

(** [handleSelectConversation], and [handleNewConversation] once the
    conversation exists: [setCurrentConversationId(id)]. *)
Definition handleSelectConversation (s : State) (id : str) : State :=
  mkState (Some id) (messages s) (isLoading s) (phase0State s)
          (scrubsInFlight s) (streams s).

(** [loadConversation], once the conversation has arrived:
    [setCurrentConversation(conv)]. *)
Definition conversationLoaded (s : State) (ms : list Message) : State :=
  mkState (currentConversationId s) ms (isLoading s) (phase0State s)
          (scrubsInFlight s) (streams s).

(** The ['complete'] and ['error'] events of the stream:
    [setIsLoading(false)]. *)
Definition streamSettled (s : State) : State :=
  mkState (currentConversationId s) (messages s) false (phase0State s)
          (scrubsInFlight s) (streams s).

(** The [catch] of [runCouncilStream]: the two optimistic messages are
    removed. *)
Definition streamFailed (s : State) : State :=
  mkState (currentConversationId s) (removelast (removelast (messages s)))
          false (phase0State s) (scrubsInFlight s) (streams s).

(** [handleSendMessage], up to its [await]: nothing happens without a
    current conversation; otherwise the message is added optimistically,
    the status becomes ['scrubbing'] and the scrub request is issued. *)
Definition handleSendMessage (s : State) (content : str) : State :=
  match currentConversationId s with
  | None => s
  | Some _ =>
      mkState (currentConversationId s)
              (messages s ++ [mkMessage User content None None false])
              true
              (mkPhase0 (lit "scrubbing") (original PHASE0_IDLE)
                        (scrubbed PHASE0_IDLE) (reasoning PHASE0_IDLE))
              (S (scrubsInFlight s))
              (streams s)
  end.

(** [handleSendMessage] after its [await], the request having resolved. *)
Definition scrubResolved (s : State) (result : ScrubResult) : State :=
  mkState (currentConversationId s) (messages s) (isLoading s)
          (mkPhase0 (lit "pending") (r_original result) (r_scrubbed result)
                    (r_reasoning result))
          (pred (scrubsInFlight s)) (streams s).

(** [handleSendMessage] in its [catch]: the optimistic message is
    removed and the flow reset. *)
Definition scrubRejected (s : State) : State :=
  mkState (currentConversationId s) (removelast (messages s)) false
          PHASE0_IDLE (pred (scrubsInFlight s)) (streams s).

(** [runCouncilStream], up to its [await]: the partial assistant message
    is appended and the stream requested. *)
Definition runCouncilStream (s : State) (originalContent : str)
    (scrubbedContent' : option str) : State :=
  mkState (currentConversationId s)
          (messages s ++ [mkMessage Assistant [] None None false])
          (isLoading s) (phase0State s) (scrubsInFlight s)
          (streams s ++ [(originalContent, scrubbedContent')]).

Definition setPhase0State (s : State) (p : Phase0State) : State :=
  mkState (currentConversationId s) (messages s) (isLoading s) p
          (scrubsInFlight s) (streams s).

Definition setMessages (s : State) (ms : list Message) : State :=
  mkState (currentConversationId s) ms (isLoading s) (phase0State s)
          (scrubsInFlight s) (streams s).

(** [handlePhase0UseOriginal] *)
Definition handlePhase0UseOriginal (s : State) : State :=
  let originalContent := original (phase0State s) in
  runCouncilStream (setPhase0State s PHASE0_IDLE) originalContent None.

(** The scrub metadata stamped onto the last user message, found with
    [findLastIndex((m) => m.role === 'user')]. *)
Fixpoint stampLastUser (ms : list Message) (scrub reason : str)
  : list Message * bool :=
  match ms with
  | [] => ([], false)
  | m :: ms' =>
      let '(rest, done) := stampLastUser ms' scrub reason in
      if done then (m :: rest, true)
      else match role m with
           | User => (mkMessage User (content m) (Some scrub) (Some reason)
                                true :: rest, true)
           | Assistant => (m :: rest, false)
           end
  end.

(** [handlePhase0UseScrubbed] *)
Definition handlePhase0UseScrubbed (s : State) : State :=
  let p := phase0State s in
  let s1 := setMessages s (fst (stampLastUser (messages s) (scrubbed p)
                                              (reasoning p))) in
  runCouncilStream (setPhase0State s1 PHASE0_IDLE)
                   (original p) (Some (scrubbed p)).

(** [handlePhase0Decline] *)
Definition handlePhase0Decline (s : State) : State :=
  mkState (currentConversationId s) (removelast (messages s)) false
          PHASE0_IDLE (scrubsInFlight s) (streams s).

(** What can happen to the component.  A scrub request can only settle
    while one is in flight. *)
Inductive Event :=
| SelectConversation (id : str)
| ConversationLoaded (ms : list Message)
| StreamSettled
| StreamFailed
| SendMessage (content : str)
| ScrubResolved (result : ScrubResult)
| ScrubRejected
| UseOriginal
| UseScrubbed
| Cancel.

Definition handle (s : State) (e : Event) : option State :=
  match e with
  | SelectConversation id => Some (handleSelectConversation s id)
  | ConversationLoaded ms => Some (conversationLoaded s ms)
  | StreamSettled => Some (streamSettled s)
  | StreamFailed => Some (streamFailed s)
  | SendMessage content => Some (handleSendMessage s content)
  | ScrubResolved result =>
      if scrubsInFlight s =? 0 then None else Some (scrubResolved s result)
  | ScrubRejected =>
      if scrubsInFlight s =? 0 then None else Some (scrubRejected s)
  | UseOriginal => Some (handlePhase0UseOriginal s)
  | UseScrubbed => Some (handlePhase0UseScrubbed s)
  | Cancel => Some (handlePhase0Decline s)
  end.

Inductive reachable : State -> Prop :=
| reach_initial : reachable initial
| reach_step : forall s e s',
    reachable s -> handle s e = Some s' -> reachable s'.

(** The review card shown for a scrub result. *)
Definition review (result : ScrubResult) : Phase0State :=
  mkPhase0 (lit "pending") (r_original result) (r_scrubbed result)
           (r_reasoning result).

Definition idle : str := lit "idle".
Definition scrubbing : str := lit "scrubbing".
Definition pending : str := lit "pending".

End App.

(* ================================================================== *)
(** ** Vocabulary of the statements *)
(* ================================================================== *)

(** A result is actionable when its status is one of the three the
    source lists. *)
Definition Actionable (r : VerificationResult) : Prop :=
  status r = VERIFIED \/ status r = CONTRADICTED \/ status r = CONTESTED.

(** A verification result with the given status and claim text. *)
Definition result (st : str) (c : string) : VerificationResult :=
  mkResult (lit "m") (lit c) st None None.

(** The mean declared confidence exists and is below, or at least, [k]. *)
Definition MeanBelow (rs : list ModelResponse) (k : Z) : Prop :=
  exists q, avgConf rs = Some q /\ (q < inject_Z k)%Q.

Definition MeanAtLeast (rs : list ModelResponse) (k : Z) : Prop :=
  exists q, avgConf rs = Some q /\ (inject_Z k <= q)%Q.

(** No model declared any factual claim. *)
Definition NoClaims (rs : list ModelResponse) : Prop :=
  Forall (fun l => l = []) (allClaims rs).

(** A Stage 1 response with a declared confidence and claims. *)
Definition response (c : Z) (claims : list string) : ModelResponse :=
  mkResponse (lit "m") (Some c) (Some (map lit claims)).

(** Two models whose claims coincide after normalization, both at
    confidence 80. *)
Definition agreeing_pair : list ModelResponse :=
  [response 80 ["Water boils at 100 C."; "The sky is blue"];
   response 80 ["water boils at 100 c"; "  the sky is BLUE!"]].

(** Three models that declared the confidences 64.6, 68.8 and 16.6 and
    no claims, and the same three in reverse order. *)
#[warnings="-inexact-float"]
Definition fractional : list (ResponseOf float) :=
  [mkResponseOf (lit "a") (Some 64.6%float) None;
   mkResponseOf (lit "b") (Some 68.8%float) None;
   mkResponseOf (lit "c") (Some 16.6%float) None].

Definition fractional_reversed : list (ResponseOf float) := rev fractional.

(** *** The vocabulary on doubles *)

(** Step 1 gives no verdict: nothing is [CONTRADICTED], and the
    actionable results are not a non-empty all-[VERIFIED] set. *)
Definition FallsThrough (stage25 : option (list VerificationResult)) : Prop :=
  match stage25 with
  | None => True
  | Some rs =>
      (forall r, In r rs -> status r <> CONTRADICTED) /\
      ~ ((exists r, In r rs /\ Actionable r) /\
         (forall r, In r rs -> Actionable r -> status r = VERIFIED))
  end.

(** The response declares the claim [c], once normalized. *)
Definition Declares {N : Type} (r : ResponseOf N) (c : str) : Prop :=
  exists cs, factual_claims r = Some cs /\ In c (map normalize cs).

(** Some response declares [c]. *)
Definition Claimed {N : Type} (rs : list (ResponseOf N)) (c : str) : Prop :=
  exists r, In r rs /\ Declares r c.

(** Two of the responses declare [c]. *)
Definition SharedClaim {N : Type} (rs : list (ResponseOf N)) (c : str)
  : Prop :=
  exists i j r r',
    i <> j /\ nth_error rs i = Some r /\ nth_error rs j = Some r' /\
    Declares r c /\ Declares r' c.

(** There is a claim, and of the distinct claims of the responses at
    least half are declared by two of them: the overlap ratio is at
    least 0.5. *)
Definition HalfShared {N : Type} (rs : list (ResponseOf N)) : Prop :=
  exists claims shared,
    NoDup claims /\ (forall c, In c claims <-> Claimed rs c) /\
    NoDup shared /\ (forall c, In c shared <-> SharedClaim rs c) /\
    claims <> [] /\ length claims <= 2 * length shared.

(** The confidences the responses declare, in the order of the
    responses. *)
Inductive Declared {N : Type} : list (ResponseOf N) -> list N -> Prop :=
| declared_nil : Declared [] []
| declared_some : forall r rs c cs,
    confidence r = Some c -> Declared rs cs -> Declared (r :: rs) (c :: cs)
| declared_none : forall r rs cs,
    confidence r = None -> Declared rs cs -> Declared (r :: rs) cs.

(** Adding the numbers to [acc] one after the other, from left to
    right, each sum rounded to a double, ends with [s]. *)
Inductive AddsUpTo : float -> list float -> float -> Prop :=
| adds_nil : forall acc, AddsUpTo acc [] acc
| adds_cons : forall acc x l s,
    AddsUpTo (PrimFloat.add acc x) l s -> AddsUpTo acc (x :: l) s.

(** [m] is the mean declared confidence as the code computes it: the
    declared confidences added up from 0 in the order of the responses,
    and the sum divided by their count, in double precision. *)
Definition ComputedMean (rs : list (ResponseOf float)) (m : float) : Prop :=
  exists cs s,
    Declared rs cs /\ cs <> [] /\ AddsUpTo PrimFloat.zero cs s /\
    m = PrimFloat.div s (Binary64.ofZ (Z.of_nat (length cs))).

Definition ComputedMeanBelow (rs : list (ResponseOf float)) (k : Z) : Prop :=
  exists m, ComputedMean rs m /\ PrimFloat.ltb m (Binary64.ofZ k) = true.

Definition ComputedMeanAtLeast (rs : list (ResponseOf float)) (k : Z)
  : Prop :=
  exists m, ComputedMean rs m /\ PrimFloat.leb (Binary64.ofZ k) m = true.

(** Every declared confidence is a whole number from 0 to 100. *)
Definition WholeScores (rs : list (ResponseOf float)) : Prop :=
  Forall (fun r => forall x, confidence r = Some x ->
                   exists k, (0 <= k <= 100)%Z /\ x = Binary64.ofZ k) rs.

(** The rational number a finite double stands for. *)
Definition valueOf (x : float) : option Q :=
  match Prim2SF x with
  | S754_zero _ => Some 0%Q
  | S754_finite s m e =>
      Some ((if s then - (1) else 1) * (Zpos m # 1) * Qpower (2 # 1) e)%Q
  | _ => None
  end.

Fixpoint exactSum (l : list float) : option Q :=
  match l with
  | [] => Some 0%Q
  | x :: l' =>
      match valueOf x, exactSum l' with
      | Some v, Some s => Some (v + s)%Q
      | _, _ => None
      end
  end.

(** The mean of the declared confidences, without rounding. *)
Definition exactMean (rs : list (ResponseOf float)) : option Q :=
  match nonNull (map confidence rs) with
  | [] => None
  | cs => option_map (fun s => (s / inject_Z (Z.of_nat (length cs)))%Q)
                     (exactSum cs)
  end.

(** A Stage 1 response with a declared confidence and claims. *)
Definition scored (c : float) (claims : list string) : ResponseOf float :=
  mkResponseOf (lit "m") (Some c) (Some (map lit claims)).

(** A single model, confidence 52, an empty claim list. *)
Definition lukewarm_no_claims : list (ResponseOf float) :=
  [scored 52 []].

(** Two models whose claims coincide after normalization, both at
    confidence 80. *)
Definition agreeing_at_80 : list (ResponseOf float) :=
  [scored 80 ["Water boils at 100 C."; "The sky is blue"];
   scored 80 ["water boils at 100 c"; "  the sky is BLUE!"]].

(** Four models that declare the same claim and the confidences 95.2,
    97.0, 63.9 and 3.9. *)
#[warnings="-inexact-float"]
Definition rounded_down : list (ResponseOf float) :=
  [scored 95.2 ["x"]; scored 97.0 ["x"]; scored 63.9 ["x"];
   scored 3.9 ["x"]].

(** Four models that declared no claims and, as confidences, the whole
    numbers 2^53, 1, -2^53 and 199; and the same four with the second
    and the third exchanged. *)
Definition large_scores : list (ResponseOf float) :=
  [mkResponseOf (lit "a") (Some 9007199254740992%float) None;
   mkResponseOf (lit "b") (Some 1%float) None;
   mkResponseOf (lit "c") (Some (PrimFloat.opp 9007199254740992)) None;
   mkResponseOf (lit "d") (Some 199%float) None].

Definition large_scores_exchanged : list (ResponseOf float) :=
  [mkResponseOf (lit "a") (Some 9007199254740992%float) None;
   mkResponseOf (lit "c") (Some (PrimFloat.opp 9007199254740992)) None;
   mkResponseOf (lit "b") (Some 1%float) None;
   mkResponseOf (lit "d") (Some 199%float) None].

(** Whether adding two whole numbers as doubles is exact. *)
Definition exactAdd (a b : Z) : bool :=
  PrimFloat.Leibniz.eqb
    (PrimFloat.add (Binary64.ofZ a) (Binary64.ofZ b)) (Binary64.ofZ (a + b)).

Definition below (n : Z) : list Z := map Z.of_nat (seq 0 (Z.to_nat n)).

Definition exactBelow (na nb : Z) : bool :=
  forallb (fun a => forallb (exactAdd a) (below nb)) (below na).

(** The whole number a double holds, for a double that stands for a
    whole number that is not negative. *)
Definition wholeOf (x : float) : Z :=
  match Prim2SF x with
  | S754_finite false m e => Z.shiftl (Zpos m) e
  | _ => 0%Z
  end.

(** A ranking entry carries a model and an average rank, nothing else. *)
Definition Bare (r : ModelResponse) : Prop :=
  confidence r = None /\ factual_claims r = None.

(** Two arguments of [calcVerdict] that differ at most in the order of
    their elements. *)
Inductive SameUpToOrder {A : Type} : option (list A) -> option (list A) -> Prop :=
| same_null : SameUpToOrder None None
| same_perm : forall l l', Permutation l l' -> SameUpToOrder (Some l) (Some l').

(** The span a replacement claims. *)
Definition span (r : Annotate.Replacement) : nat * nat :=
  (Annotate.start r, Annotate.end_ r).

(** Two spans share no position. *)
Definition Disjoint (a b : Annotate.Replacement) : Prop :=
  Annotate.end_ a <= Annotate.start b \/ Annotate.end_ b <= Annotate.start a.

(** The span [[s, e)] meets a span already claimed. *)
Definition Overlaps (used : list (nat * nat)) (s e : nat) : Prop :=
  exists u, In u used /\ s < snd u /\ fst u < e.

(** [needle] occurs in [hay] at position [p]. *)
Definition OccursAt (hay needle : str) (p : nat) : Prop :=
  exists pre post, hay = pre ++ needle ++ post /\ length pre = p.

(** [p] is the first position at which [needle] occurs in [hay] such
    that the span of [len] positions from [p] on is free of the spans
    already claimed. *)
Definition FirstFree (hay needle : str) (len : nat)
    (used : list (nat * nat)) (p : nat) : Prop :=
  OccursAt hay needle p /\
  ~ Overlaps used p (p + len) /\
  forall q, q < p -> OccursAt hay needle q -> Overlaps used q (q + len).

(** Every occurrence of [needle] in [hay] meets a claimed span (in
    particular when there is no occurrence at all). *)
Definition NoFree (hay needle : str) (len : nat) (used : list (nat * nat))
  : Prop :=
  forall q, OccursAt hay needle q -> Overlaps used q (q + len).

(** The state of the matching loop is well placed: the two arrays
    agree, no span is empty, and no two spans share a position. *)
Definition WellPlaced (st : Annotate.matchState) : Prop :=
  snd st = map span (fst st) /\
  Forall (fun r => Annotate.start r < Annotate.end_ r) (fst st) /\
  ForallOrdPairs Disjoint (fst st).

(** The replacement the loop pushes for an item placed at [p]. *)
Definition placed (it : Annotate.Item) (p : nat) : Annotate.Replacement :=
  Annotate.mkReplacement p (p + length (claim (Annotate.item it)))
    (Annotate.originalIdx it) (toLowerCase (status (Annotate.item it))).

(** A chairman text that starts with U+0130, the capital I with a dot
    above: fifteen code units. *)
Definition istanbul : str := 0x130%N :: lit "stanbul is big".

(** Two capitals U+0130, then the letters a and b: four code units. *)
Definition dotted_ab : str := [0x130%N; 0x130%N] ++ lit "ab".

(** A conversation has been selected and a message sent. *)
Definition awaiting_scrub : App.State :=
  App.handleSendMessage
    (App.handleSelectConversation App.initial (lit "c1")) (lit "hello").

Definition softened : App.ScrubResult :=
  App.mkScrub (lit "hello") (lit "hi") (lit "tone").

(* ================================================================== *)
(** ** The utilities on the JavaScript heap *)
(* ================================================================== *)

(** Arrays and objects are heap cells reached through references; the
    strings and numbers inside them are values.  Each array-producing
    method ([map], [filter], [flat], a spread, a literal) allocates a
    new cell; [sort] and [push] overwrite the cell of the array they
    are called on.  A failed read stands for the source's [TypeError]. *)

Module Heap.

Definition loc := nat.

Inductive cell :=
| Result (r : VerificationResult)
| Response (m : str) (conf : option Z) (claims : option loc)
| ItemObj (it : Annotate.Item)
| ReplObj (r : Annotate.Replacement)
| PairObj (s e : nat)
| Objects (elems : list loc)
| Strings (elems : list str)
| Numbers (elems : list (option Z)).

Definition heap := list cell.

Definition M (A : Type) : Type := heap -> option (A * heap).

Definition ret {A : Type} (a : A) : M A := fun h => Some (a, h).

Definition bind {A B : Type} (m : M A) (k : A -> M B) : M B :=
  fun h => match m h with
           | Some (a, h') => k a h'
           | None => None
           end.

Definition throw {A : Type} : M A := fun _ => None.

Declare Scope heap_scope.
Delimit Scope heap_scope with heap.
Notation "x <- m ;; k" := (bind m (fun x => k))
  (at level 61, m at next level, right associativity) : heap_scope.
Notation "m ;; k" := (bind m (fun _ => k))
  (at level 61, right associativity) : heap_scope.
Open Scope heap_scope.

Definition alloc (c : cell) : M loc :=
  fun h => Some (length h, h ++ [c]).

Definition get (l : loc) : M cell :=
  fun h => match nth_error h l with
           | Some c => Some (c, h)
           | None => None
           end.

Fixpoint update (h : heap) (l : loc) (c : cell) : heap :=
  match h, l with
  | [], _ => []
  | _ :: h', 0 => c :: h'
  | x :: h', S l' => x :: update h' l' c
  end.

Definition put (l : loc) (c : cell) : M unit :=
  fun h => if l <? length h then Some (tt, update h l c) else None.

Fixpoint mapM {A B : Type} (f : A -> M B) (l : list A) : M (list B) :=
  match l with
  | [] => ret []
  | x :: l' => y <- f x ;; ys <- mapM f l' ;; ret (y :: ys)
  end.

Fixpoint forEach {A : Type} (f : A -> M unit) (l : list A) : M unit :=
  match l with
  | [] => ret tt
  | x :: l' => f x ;; forEach f l'
  end.

Definition getResult (l : loc) : M VerificationResult :=
  c <- get l ;; match c with Result r => ret r | _ => throw end.

Definition getResponse (l : loc) : M (option Z * option loc) :=
  c <- get l ;;
  match c with Response _ conf claims => ret (conf, claims) | _ => throw end.

Definition getItem (l : loc) : M Annotate.Item :=
  c <- get l ;; match c with ItemObj it => ret it | _ => throw end.

Definition getRepl (l : loc) : M Annotate.Replacement :=
  c <- get l ;; match c with ReplObj r => ret r | _ => throw end.

Definition getPair (l : loc) : M (nat * nat) :=
  c <- get l ;; match c with PairObj s e => ret (s, e) | _ => throw end.

Definition getObjects (l : loc) : M (list loc) :=
  c <- get l ;; match c with Objects es => ret es | _ => throw end.

Definition getStrings (l : loc) : M (list str) :=
  c <- get l ;; match c with Strings es => ret es | _ => throw end.

Definition getNumbers (l : loc) : M (list (option Z)) :=
  c <- get l ;; match c with Numbers es => ret es | _ => throw end.

(** The references whose object passes the test. *)
Definition select {A : Type} (p : A -> bool) (ls : list loc) (xs : list A)
  : list loc :=
  map fst (filter (fun x => p (snd x)) (combine ls xs)).

(** The references ordered by a comparator on their objects. *)
Definition sortRefs {A : Type} (cmp : A -> A -> Z) (ls : list loc)
    (xs : list A) : list loc :=
  map fst (Js.sort (fun x y => cmp (snd x) (snd y)) (combine ls xs)).

(** [arr.push(x)] *)
Definition push (arr x : loc) : M unit :=
  es <- getObjects arr ;; put arr (Objects (es ++ [x])).

Definition isNotNull (v : option Z) : bool :=
  match v with Some _ => true | None => false end.

(** Step 1 of [calcVerdict]. *)
Definition externalEvidenceM (stage25 : option loc) : M (option verdict) :=
  match stage25 with
  | None => ret None
  | Some a =>
      elems <- getObjects a ;;
      if length elems =? 0 then ret None
      else
        rs <- mapM getResult elems ;;
        if existsb isContradicted rs then ret (Some Disputed)
        else
          actionable <- alloc (Objects (select isActionable elems rs)) ;;
          aElems <- getObjects actionable ;;
          ars <- mapM getResult aElems ;;
          if (0 <? length aElems) && forallb isVerified ars
          then ret (Some Verified)
          else ret None
  end.

(** [Array.isArray(r.factual_claims) ? r.factual_claims.map(normalize)
    : []] *)
Definition claimsOfM (r : option Z * option loc) : M loc :=
  match snd r with
  | Some f => cs <- getStrings f ;; alloc (Strings (map normalize cs))
  | None => alloc (Strings [])
  end.

(** [allClaims.filter((list) => list.includes(claim)).length >= 2] *)
Definition sharedByTwoM (ls : list loc) (lists : list (list str))
    (c : str) : M bool :=
  holders <- alloc (Objects (select (fun l => includes l c) ls lists)) ;;
  hs <- getObjects holders ;;
  ret (2 <=? length hs).

(** Step 2 of [calcVerdict]. *)
Definition factualConsensusM (stage1 : option loc) : M verdict :=
  match stage1 with
  | None => ret Unknown
  | Some a =>
      elems <- getObjects a ;;
      if length elems =? 0 then ret Unknown
      else
        rs <- mapM getResponse elems ;;
        declared <- alloc (Numbers (map fst rs)) ;;
        ds <- getNumbers declared ;;
        confs <- alloc (Numbers (filter isNotNull ds)) ;;
        cs <- getNumbers confs ;;
        let avg := if 0 <? length cs
                   then Some (Js.sum (nonNull cs) # Pos.of_nat (length cs))
                   else None in
        if avgBelow avg 50 then ret Uncertain
        else
          ls <- mapM claimsOfM rs ;;
          allClaims' <- alloc (Objects ls) ;;
          lists <- mapM getStrings ls ;;
          if forallb (fun l : list str => length l =? 0) lists
          then ret (if avgAtLeast avg 65 then Consensus else Split)
          else
            flat <- alloc (Strings (concat lists)) ;;
            fl <- getStrings flat ;;
            unique' <- alloc (Strings (uniq fl)) ;;
            un <- getStrings unique' ;;
            flags <- mapM (sharedByTwoM ls lists) un ;;
            overlapping' <-
              alloc (Strings (map fst (filter snd (combine un flags)))) ;;
            ov <- getStrings overlapping' ;;
            let ratio := Z.of_nat (length ov) # Pos.of_nat (length un) in
            if Qle_bool (1 # 2) ratio && avgAtLeast avg 65 then ret Consensus
            else ret (if avgBelow avg 55 then Uncertain else Split)
  end.

Definition calcVerdictM (stage25 stage1 : option loc) : M verdict :=
  ev <- externalEvidenceM stage25 ;;
  match ev with
  | Some v => ret v
  | None => factualConsensusM stage1
  end.

(** [({ ...r, originalIdx: idx })] *)
Definition copyWithIndex (x : loc * nat) : M loc :=
  r <- getResult (fst x) ;; alloc (ItemObj (Annotate.mkItem r (snd x))).

Definition isListed (it : Annotate.Item) : bool :=
  includes [VERIFIED; CONTRADICTED; CONTESTED] (status (Annotate.item it)).

(** One round of the [for] loop of [annotateChairmanText]. *)
Definition matchItemM (lower : str) (replacements used : loc) (l : loc)
  : M unit :=
  it <- getItem l ;;
  let claimLower := toLowerCase (claim (Annotate.item it)) in
  match claimLower with
  | [] => ret tt
  | _ :: _ =>
      us <- getObjects used ;;
      spans <- mapM getPair us ;;
      match Annotate.search lower claimLower
              (length (claim (Annotate.item it))) spans
              0 (S (length lower)) with
      | Some (found, e) =>
          r <- alloc (ReplObj (Annotate.mkReplacement found e
                                 (Annotate.originalIdx it)
                                 (toLowerCase (status (Annotate.item it))))) ;;
          push replacements r ;;
          p <- alloc (PairObj found e) ;;
          push used p
      | None => ret tt
      end
  end.

Definition annotateChairmanTextM (responseText : str)
    (stage25Results : option loc) : M str :=
  match stage25Results with
  | None => ret responseText
  | Some a =>
      elems <- getObjects a ;;
      if length elems =? 0 then ret responseText
      else
        copies <- mapM copyWithIndex
                       (combine elems (seq 0 (length elems))) ;;
        mapped <- alloc (Objects copies) ;;
        ms <- getObjects mapped ;;
        its <- mapM getItem ms ;;
        actionable <- alloc (Objects (select isListed ms its)) ;;
        aElems <- getObjects actionable ;;
        if length aElems =? 0 then ret responseText
        else
          aItems <- mapM getItem aElems ;;
          put actionable
              (Objects (sortRefs Annotate.byClaimLength aElems aItems)) ;;
          replacements <- alloc (Objects []) ;;
          used <- alloc (Objects []) ;;
          ordered <- getObjects actionable ;;
          forEach (matchItemM (toLowerCase responseText) replacements used)
                  ordered ;;
          rElems <- getObjects replacements ;;
          if length rElems =? 0 then ret responseText
          else
            reps <- mapM getRepl rElems ;;
            put replacements
                (Objects (sortRefs Annotate.byStartDesc rElems reps)) ;;
            sorted <- getObjects replacements ;;
            rs <- mapM getRepl sorted ;;
            ret (fold_left Annotate.inject rs responseText)
  end.

(** A heap that holds the two arguments of [calcVerdict]: at [0..2] three
    verification results, at [3] their array; at [4] and [6] two claim
    arrays, at [5] and [7] the responses that own them, at [8] the Stage 1
    array. *)
Definition sampleHeap : heap :=
  [ Result (result VERIFIED "sky is blue");
    Result (result UNVERIFIABLE "Water");
    Result (result CONTESTED "The Sky");
    Objects [0; 1; 2];
    Strings [lit "Water boils."; lit "Sky is blue"];
    Response (lit "a") (Some 80%Z) (Some 4);
    Strings [lit "water boils"];
    Response (lit "b") (Some 60%Z) (Some 6);
    Objects [5; 7] ].

Definition sampleText : str :=
  lit "The sky is blue. Water boils at 100 C; the sky is Blue.".

End Heap.

(** A computation keeps the first [n] cells of the heap, and its result
    satisfies [Q]. *)
Definition Keeps {A : Type} (n : nat) (m : Heap.M A) (Q : A -> Prop) : Prop :=
  forall h a h',
    n <= length h -> m h = Some (a, h') ->
    n <= length h' /\ firstn n h' = firstn n h /\ Q a.

(** A reference to a cell allocated after the first [n]. *)
Definition Fresh (n : nat) (l : Heap.loc) : Prop := n <= l.

Definition Any {A : Type} (_ : A) : Prop := True.

(** The heap holds, at [l], the verification result [r]. *)
Definition AtResult (h : Heap.heap) (l : Heap.loc) (r : VerificationResult)
  : Prop :=
  nth_error h l = Some (Heap.Result r).

(** The [factual_claims] property [fc] reads as [cs]: absent, or a
    reference to an array of strings. *)
Definition ClaimsAt (h : Heap.heap) (fc : option Heap.loc)
    (cs : option (list str)) : Prop :=
  match fc, cs with
  | None, None => True
  | Some f, Some ss => nth_error h f = Some (Heap.Strings ss)
  | _, _ => False
  end.

(** The heap holds, at [l], the Stage 1 response [r], its claim array
    included. *)
Definition AtResponse (h : Heap.heap) (l : Heap.loc) (r : ModelResponse)
  : Prop :=
  exists fc,
    nth_error h l = Some (Heap.Response (r_model r) (confidence r) fc) /\
    ClaimsAt h fc (factual_claims r).

(** The argument [a] refers to an array of objects that read as [xs];
    [null] reads as [None]. *)
Definition ArrayAt {A : Type} (at_ : Heap.heap -> Heap.loc -> A -> Prop)
    (h : Heap.heap) (a : option Heap.loc) (xs : option (list A)) : Prop :=
  match a, xs with
  | None, None => True
  | Some l, Some ys =>
      exists elems,
        nth_error h l = Some (Heap.Objects elems) /\
        Forall2 (at_ h) elems ys
  | _, _ => False
  end.

(** Every cell of [h] is found unchanged in [h']. *)
Definition Stable (h h' : Heap.heap) : Prop :=
  forall l c, nth_error h l = Some c -> nth_error h' l = Some c.

(** The heap during the matching loop: the cells [hb] that were there
    when the loop began, the [replacements] array, the [used] array, and
    the objects allocated since. *)
Definition loopHeap (hb : Heap.heap) (rl ul : list Heap.loc)
    (tail : Heap.heap) : Heap.heap :=
  hb ++ Heap.Objects rl :: Heap.Objects ul :: tail.

(** The reference [l] points into the objects allocated since the loop
    began, at a cell that satisfies [P]. *)
Definition InTail (hb tail : Heap.heap) (P : Heap.cell -> Prop)
    (l : Heap.loc) : Prop :=
  exists k c, l = length hb + 2 + k /\ nth_error tail k = Some c /\ P c.

(** The two arrays on the heap read as the loop state [st]. *)
Definition LoopInv (hb tail : Heap.heap) (rl ul : list Heap.loc)
    (st : Annotate.matchState) : Prop :=
  Forall2 (fun l r => InTail hb tail (fun c => c = Heap.ReplObj r) l)
          rl (fst st) /\
  Forall2 (fun l p => InTail hb tail
                        (fun c => c = Heap.PairObj (fst p) (snd p)) l)
          ul (snd st).

(* ================================================================== *)
(** ** The other utilities of [epistemic.js] and [utils.js] *)
(* ================================================================== *)

(** [{ min, max }] *)
Module Range.
Record t := mk { min : Z; max : Z }.
End Range.

(** [calcConfidenceRange] *)
Definition calcConfidenceRange (stage1 : option (list ModelResponse))
  : option Range.t :=
  match stage1 with
  | None => None
  | Some rs =>
      let values := confidences rs in
      if length values =? 0 then None
      else Some (Range.mk (minOf values) (maxOf values))
  end.

(** The sign of a number: all that [sort] reads of what a comparator
    returns. *)
Definition sgn (q : Q) : Z := Z.sgn (Qnum q).

(** [(a, b) => b.average_rank - a.average_rank] *)
Definition byRankDesc (a b : AggregateRanking) : Z :=
  sgn (average_rank b - average_rank a).

(** [getMinorityModel].  An average rank is the rational a double
    stands for.  On ranks of 1 or more the source's subtraction is exact
    wherever the difference is below 1, so the test against 0.5 is the
    test on the rationals.  The list has two entries or more where
    [sorted[0]] and [sorted[1]] are read. *)
Definition getMinorityModel (aggregateRankings : option (list AggregateRanking))
  : option str :=
  match aggregateRankings with
  | None => None
  | Some rs =>
      if length rs <? 2 then None
      else
        match Js.sort byRankDesc rs with
        | worst :: secondWorst :: _ =>
            if Qlt_bool (1 # 2) (average_rank worst - average_rank secondWorst)
            then Some (a_model worst)
            else None
        | _ => None
        end
  end.

(** [{ CONTRADICTED: [], CONTESTED: [], VERIFIED: [], UNVERIFIABLE: [] }] *)
Record Groups := mkGroups {
  g_CONTRADICTED : list VerificationResult;
  g_CONTESTED : list VerificationResult;
  g_VERIFIED : list VerificationResult;
  g_UNVERIFIABLE : list VerificationResult
}.

(** The property names every object inherits from [Object.prototype].
    Read on an object literal, each gives a truthy value that is not an
    array. *)
Definition inheritedNames : list str :=
  map lit ["constructor"; "__defineGetter__"; "__defineSetter__";
           "hasOwnProperty"; "__lookupGetter__"; "__lookupSetter__";
           "isPrototypeOf"; "propertyIsEnumerable"; "toString"; "valueOf";
           "__proto__"; "toLocaleString"].

(** [if (groups[result.status]) groups[result.status].push(result)].
    [None] is the [TypeError] of calling [push] on an inherited
    property. *)
Definition pushGroup (g : Groups) (r : VerificationResult) : option Groups :=
  let s := status r in
  if str_eqb s CONTRADICTED
  then Some (mkGroups (g_CONTRADICTED g ++ [r]) (g_CONTESTED g)
                      (g_VERIFIED g) (g_UNVERIFIABLE g))
  else if str_eqb s CONTESTED
  then Some (mkGroups (g_CONTRADICTED g) (g_CONTESTED g ++ [r])
                      (g_VERIFIED g) (g_UNVERIFIABLE g))
  else if str_eqb s VERIFIED
  then Some (mkGroups (g_CONTRADICTED g) (g_CONTESTED g)
                      (g_VERIFIED g ++ [r]) (g_UNVERIFIABLE g))
  else if str_eqb s UNVERIFIABLE
  then Some (mkGroups (g_CONTRADICTED g) (g_CONTESTED g)
                      (g_VERIFIED g) (g_UNVERIFIABLE g ++ [r]))
  else if includes inheritedNames s then None
  else Some g.

Fixpoint groupLoop (rs : list VerificationResult) (g : Groups)
  : option Groups :=
  match rs with
  | [] => Some g
  | r :: rs' =>
      match pushGroup g r with
      | Some g' => groupLoop rs' g'
      | None => None
      end
  end.

(** [groupClaimsByVerdict] *)
Definition groupClaimsByVerdict
    (stage25Results : option (list VerificationResult)) : option Groups :=
  match stage25Results with
  | None => Some (mkGroups [] [] [] [])
  | Some rs => groupLoop rs (mkGroups [] [] [] [])
  end.

(** [String.prototype.split] on a one-character separator. *)
Fixpoint split (sep : N) (s : str) : list str :=
  match s with
  | [] => [[]]
  | c :: s' =>
      if N.eqb c sep then [] :: split sep s'
      else match split sep s' with
           | piece :: pieces => (c :: piece) :: pieces
           | [] => [[c]]
           end
  end.

Definition slash : N := 47%N.

(** [getModelShortName]: [model.split('/')[1] || model] *)
Definition getModelShortName (model : str) : str :=
  match nth_error (split slash model) 1 with
  | Some (c :: name) => c :: name
  | _ => model
  end.

(* ================================================================== *)
(** ** What the components compute before they render *)
(* ================================================================== *)

(** [ConfidenceBadge]: [value >= 70 ? 'green' : value >= 50 ? 'amber'
    : 'red'] *)
Inductive color := green | amber | red.

Definition badgeColor (value : Z) : color :=
  if (70 <=? value)%Z then green
  else if (50 <=? value)%Z then amber
  else red.

(** [EpistemicSummary]:
    [stage25?.filter((r) => r.status === s).length ?? 0] *)
Definition countStatus (s : str) (stage25 : option (list VerificationResult))
  : nat :=
  match stage25 with
  | Some rs => length (filter (fun r => str_eqb (status r) s) rs)
  | None => 0
  end.

(** [stage25 && (contradicted > 0 || contested > 0 || verified > 0)] *)
Definition hasVerdicts (stage25 : option (list VerificationResult)) : bool :=
  match stage25 with
  | None => false
  | Some _ =>
      (0 <? countStatus CONTRADICTED stage25)
      || (0 <? countStatus CONTESTED stage25)
      || (0 <? countStatus VERIFIED stage25)
  end.

(** [Stage25]: [order[status] ?? 4] for a status that is a key of
    [order] or no property at all. *)
Definition severity (s : str) : Z :=
  if str_eqb s CONTRADICTED then 0
  else if str_eqb s CONTESTED then 1
  else if str_eqb s VERIFIED then 2
  else if str_eqb s UNVERIFIABLE then 3
  else 4.

Definition bySeverity (a b : VerificationResult) : Z :=
  (severity (status a) - severity (status b))%Z.

(** [Stage25]: [[...results].sort(...)].  With two results or more and
    a status that names an inherited property the comparator returns
    [NaN] and the order is the engine's business: [None]. *)
Definition sortedResults (results : list VerificationResult)
  : option (list VerificationResult) :=
  if (2 <=? length results)
     && existsb (fun r => includes inheritedNames (status r)) results
  then None
  else Some (Js.sort bySeverity results).

(** [EpistemicDrawer]: the groups in [VERDICT_ORDER]. *)
Definition drawerOrder (g : Groups) : list VerificationResult :=
  g_CONTRADICTED g ++ g_CONTESTED g ++ g_VERIFIED g ++ g_UNVERIFIABLE g.

(** [MinorityReport]: the response the report shows, if it shows one. *)
Definition minorityReport (stage1 : option (list ModelResponse))
    (aggregateRankings : option (list AggregateRanking))
  : option ModelResponse :=
  match getMinorityModel aggregateRankings with
  | None => None
  | Some minorityModel =>
      if length minorityModel =? 0 then None
      else match stage1 with
           | None => None
           | Some rs => find (fun r => str_eqb (r_model r) minorityModel) rs
           end
  end.

(** ** Vocabulary of the statements on the other utilities *)

(** [e] is an entry of [rs] whose average rank exceeds that of every
    other entry by more than one half, and there is another entry. *)
Definition Outlier (rs : list AggregateRanking) (e : AggregateRanking)
  : Prop :=
  exists l1 l2,
    rs = l1 ++ e :: l2 /\ l1 ++ l2 <> [] /\
    forall x, In x (l1 ++ l2) ->
              (1 # 2 < average_rank e - average_rank x)%Q.

(** [r] is the first element of [rs] that satisfies [p]. *)
Definition FirstWith {A : Type} (p : A -> Prop) (rs : list A) (r : A)
  : Prop :=
  exists pre post, rs = pre ++ r :: post /\ p r /\ forall x, In x pre -> ~ p x.

(** [r.status === s] *)
Definition hasStatus (s : str) (r : VerificationResult) : bool :=
  str_eqb (status r) s.

(** The status of [r] is none of the four the groups are keyed by. *)
Definition unlisted (r : VerificationResult) : bool :=
  negb (hasStatus CONTRADICTED r || hasStatus CONTESTED r
        || hasStatus VERIFIED r || hasStatus UNVERIFIABLE r).

(** The elements of [l] with a key below [n], by increasing key, those
    of one key in the order of [l]. *)
Fixpoint buckets {A : Type} (key : A -> nat) (n : nat) (l : list A)
  : list A :=
  match n with
  | 0 => []
  | S n' => buckets key n' l ++ filter (fun x => key x =? n') l
  end.

(** Two claims that [normalize] does not tell apart. *)
Definition SameClaim (c c' : str) : Prop := normalize c = normalize c'.

(** Two responses with the same declared confidence whose claims are,
    one by one, the same once normalized. *)
Definition SameClaims (r r' : ModelResponse) : Prop :=
  confidence r = confidence r' /\
  match factual_claims r, factual_claims r' with
  | Some cs, Some cs' => Forall2 SameClaim cs cs'
  | None, None => True
  | _, _ => False
  end.

(* ================================================================== *)
(** ** [Phase0Review] and the request of [sendMessageStream] *)
(* ================================================================== *)

Inductive Button :=
  CancelButton | ContinueButton | UseOriginalButton | UseScrubbedButton.

(** What [Phase0Review] renders: nothing, the spinner, or the review
    card with its buttons. *)
Inductive Card :=
| NoCard
| Sanitizing
| ReviewCard (unchanged : bool) (buttons : list Button).

Definition Phase0Review (phase0State : App.Phase0State) : Card :=
  if str_eqb (App.status phase0State) App.scrubbing then Sanitizing
  else if negb (str_eqb (App.status phase0State) App.pending) then NoCard
  else
    let unchanged :=
      str_eqb (trim (App.original phase0State))
              (trim (App.scrubbed phase0State)) in
    ReviewCard unchanged
      (CancelButton
       :: (if unchanged then [ContinueButton]
           else [UseOriginalButton; UseScrubbedButton])).

(** The handler behind each button: [onDecline], [onUseOriginal] (for
    both "Continue" and "Use Original") and [onUseScrubbed]. *)
Definition onClick (b : Button) : App.Event :=
  match b with
  | CancelButton => App.Cancel
  | ContinueButton | UseOriginalButton => App.UseOriginal
  | UseScrubbedButton => App.UseScrubbed
  end.

Definition isClick (e : App.Event) : bool :=
  match e with
  | App.UseOriginal | App.UseScrubbed | App.Cancel => true
  | _ => false
  end.

(** The states the component reaches when the three Phase 0 handlers
    run only from a button of the card on screen.  Every other event is
    left free. *)
Inductive uiReachable : App.State -> Prop :=
| ui_initial : uiReachable App.initial
| ui_click : forall s b unchanged buttons s',
    uiReachable s ->
    Phase0Review (App.phase0State s) = ReviewCard unchanged buttons ->
    In b buttons ->
    App.handle s (onClick b) = Some s' ->
    uiReachable s'
| ui_other : forall s e s',
    uiReachable s ->
    isClick e = false ->
    App.handle s e = Some s' ->
    uiReachable s'.

(** The JSON body of the stream request:
    [scrubbedContent ? { content, scrubbed_content: scrubbedContent }
                     : { content }].
    The empty string is falsy. *)
Record Body := mkBody {
  b_content : str;
  scrubbed_content : option str
}.

Definition requestBody (content : str) (scrubbedContent : option str)
  : Body :=
  match scrubbedContent with
  | Some (c :: s) => mkBody content (Some (c :: s))
  | _ => mkBody content None
  end.

(** The review of [softened] is on screen. *)
Definition reviewing_softened : App.State :=
  App.scrubResolved awaiting_scrub softened.

(** [ChatInterface]: the text shown for a user message,
    [msg.usedScrubbed ? msg.scrubbedContent : msg.content], and the
    original its scrub indicator holds, when it has one. *)
Definition shownText (msg : App.Message) : option str :=
  if App.usedScrubbed msg then App.scrubbedContent msg
  else Some (App.content msg).

Definition indicatorOriginal (msg : App.Message) : option str :=
  if App.usedScrubbed msg then Some (App.content msg) else None.

(* ================================================================== *)
(** ** [Stage3Annotated]: a click on the annotated text *)
(* ================================================================== *)

(** What [parseInt] returns: [NaN], or an integer with its sign ([-0]
    is an integer too). *)
Inductive Number :=
| NaN
| Int (negative : bool) (magnitude : nat).

Definition digitValue (c : N) : option nat :=
  if in_range 48 57 c then Some (N.to_nat c - 48) else None.

(** The longest prefix of decimal digits read as a number; [acc] is
    [None] until a digit has been read. *)
Fixpoint digits (s : str) (acc : option nat) : option nat :=
  match s with
  | [] => acc
  | c :: s' =>
      match digitValue c with
      | Some d =>
          digits s' (Some (10 * match acc with Some a => a | None => 0 end
                           + d))
      | None => acc
      end
  end.

Definition minus : N := 45%N.
Definition plus : N := 43%N.

(** [parseInt(s, 10)]: leading white space is skipped, a sign is read,
    then the digits; no digit gives [NaN]. *)
Definition parseInt10 (s : str) : Number :=
  let t := dropWhile isSpace s in
  let signed :=
    match t with
    | c :: t' =>
        if N.eqb c minus then (true, t')
        else if N.eqb c plus then (false, t')
        else (false, t)
    | [] => (false, [])
    end in
  match digits (snd signed) None with
  | Some n => Int (fst signed) n
  | None => NaN
  end.

(** [array[idx]] for a number [idx].  The indices of an array are the
    integers below 2^32 - 1; under any other key an array of results has
    nothing. *)
Definition at_ {A : Type} (array : list A) (idx : Number) : option A :=
  match idx with
  | NaN => None
  | Int negative n =>
      if n =? 0 then nth_error array 0
      else if negative then None
      else if (N.of_nat n <? 4294967295)%N then nth_error array n
      else None
  end.

Inductive Clicked :=
| ClosePopover
| Ignored
| OpenPopover (claim : VerificationResult)
| ClickTypeError.

(** [handleClick].  [el] is [e.target.closest('.claim-annotation')],
    given by its [data-claim-idx] attribute if it has one; without the
    attribute [parseInt(undefined, 10)] is [NaN]. *)
Definition handleClick (stage25 : option (list VerificationResult))
    (el : option (option str)) : Clicked :=
  match el with
  | None => ClosePopover
  | Some dataClaimIdx =>
      let idx := match dataClaimIdx with
                 | Some s => parseInt10 s
                 | None => NaN
                 end in
      match stage25 with
      | None => ClickTypeError
      | Some rs =>
          match at_ rs idx with
          | Some claim => OpenPopover claim
          | None => Ignored
          end
      end
  end.

(** [ClaimPopover]: the [cls] of
    [VERDICT_CONFIG[statusKey] ?? VERDICT_CONFIG.unverifiable], which
    names the colour of the popover's badge.  Each entry's [cls] is its
    own key.  [None] is the [undefined] read on an inherited property. *)
Definition popoverClass (claim : VerificationResult) : option str :=
  let statusKey := toLowerCase (status claim) in
  if includes [lit "verified"; lit "contradicted"; lit "contested";
               lit "unverifiable"] statusKey
  then Some statusKey
  else if includes inheritedNames statusKey then None
  else Some (lit "unverifiable").

(* ================================================================== *)
(** ** [sendMessageStream]: the events of a chunk *)
(* ================================================================== *)

Definition newline : N := 10%N.

(** [line.startsWith('data: ')] *)
Definition isData (line : str) : bool :=
  Annotate.isPrefix (lit "data: ") line.

(** The texts one chunk hands to [JSON.parse]:
    [chunk.split('\n')], the lines that start with ['data: '], each
    without its first six characters. *)
Definition payloads (chunk : str) : list str :=
  map (fun line => Annotate.sliceFrom line 6)
      (filter isData (split newline chunk)).

(* ================================================================== *)
(** ** [groupClaimsByVerdict] on the JavaScript heap *)
(* ================================================================== *)

Module Grouping.
Import Heap.
#[local] Open Scope heap_scope.

(** The [groups] object: the references of its four arrays. *)
Record GroupRefs := mkGroupRefs {
  ref_CONTRADICTED : loc;
  ref_CONTESTED : loc;
  ref_VERIFIED : loc;
  ref_UNVERIFIABLE : loc
}.

(** [if (groups[result.status]) groups[result.status].push(result)] *)
Definition pushGroupM (groups : GroupRefs) (l : loc) : M unit :=
  r <- getResult l ;;
  let s := status r in
  if str_eqb s CONTRADICTED then push (ref_CONTRADICTED groups) l
  else if str_eqb s CONTESTED then push (ref_CONTESTED groups) l
  else if str_eqb s VERIFIED then push (ref_VERIFIED groups) l
  else if str_eqb s UNVERIFIABLE then push (ref_UNVERIFIABLE groups) l
  else if includes inheritedNames s then throw
  else ret tt.

Definition groupClaimsByVerdictM (stage25Results : option loc)
  : M GroupRefs :=
  c <- alloc (Objects []) ;;
  t <- alloc (Objects []) ;;
  v <- alloc (Objects []) ;;
  u <- alloc (Objects []) ;;
  let groups := mkGroupRefs c t v u in
  match stage25Results with
  | None => ret groups
  | Some a =>
      elems <- getObjects a ;;
      forEach (pushGroupM groups) elems ;;
      ret groups
  end.

End Grouping.

(** The heap while the grouping loop runs: the cells [h] that were
    there before the call, then the four arrays. *)
Definition groupHeap (h : Heap.heap) (c t v u : list Heap.loc) : Heap.heap :=
  h ++ [Heap.Objects c; Heap.Objects t; Heap.Objects v; Heap.Objects u].

(** The references of the four arrays allocated on top of [h]. *)
Definition groupRefs (h : Heap.heap) : Grouping.GroupRefs :=
  Grouping.mkGroupRefs (length h) (length h + 1) (length h + 2)
                       (length h + 3).

(* ================================================================== *)
(** ** [normalize], one code unit at a time *)
(* ================================================================== *)

(** What [normalize] keeps of a code unit, wherever it stands: a small
    letter for a capital A-Z, for U+0130 (whose lower case is i and a
    combining dot) and for U+212A (the Kelvin sign, whose lower case is
    k); the unit itself if it is a word character or white space;
    nothing otherwise. *)
Definition kept (u : N) : str :=
  if in_range 65 90 u then [(u + 32)%N]
  else if (u =? 0x130)%N then [0x69%N]
  else if (u =? 0x212A)%N then [0x6B%N]
  else if isWord u || isSpace u then [u]
  else [].

(** A code unit that is not a capital A-Z, U+0130 or U+212A. *)
Definition settled (u : N) : bool :=
  negb (in_range 65 90 u) && negb (u =? 0x130)%N && negb (u =? 0x212A)%N.

(** The check run on every entry of the lowercase table: the image [t]
    of the code point [c] holds no unsettled unit, and what [normalize]
    keeps of it is [kept c]. *)
Definition pointOk (c t : N) : bool :=
  forallb settled (utf16 t)
  && str_eqb (filter (fun u => isWord u || isSpace u) (utf16 t)) (kept c).

Definition upto (n : N) : list N := map N.of_nat (seq 0 (S (N.to_nat n))).

Definition entryOk (e : N * N * N * N) : bool :=
  let '(first, last, step, image) := e in
  (0 <? step)%N &&
  forallb (fun k => pointOk (first + k * step) (image + k * step))
          (upto ((last - first) / step)).

(* ================================================================== *)
(** * Properties *)
(* ================================================================== *)

(** ** Strings *)

Lemma str_eqb_eq : forall a b, str_eqb a b = true <-> a = b.
Proof.
  induction a as [|x a IH]; destruct b as [|y b]; simpl;
    try (split; [discriminate | congruence]); try tauto.
  rewrite andb_true_iff, N.eqb_eq, IH.
  split; [intros [-> ->]; reflexivity | intros E; inversion E; auto].
Qed.

Lemma str_eqb_refl : forall a, str_eqb a a = true.
Proof. intros a. apply str_eqb_eq. reflexivity. Qed.

Lemma str_eqb_neq : forall a b, str_eqb a b = false <-> a <> b.
Proof.
  intros a b. rewrite <- str_eqb_eq. destruct (str_eqb a b); intuition congruence.
Qed.

Lemma includes_In : forall l x, includes l x = true <-> In x l.
Proof.
  intros l x. unfold includes. rewrite existsb_exists. split.
  - intros [y [Hy E]]. apply str_eqb_eq in E. subst. assumption.
  - intros H. exists x. split; [assumption | apply str_eqb_refl].
Qed.

(** ** Step 1 of the waterfall *)

Lemma isActionable_iff : forall r, isActionable r = true <-> Actionable r.
Proof.
  intros r. unfold isActionable, Actionable.
  rewrite !orb_true_iff, !str_eqb_eq. tauto.
Qed.

Lemma existsb_isContradicted : forall rs,
  existsb isContradicted rs = true <->
  exists r, In r rs /\ status r = CONTRADICTED.
Proof.
  intros rs. rewrite existsb_exists. unfold isContradicted.
  split; intros [r [Hin E]]; exists r; split; auto; apply str_eqb_eq; auto.
Qed.

(** When Step 1 falls through: there is no result at all, or nothing is
    [CONTRADICTED] and the actionable results are not a non-empty
    all-[VERIFIED] set. *)
Lemma externalEvidence_None_iff : forall rs,
  externalEvidence (Some rs) = None <->
  rs = [] \/
  ((forall r, In r rs -> status r <> CONTRADICTED) /\
   ~ ((exists r, In r rs /\ Actionable r) /\
      (forall r, In r rs -> Actionable r -> status r = VERIFIED))).
Proof.
  intros rs. destruct rs as [|r0 rs']; [simpl; split; auto|].
  set (rs := r0 :: rs').
  assert (Hex : existsb isContradicted rs = true <->
                exists r, In r rs /\ status r = CONTRADICTED)
    by apply existsb_isContradicted.
  assert (Hpos : (0 <? length (filter isActionable rs)) = true <->
                 exists r, In r rs /\ Actionable r).
  { rewrite Nat.ltb_lt. split.
    - intros H. destruct (filter isActionable rs) as [|a l] eqn:E;
        [simpl in H; lia|].
      assert (Ha : In a (filter isActionable rs)) by (rewrite E; left; auto).
      apply filter_In in Ha. exists a. rewrite <- isActionable_iff. tauto.
    - intros [r [Hin Ha]].
      assert (In r (filter isActionable rs))
        by (apply filter_In; rewrite isActionable_iff; auto).
      destruct (filter isActionable rs); [contradiction | simpl; lia]. }
  assert (Hall : forallb isVerified (filter isActionable rs) = true <->
                 forall r, In r rs -> Actionable r -> status r = VERIFIED).
  { rewrite forallb_forall. unfold isVerified. split.
    - intros H r Hin Ha. apply str_eqb_eq, H, filter_In.
      rewrite isActionable_iff. auto.
    - intros H r Hr. apply filter_In in Hr. apply str_eqb_eq.
      apply H; [tauto | apply isActionable_iff; tauto]. }
  change (externalEvidence (Some rs)) with
    (if existsb isContradicted rs then Some Disputed
     else if (0 <? length (filter isActionable rs))
             && forallb isVerified (filter isActionable rs)
          then Some Verified else None).
  destruct (existsb isContradicted rs) eqn:Ec.
  - split; [discriminate|]. intros [Hnil | [Hno _]]; [discriminate|].
    destruct (proj1 Hex eq_refl) as [r [Hin E]]. elim (Hno r Hin E).
  - destruct ((0 <? length (filter isActionable rs))
              && forallb isVerified (filter isActionable rs)) eqn:Ea.
    + split; [discriminate|]. intros [Hnil | [_ Hn]]; [discriminate|].
      apply andb_true_iff in Ea. elim Hn. split; [apply Hpos | apply Hall]; tauto.
    + split; [|reflexivity]. intros _. right. split.
      * intros r Hin E.
        assert (existsb isContradicted rs = true)
          by (apply existsb_isContradicted; exists r; auto). congruence.
      * intros [H1 H2]. apply Hpos in H1. apply Hall in H2.
        rewrite H1, H2 in Ea. discriminate.
Qed.

(** C1. Whenever a non-empty list of verification results holds at least
    one [CONTRADICTED] result, [calcVerdict] answers [Disputed], whatever
    the other results and whatever Stage 1 list comes with it. *)
Theorem calcVerdict_contradicted_is_disputed :
  forall (rs : list VerificationResult) (stage1 : option (list ModelResponse)),
    rs <> [] ->
    (exists r, In r rs /\ status r = CONTRADICTED) ->
    calcVerdict (Some rs) stage1 = Disputed.
Proof.
  intros rs stage1 Hne Hex.
  apply existsb_isContradicted in Hex.
  unfold calcVerdict, externalEvidence.
  destruct rs as [|r0 rs']; [congruence|].
  rewrite Hex. reflexivity.
Qed.

(** One [CONTRADICTED] among otherwise [VERIFIED] results. *)
Lemma calcVerdict_contradicted_is_disputed_witness :
  calcVerdict
    (Some [result VERIFIED "a"; result CONTRADICTED "b"; result VERIFIED "c"])
    None = Disputed.
Proof.
  apply calcVerdict_contradicted_is_disputed.
  - discriminate.
  - exists (result CONTRADICTED "b"). split; [simpl; auto | reflexivity].
Defined.

(** C2. A non-empty list with no [CONTRADICTED] result, at least one
    actionable result and every actionable result [VERIFIED] gives
    [Verified]; Stage 1 is not consulted. *)
Theorem calcVerdict_all_verified_is_verified :
  forall (rs : list VerificationResult) (stage1 : option (list ModelResponse)),
    rs <> [] ->
    (forall r, In r rs -> status r <> CONTRADICTED) ->
    (exists r, In r rs /\ Actionable r) ->
    (forall r, In r rs -> Actionable r -> status r = VERIFIED) ->
    calcVerdict (Some rs) stage1 = Verified.
Proof.
  intros rs stage1 Hne Hno Hex Hall.
  unfold calcVerdict.
  destruct (externalEvidence (Some rs)) as [v|] eqn:E.
  - unfold externalEvidence in E. destruct rs as [|r0 rs']; [congruence|].
    destruct (existsb isContradicted (r0 :: rs')) eqn:Ec.
    + apply existsb_isContradicted in Ec. destruct Ec as [r [Hin Hc]].
      elim (Hno r Hin Hc).
    + destruct (_ && _) in E; congruence.
  - apply externalEvidence_None_iff in E. destruct E as [E | [_ E]];
      [congruence | elim E; auto].
Qed.

Lemma calcVerdict_all_verified_is_verified_witness :
  calcVerdict
    (Some [result VERIFIED "a"; result UNVERIFIABLE "b"; result VERIFIED "c"])
    None = Verified.
Proof.
  apply calcVerdict_all_verified_is_verified.
  - discriminate.
  - intros r [<- | [<- | [<- | []]]]; discriminate.
  - exists (result VERIFIED "a"). split; [simpl; auto | left; reflexivity].
  - intros r [<- | [<- | [<- | []]]] [H | [H | H]];
      solve [reflexivity | discriminate H].
Defined.

(** ** Step 2 of the waterfall *)

Lemma Qlt_bool_iff : forall x y, Qlt_bool x y = true <-> (x < y)%Q.
Proof.
  intros x y. unfold Qlt_bool. rewrite negb_true_iff.
  split.
  - intros H. apply Qnot_le_lt. intros Hle.
    apply Qle_bool_iff in Hle. congruence.
  - intros H. destruct (Qle_bool y x) eqn:E; [|reflexivity].
    apply Qle_bool_iff in E. elim (Qlt_not_le _ _ H E).
Qed.

Lemma avgBelow_iff : forall rs k,
  avgBelow (avgConf rs) k = true <-> MeanBelow rs k.
Proof.
  intros rs k. unfold MeanBelow, avgBelow.
  destruct (avgConf rs) as [q|].
  - rewrite Qlt_bool_iff. split.
    + intros H. exists q. auto.
    + intros [q' [E H]]. inversion E. subst. assumption.
  - split; [discriminate | intros [q [E _]]; discriminate].
Qed.

Lemma avgAtLeast_iff : forall rs k,
  avgAtLeast (avgConf rs) k = true <-> MeanAtLeast rs k.
Proof.
  intros rs k. unfold MeanAtLeast, avgAtLeast.
  destruct (avgConf rs) as [q|].
  - rewrite Qle_bool_iff. split.
    + intros H. exists q. auto.
    + intros [q' [E H]]. inversion E. subst. assumption.
  - split; [discriminate | intros [q [E _]]; discriminate].
Qed.

Lemma MeanAtLeast_not_below : forall rs k k',
  (k' <= k)%Z -> MeanAtLeast rs k -> ~ MeanBelow rs k'.
Proof.
  intros rs k k' Hk [q [E H]] [q' [E' H']].
  rewrite E in E'. inversion E'. subst q'.
  assert (inject_Z k' <= inject_Z k)%Q by (rewrite <- Zle_Qle; assumption).
  apply (Qlt_irrefl q).
  eapply Qlt_le_trans; [exact H'|]. eapply Qle_trans; eassumption.
Qed.

Lemma noClaims_iff : forall rs,
  forallb (fun l : list str => length l =? 0) (allClaims rs) = true <->
  NoClaims rs.
Proof.
  intros rs. unfold NoClaims. rewrite forallb_forall, Forall_forall.
  split; intros H l Hl; specialize (H l Hl).
  - apply Nat.eqb_eq in H. destruct l; [reflexivity | discriminate].
  - subst l. reflexivity.
Qed.

(** What Step 2 returns on a non-empty Stage 1 list, branch by branch. *)
Lemma factualConsensus_cases : forall rs,
  rs <> [] ->
  factualConsensus (Some rs) =
    if avgBelow (avgConf rs) 50 then Uncertain
    else if forallb (fun l : list str => length l =? 0) (allClaims rs)
    then (if avgAtLeast (avgConf rs) 65 then Consensus else Split)
    else if Qle_bool (1 # 2) (overlapRatio rs) && avgAtLeast (avgConf rs) 65
    then Consensus
    else if avgBelow (avgConf rs) 55 then Uncertain else Split.
Proof.
  intros [|r rs] H; [congruence | reflexivity].
Qed.

(** ** Peer alignment at its call sites *)

Lemma allClaims_bare : forall rs,
  Forall Bare rs -> concat (allClaims rs) = [].
Proof.
  induction 1 as [|r rs [_ Hf] _ IH]; [reflexivity|].
  unfold allClaims in *. simpl. rewrite Hf, IH. reflexivity.
Qed.

Lemma confidences_bare : forall rs,
  Forall Bare rs -> confidences rs = [].
Proof.
  induction 1 as [|r rs [Hc _] _ IH]; [reflexivity|].
  unfold confidences in *. simpl. rewrite Hc, IH. reflexivity.
Qed.

Lemma calcPeerAlignment_bare : forall rs,
  Forall Bare rs -> calcPeerAlignment (Some rs) = AlignUnknown.
Proof.
  intros rs H. unfold calcPeerAlignment, unique.
  rewrite (allClaims_bare rs H), (confidences_bare rs H). simpl.
  destruct (length rs <? 2); reflexivity.
Qed.

Lemma rankingAsResponse_bare : forall aggs,
  Forall Bare (map rankingAsResponse aggs).
Proof.
  intros aggs. apply Forall_forall. intros r Hr.
  apply in_map_iff in Hr. destruct Hr as [a [<- _]]. split; reflexivity.
Qed.

(** C10. A list of at least two entries that carry neither
    [factual_claims] nor [confidence] gets [Unknown]; the two call sites
    pass the aggregate rankings, whose entries are of that kind, so no
    other label is reachable there. *)
Theorem calcPeerAlignment_rankings_unknown :
  (forall rs : list ModelResponse,
     2 <= length rs -> Forall Bare rs ->
     calcPeerAlignment (Some rs) = AlignUnknown) /\
  (forall aggregateRankings : option (list AggregateRanking),
     peerAlignmentAtCallSite aggregateRankings = AlignUnknown).
Proof.
  split.
  - intros rs _ H. apply calcPeerAlignment_bare. assumption.
  - intros [aggs|]; [|reflexivity].
    unfold peerAlignmentAtCallSite. simpl.
    apply calcPeerAlignment_bare, rankingAsResponse_bare.
Qed.

Lemma calcPeerAlignment_rankings_unknown_witness :
  calcPeerAlignment
    (Some (map rankingAsResponse
             [mkRanking (lit "a") (3 # 2); mkRanking (lit "b") (5 # 2);
              mkRanking (lit "c") (2 # 1)])) = AlignUnknown.
Proof.
  apply (proj1 calcPeerAlignment_rankings_unknown).
  - simpl. lia.
  - apply rankingAsResponse_bare.
Defined.

(** ** Order independence of the verdict *)

Section PermutationInvariance.
Context {A : Type}.
Variable f : A -> bool.

Lemma existsb_perm : forall l l',
  Permutation l l' -> existsb f l = existsb f l'.
Proof.
  induction 1; simpl; try congruence.
  destruct (f x), (f y); reflexivity.
Qed.

Lemma forallb_perm : forall l l',
  Permutation l l' -> forallb f l = forallb f l'.
Proof.
  induction 1; simpl; try congruence.
  destruct (f x), (f y); reflexivity.
Qed.

Lemma filter_perm : forall l l',
  Permutation l l' -> Permutation (filter f l) (filter f l').
Proof.
  induction 1; simpl.
  - constructor.
  - destruct (f x); auto.
  - destruct (f x), (f y); auto using perm_swap.
  - eapply perm_trans; eassumption.
Qed.

Lemma filter_ext_perm_length : forall (g : A -> bool) l l',
  (forall x, f x = g x) -> Permutation l l' ->
  length (filter f l) = length (filter g l').
Proof.
  intros g l l' Hfg Hp.
  rewrite (filter_ext f g Hfg l).
  apply Permutation_length. clear Hfg.
  induction Hp; simpl.
  - constructor.
  - destruct (g x); auto.
  - destruct (g x), (g y); auto using perm_swap.
  - eapply perm_trans; eassumption.
Qed.
End PermutationInvariance.

Lemma nonNull_perm : forall (N : Type) (l l' : list (option N)),
  Permutation l l' -> Permutation (nonNull l) (nonNull l').
Proof.
  intros N l l'.
  induction 1 as [| x l l' _ IH | x y l | l l' l'' _ IH1 _ IH2]; simpl.
  - constructor.
  - destruct x; auto.
  - destruct x, y; auto using perm_swap.
  - eapply perm_trans; eassumption.
Qed.

Lemma fold_left_add_shift : forall l a,
  fold_left Z.add l a = (a + fold_left Z.add l 0)%Z.
Proof.
  induction l as [|x l IH]; intros a; simpl; [lia|].
  rewrite (IH (a + x)%Z), (IH x). lia.
Qed.

Lemma sum_cons : forall x l, Js.sum (x :: l) = (x + Js.sum l)%Z.
Proof.
  intros x l. unfold Js.sum. simpl. apply fold_left_add_shift.
Qed.

Lemma sum_perm : forall l l', Permutation l l' -> Js.sum l = Js.sum l'.
Proof.
  induction 1; rewrite ?sum_cons; lia.
Qed.

Lemma avgConf_perm : forall rs rs',
  Permutation rs rs' -> avgConf rs = avgConf rs'.
Proof.
  intros rs rs' Hp. unfold avgConf.
  assert (Hc : Permutation (confidences rs) (confidences rs'))
    by (apply nonNull_perm, Permutation_map, Hp).
  rewrite (Permutation_length Hc), (sum_perm _ _ Hc). reflexivity.
Qed.

Lemma uniq_acc_In : forall l seen x,
  In x (uniq_acc seen l) <-> In x l /\ ~ In x seen.
Proof.
  induction l as [|y l IH]; intros seen x; simpl; [tauto|].
  destruct (includes seen y) eqn:E.
  - apply includes_In in E. rewrite IH.
    split; [tauto|]. intros [[<- | H] Hn]; tauto.
  - assert (Hy : ~ In y seen) by (rewrite <- includes_In; congruence).
    simpl. rewrite IH. simpl.
    destruct (list_eq_dec N.eq_dec y x) as [<- | Hne]; [tauto|].
    split; [intros [H | H]; tauto | intros [[H | H] Hn]; tauto].
Qed.

Lemma uniq_acc_NoDup : forall l seen, NoDup (uniq_acc seen l).
Proof.
  induction l as [|y l IH]; intros seen; simpl; [constructor|].
  destruct (includes seen y); [apply IH|].
  constructor; [|apply IH].
  rewrite uniq_acc_In. simpl. tauto.
Qed.

Lemma uniq_In : forall l x, In x (uniq l) <-> In x l.
Proof. intros l x. unfold uniq. rewrite uniq_acc_In. simpl. tauto. Qed.

Lemma uniq_NoDup : forall l, NoDup (uniq l).
Proof. intros l. apply uniq_acc_NoDup. Qed.

Lemma unique_perm : forall (N : Type) (rs rs' : list (ResponseOf N)),
  Permutation rs rs' -> Permutation (unique rs) (unique rs').
Proof.
  intros N rs rs' Hp. unfold unique.
  apply NoDup_Permutation; try apply uniq_NoDup.
  intros x. rewrite !uniq_In, !in_concat.
  assert (Hc : Permutation (allClaims rs) (allClaims rs'))
    by (apply Permutation_map, Hp).
  split; intros [l [Hl Hx]]; exists l; split; auto.
  - eapply Permutation_in; eassumption.
  - eapply Permutation_in; [apply Permutation_sym|]; eassumption.
Qed.

(** [unique] lists, without repetition, the normalized claims that some
    model declared: the union of the models' claim sets. *)
Lemma unique_spec : forall (N : Type) (rs : list (ResponseOf N)),
  NoDup (unique rs) /\
  forall c,
    In c (unique rs) <->
    exists r cs,
      In r rs /\ factual_claims r = Some cs /\ In c (map normalize cs).
Proof.
  intros N rs. split; [apply uniq_NoDup|].
  intros c. unfold unique, allClaims. rewrite uniq_In, in_concat. split.
  - intros [l [Hl Hc]]. apply in_map_iff in Hl. destruct Hl as [r [<- Hr]].
    destruct (factual_claims r) as [cs|] eqn:E; [|contradiction].
    exists r, cs. auto.
  - intros [r [cs [Hr [E Hc]]]]. exists (map normalize cs). split; [|assumption].
    apply in_map_iff. exists r. rewrite E. auto.
Qed.

(** [overlapping] keeps the claims of the union that at least two
    models' claim lists include. *)
Lemma overlapping_spec : forall (N : Type) (rs : list (ResponseOf N)) c,
  In c (overlapping rs) <->
  In c (unique rs) /\
  2 <= length (filter (fun l => includes l c) (allClaims rs)).
Proof.
  intros N rs c. unfold overlapping, sharedByTwo.
  rewrite filter_In, Nat.leb_le. tauto.
Qed.

Lemma sharedByTwo_perm : forall ls ls' c,
  Permutation ls ls' -> sharedByTwo ls c = sharedByTwo ls' c.
Proof.
  intros ls ls' c Hp. unfold sharedByTwo.
  rewrite (Permutation_length (filter_perm _ _ _ Hp)). reflexivity.
Qed.

Lemma overlapRatio_perm : forall (N : Type) (rs rs' : list (ResponseOf N)),
  Permutation rs rs' -> overlapRatio rs = overlapRatio rs'.
Proof.
  intros N rs rs' Hp. unfold overlapRatio, overlapping.
  rewrite (Permutation_length (unique_perm _ _ _ Hp)).
  rewrite (filter_ext_perm_length (sharedByTwo (allClaims rs))
             (sharedByTwo (allClaims rs')) (unique rs) (unique rs')).
  - reflexivity.
  - intros c. apply sharedByTwo_perm, Permutation_map, Hp.
  - apply unique_perm, Hp.
Qed.

Lemma agreement_perm : forall (N : Type) below atLeast
                              (rs rs' : list (ResponseOf N)),
  Permutation rs rs' ->
  agreement below atLeast rs = agreement below atLeast rs'.
Proof.
  intros N below atLeast rs rs' Hp. unfold agreement.
  rewrite (overlapRatio_perm _ _ _ Hp).
  rewrite (forallb_perm _ _ _
             (Permutation_map _ Hp : Permutation (allClaims _) (allClaims _))).
  reflexivity.
Qed.

Lemma externalEvidence_perm : forall rs rs',
  Permutation rs rs' ->
  externalEvidence (Some rs) = externalEvidence (Some rs').
Proof.
  intros rs rs' Hp.
  destruct rs as [|r rs]; [apply Permutation_nil in Hp; subst; reflexivity|].
  destruct rs' as [|r' rs'];
    [apply Permutation_sym, Permutation_nil in Hp; discriminate|].
  unfold externalEvidence.
  rewrite (existsb_perm _ _ _ Hp).
  rewrite (Permutation_length (filter_perm isActionable _ _ Hp)).
  rewrite (forallb_perm _ _ _ (filter_perm isActionable _ _ Hp)).
  reflexivity.
Qed.

(** ** The waterfall on doubles *)

(** *** Comparing doubles *)

Ltac compare_cases :=
  repeat match goal with
  | |- context [(?a ?= ?b)%Z] => destruct (Z.compare_spec a b)
  | |- context [PosDef.Pos.compare_cont Eq ?a ?b] =>
      change (PosDef.Pos.compare_cont Eq a b) with (Pos.compare a b);
      destruct (Pos.compare_spec a b)
  end.

Ltac sf_order :=
  unfold SFltb, SFleb, SFcompare;
  repeat match goal with
  | x : spec_float |- _ => destruct x as [[]|[]| |[] ? ?]
  end;
  try (intros; discriminate); try (intros; reflexivity);
  compare_cases; cbn [CompOpp];
  intros; try discriminate; try reflexivity; subst; try lia.

Lemma SF_lt_le_trans : forall x a b,
  SFltb x a = true -> SFleb a b = true -> SFltb x b = true.
Proof. intros x a b. sf_order. Qed.

Lemma SF_le_lt_trans : forall a x b,
  SFleb a x = true -> SFltb x b = true -> SFltb a b = true.
Proof. intros a x b. sf_order. Qed.

(** A double below 50 is below 55. *)
Lemma below_50_below_55 : forall x,
  PrimFloat.ltb x (Binary64.ofZ 50) = true ->
  PrimFloat.ltb x (Binary64.ofZ 55) = true.
Proof.
  intros x H. rewrite ltb_spec in *.
  apply (SF_lt_le_trans _ _ _ H). vm_compute. reflexivity.
Qed.

(** A double that is at least 65 is not below 50. *)
Lemma at_least_65_not_below_50 : forall x,
  PrimFloat.leb (Binary64.ofZ 65) x = true ->
  PrimFloat.ltb x (Binary64.ofZ 50) = false.
Proof.
  intros x H. destruct (PrimFloat.ltb x (Binary64.ofZ 50)) eqn:E;
    [|reflexivity].
  rewrite leb_spec in H. rewrite ltb_spec in E.
  pose proof (SF_le_lt_trans _ _ _ H E) as C.
  vm_compute in C. discriminate.
Qed.

(** *** The vocabulary and the code *)

Lemma fallsThrough : forall stage25,
  FallsThrough stage25 -> externalEvidence stage25 = None.
Proof.
  intros [rs|] H; [|reflexivity].
  apply externalEvidence_None_iff. right. exact H.
Qed.

Lemma Declared_iff : forall (N : Type) (rs : list (ResponseOf N)) cs,
  Declared rs cs <-> cs = nonNull (map confidence rs).
Proof.
  intros N rs cs. split.
  - induction 1 as [| r rs c cs E _ IH | r rs cs E _ IH]; simpl;
      [reflexivity | rewrite E; f_equal; exact IH | rewrite E; exact IH].
  - intros ->. induction rs as [|r rs IH]; simpl; [constructor|].
    destruct (confidence r) eqn:E;
      [apply declared_some | apply declared_none]; assumption.
Qed.

Lemma AddsUpTo_iff : forall l acc s,
  AddsUpTo acc l s <-> s = fold_left PrimFloat.add l acc.
Proof.
  induction l as [|x l IH]; intros acc s; simpl.
  - split; [inversion 1; reflexivity | intros ->; constructor].
  - split.
    + inversion 1; subst. apply IH. assumption.
    + intros ->. constructor. apply IH. reflexivity.
Qed.

Lemma avgConf_computed : forall rs m,
  Binary64.avgConf rs = Some m <-> ComputedMean rs m.
Proof.
  intros rs m. unfold Binary64.avgConf, ComputedMean, Binary64.sum.
  cbv zeta. change (Binary64.ofZ 0) with PrimFloat.zero. split.
  - destruct (0 <? length (nonNull (map confidence rs))) eqn:E;
      [|discriminate].
    intros H. injection H as <-.
    exists (nonNull (map confidence rs)),
           (fold_left PrimFloat.add (nonNull (map confidence rs))
                      PrimFloat.zero).
    split; [apply Declared_iff; reflexivity|].
    split; [intros Hc; rewrite Hc in E; discriminate|].
    split; [apply AddsUpTo_iff; reflexivity | reflexivity].
  - intros [cs [s [Hd [Hne [Hs ->]]]]].
    apply Declared_iff in Hd. apply AddsUpTo_iff in Hs. subst cs s.
    destruct (nonNull (map confidence rs)); [congruence | reflexivity].
Qed.

Lemma avgBelow_computed : forall rs k,
  Binary64.avgBelow (Binary64.avgConf rs) k = true <->
  ComputedMeanBelow rs k.
Proof.
  intros rs k. unfold ComputedMeanBelow, Binary64.avgBelow.
  destruct (Binary64.avgConf rs) as [m|] eqn:E.
  - apply avgConf_computed in E. split.
    + intros H. exists m. auto.
    + intros [m' [Hm H]]. apply avgConf_computed in E, Hm.
      rewrite E in Hm. injection Hm as <-. exact H.
  - split; [discriminate|]. intros [m [Hm _]].
    apply avgConf_computed in Hm. congruence.
Qed.

Lemma avgAtLeast_computed : forall rs k,
  Binary64.avgAtLeast (Binary64.avgConf rs) k = true <->
  ComputedMeanAtLeast rs k.
Proof.
  intros rs k. unfold ComputedMeanAtLeast, Binary64.avgAtLeast.
  destruct (Binary64.avgConf rs) as [m|] eqn:E.
  - apply avgConf_computed in E. split.
    + intros H. exists m. auto.
    + intros [m' [Hm H]]. apply avgConf_computed in E, Hm.
      rewrite E in Hm. injection Hm as <-. exact H.
  - split; [discriminate|]. intros [m [Hm _]].
    apply avgConf_computed in Hm. congruence.
Qed.

Lemma Declares_iff : forall (N : Type) (r : ResponseOf N) c,
  Declares r c <->
  In c (match factual_claims r with
        | Some cs => map normalize cs
        | None => []
        end).
Proof.
  intros N r c. unfold Declares. destruct (factual_claims r) as [cs|].
  - split; [intros [cs' [E H]]; injection E as <-; exact H|].
    intros H. exists cs. auto.
  - split; [intros [cs' [E _]]; discriminate | intros []].
Qed.

Lemma Claimed_unique : forall (N : Type) (rs : list (ResponseOf N)) c,
  In c (unique rs) <-> Claimed rs c.
Proof.
  intros N rs c. rewrite (proj2 (unique_spec N rs)). unfold Claimed, Declares.
  split.
  - intros [r [cs [Hr [E Hc]]]]. exists r. split; [exact Hr|]. exists cs. auto.
  - intros [r [Hr [cs [E Hc]]]]. exists r, cs. auto.
Qed.

Lemma noClaims_Claimed : forall (N : Type) (rs : list (ResponseOf N)),
  forallb (fun l : list str => length l =? 0) (allClaims rs) = true <->
  forall c, ~ Claimed rs c.
Proof.
  intros N rs. rewrite forallb_forall. unfold allClaims. split.
  - intros H c [r [Hr Hd]]. apply Declares_iff in Hd.
    specialize (H _ (in_map _ _ _ Hr)). apply Nat.eqb_eq in H.
    destruct (match factual_claims r with
              | Some cs => map normalize cs
              | None => []
              end); [destruct Hd | discriminate].
  - intros H l Hl. apply in_map_iff in Hl. destruct Hl as [r [<- Hr]].
    destruct (match factual_claims r with
              | Some cs => map normalize cs
              | None => []
              end) as [|c l] eqn:E; [reflexivity|].
    elim (H c). exists r. split; [exact Hr|].
    apply Declares_iff. rewrite E. left. reflexivity.
Qed.

Lemma one_in_filter : forall (A : Type) (p : A -> bool) l,
  1 <= length (filter p l) <->
  exists i x, nth_error l i = Some x /\ p x = true.
Proof.
  intros A p. induction l as [|a l IH]; simpl.
  - split; [lia | intros [[|i] [x [H _]]]; discriminate].
  - destruct (p a) eqn:E.
    + split; [|simpl; lia]. intros _. exists 0, a. auto.
    + rewrite IH. split.
      * intros [i [x [H Hp]]]. exists (S i), x. auto.
      * intros [[|i] [x [H Hp]]]; simpl in H;
          [injection H as <-; congruence | exists i, x; auto].
Qed.

(** Two elements pass a filter when two positions hold passing
    elements. *)
Lemma two_in_filter : forall (A : Type) (p : A -> bool) l,
  2 <= length (filter p l) <->
  exists i j x y,
    i <> j /\ nth_error l i = Some x /\ nth_error l j = Some y /\
    p x = true /\ p y = true.
Proof.
  intros A p. induction l as [|a l IH]; simpl.
  - split; [lia | intros [[|i] [j [x [y [_ [H _]]]]]]; discriminate].
  - split.
    + destruct (p a) eqn:E.
      * simpl. intros H.
        assert (H1 : 1 <= length (filter p l)) by lia.
        apply one_in_filter in H1. destruct H1 as [j [y [Hj Hy]]].
        exists 0, (S j), a, y. repeat split; auto.
      * intros H. apply IH in H.
        destruct H as [i [j [x [y [Hij [Hi [Hj [Hx Hy]]]]]]]].
        exists (S i), (S j), x, y. repeat split; auto.
    + intros [i [j [x [y [Hij [Hi [Hj [Hx Hy]]]]]]]].
      assert (Hone : forall k z, nth_error l k = Some z -> p z = true ->
                                 1 <= length (filter p l)).
      { intros k z Hk Hz. apply one_in_filter. exists k, z. auto. }
      destruct i as [|i], j as [|j]; simpl in Hi, Hj.
      * congruence.
      * injection Hi as <-. rewrite Hx. simpl.
        specialize (Hone _ _ Hj Hy). lia.
      * injection Hj as <-. rewrite Hy. simpl.
        specialize (Hone _ _ Hi Hx). lia.
      * assert (H2 : 2 <= length (filter p l)).
        { apply IH. exists i, j, x, y. repeat split; auto. }
        destruct (p a); simpl; lia.
Qed.

Lemma sharedByTwo_iff : forall (N : Type) (rs : list (ResponseOf N)) c,
  sharedByTwo (allClaims rs) c = true <-> SharedClaim rs c.
Proof.
  intros N rs c. unfold sharedByTwo, SharedClaim, allClaims.
  rewrite Nat.leb_le, two_in_filter. split.
  - intros [i [j [x [y [Hij [Hi [Hj [Hx Hy]]]]]]]].
    rewrite nth_error_map in Hi, Hj.
    destruct (nth_error rs i) as [r|] eqn:Ei; [|discriminate].
    destruct (nth_error rs j) as [r'|] eqn:Ej; [|discriminate].
    simpl in Hi, Hj. injection Hi as <-. injection Hj as <-.
    exists i, j, r, r'. repeat split; auto;
      apply Declares_iff, includes_In; assumption.
  - intros [i [j [r [r' [Hij [Hi [Hj [Hr Hr']]]]]]]].
    eexists i, j, _, _. rewrite !nth_error_map, Hi, Hj.
    repeat split; auto; apply includes_In, Declares_iff; assumption.
Qed.

Lemma SharedClaim_Claimed : forall (N : Type) (rs : list (ResponseOf N)) c,
  SharedClaim rs c -> Claimed rs c.
Proof.
  intros N rs c [i [j [r [r' [_ [Hi [_ [Hr _]]]]]]]].
  exists r. split; [eapply nth_error_In; exact Hi | exact Hr].
Qed.

Lemma Zpos_of_nat : forall n, 0 < n -> Zpos (Pos.of_nat n) = Z.of_nat n.
Proof.
  intros n H. rewrite <- positive_nat_Z, Nat2Pos.id by lia. reflexivity.
Qed.

(** The code's test on the overlap ratio is the statement that half of
    the distinct claims are shared. *)
Lemma halfShared_iff : forall (N : Type) (rs : list (ResponseOf N)),
  HalfShared rs <->
  unique rs <> [] /\ Qle_bool (1 # 2) (overlapRatio rs) = true.
Proof.
  intros N rs.
  assert (Hu : NoDup (unique rs)) by apply unique_spec.
  assert (Ho : NoDup (overlapping rs))
    by (unfold overlapping; apply NoDup_filter, Hu).
  assert (Hin : forall c, In c (overlapping rs) <-> SharedClaim rs c).
  { intros c. rewrite overlapping_spec, Claimed_unique.
    rewrite <- sharedByTwo_iff. unfold sharedByTwo. rewrite Nat.leb_le.
    split; [tauto|]. intros H. split; [|exact H].
    apply SharedClaim_Claimed, sharedByTwo_iff.
    unfold sharedByTwo. apply Nat.leb_le. exact H. }
  assert (Hratio : unique rs <> [] ->
            (Qle_bool (1 # 2) (overlapRatio rs) = true <->
             length (unique rs) <= 2 * length (overlapping rs))).
  { intros Hne. rewrite Qle_bool_iff. unfold overlapRatio, Qle. simpl.
    rewrite Zpos_of_nat by (destruct (unique rs); [congruence | simpl; lia]).
    lia. }
  split.
  - intros [claims [shared [Hc1 [Hc2 [Hs1 [Hs2 [Hne Hlen]]]]]]].
    assert (Pc : Permutation claims (unique rs)).
    { apply NoDup_Permutation; auto. intros c.
      rewrite Hc2, Claimed_unique. tauto. }
    assert (Ps : Permutation shared (overlapping rs)).
    { apply NoDup_Permutation; auto. intros c. rewrite Hs2, Hin. tauto. }
    assert (Hune : unique rs <> []).
    { intros E. rewrite E in Pc.
      apply Permutation_sym, Permutation_nil in Pc. contradiction. }
    split; [exact Hune|]. apply (Hratio Hune).
    rewrite <- (Permutation_length Pc), <- (Permutation_length Ps).
    exact Hlen.
  - intros [Hne Hr]. exists (unique rs), (overlapping rs).
    split; [exact Hu|]. split; [apply Claimed_unique|].
    split; [exact Ho|]. split; [exact Hin|]. split; [exact Hne|].
    apply (Hratio Hne), Hr.
Qed.

(** What Step 2 returns on a non-empty Stage 1 list, branch by branch. *)
Lemma factualConsensus_doubles : forall rs,
  rs <> [] ->
  Binary64.factualConsensus (Some rs) =
    if Binary64.avgBelow (Binary64.avgConf rs) 50 then Uncertain
    else if forallb (fun l : list str => length l =? 0) (allClaims rs)
    then (if Binary64.avgAtLeast (Binary64.avgConf rs) 65
          then Consensus else Split)
    else if Qle_bool (1 # 2) (overlapRatio rs)
            && Binary64.avgAtLeast (Binary64.avgConf rs) 65
    then Consensus
    else if Binary64.avgBelow (Binary64.avgConf rs) 55 then Uncertain
    else Split.
Proof.
  intros [|r rs] H; [congruence | reflexivity].
Qed.

(** C4, as amended.  After the fall-through, over a non-empty Stage 1
    list, with the mean as the code computes it (the declared
    confidences added in double precision from left to right, the sum
    divided by their count): a mean below 50 gives [Uncertain], with or
    without claims; when some model declared a claim and the Consensus
    condition fails, a mean below 55 gives [Uncertain] and anything else
    [Split]; when no model declared a claim and the mean is not below
    50, the verdict is [Consensus] for a mean of at least 65 and [Split]
    otherwise. *)
Theorem calcVerdict_heuristic_uncertain_split :
  forall (stage25 : option (list VerificationResult))
         (rs : list (ResponseOf float)),
    FallsThrough stage25 ->
    rs <> [] ->
    (ComputedMeanBelow rs 50 ->
       Binary64.calcVerdict stage25 (Some rs) = Uncertain) /\
    ((exists c, Claimed rs c) ->
     ~ (HalfShared rs /\ ComputedMeanAtLeast rs 65) ->
       (ComputedMeanBelow rs 55 ->
          Binary64.calcVerdict stage25 (Some rs) = Uncertain) /\
       (~ ComputedMeanBelow rs 55 ->
          Binary64.calcVerdict stage25 (Some rs) = Split)) /\
    ((forall c, ~ Claimed rs c) -> ~ ComputedMeanBelow rs 50 ->
       (ComputedMeanAtLeast rs 65 ->
          Binary64.calcVerdict stage25 (Some rs) = Consensus) /\
       (~ ComputedMeanAtLeast rs 65 ->
          Binary64.calcVerdict stage25 (Some rs) = Split)).
Proof.
  intros stage25 rs Hft Hne.
  unfold Binary64.calcVerdict.
  rewrite (fallsThrough _ Hft), (factualConsensus_doubles rs Hne).
  split; [|split].
  - intros H. apply avgBelow_computed in H. rewrite H. reflexivity.
  - intros [c Hc] Hnc.
    destruct (forallb _ (allClaims rs)) eqn:En.
    { elim (proj1 (noClaims_Claimed _ rs) En c Hc). }
    destruct (Qle_bool (1 # 2) (overlapRatio rs)
              && Binary64.avgAtLeast (Binary64.avgConf rs) 65) eqn:Ec.
    { elim Hnc. apply andb_true_iff in Ec. destruct Ec as [Er Ea].
      split; [|apply avgAtLeast_computed; exact Ea].
      apply halfShared_iff. split; [|exact Er].
      intros E. apply Claimed_unique in Hc. rewrite E in Hc. destruct Hc. }
    split; intros H.
    + destruct (Binary64.avgBelow (Binary64.avgConf rs) 50); [reflexivity|].
      apply avgBelow_computed in H. rewrite H. reflexivity.
    + destruct (Binary64.avgBelow (Binary64.avgConf rs) 50) eqn:E50.
      * elim H. apply avgBelow_computed.
        unfold Binary64.avgBelow in *.
        destruct (Binary64.avgConf rs); [|discriminate].
        apply below_50_below_55, E50.
      * destruct (Binary64.avgBelow (Binary64.avgConf rs) 55) eqn:E55;
          [|reflexivity].
        apply avgBelow_computed in E55. contradiction.
  - intros Hcl H50.
    destruct (Binary64.avgBelow (Binary64.avgConf rs) 50) eqn:E50;
      [apply avgBelow_computed in E50; contradiction|].
    rewrite (proj2 (noClaims_Claimed _ rs) Hcl).
    split; intros H.
    + apply avgAtLeast_computed in H. rewrite H. reflexivity.
    + destruct (Binary64.avgAtLeast (Binary64.avgConf rs) 65) eqn:E65;
        [|reflexivity].
      apply avgAtLeast_computed in E65. contradiction.
Qed.

Lemma computed_mean_of_one : forall m c claims,
  ComputedMean [mkResponseOf m (Some c) claims]
    (PrimFloat.div (PrimFloat.add PrimFloat.zero c) (Binary64.ofZ 1)).
Proof.
  intros m c claims. exists [c], (PrimFloat.add PrimFloat.zero c).
  split; [apply declared_some; [reflexivity | constructor]|].
  split; [discriminate|].
  split; [repeat constructor | reflexivity].
Qed.

(** The spec's case (d): no verification results, a model that declared
    an empty claim list and confidence 40. *)
Lemma calcVerdict_heuristic_uncertain_split_witness :
  Binary64.calcVerdict (Some []) (Some [scored 40 []]) = Uncertain.
Proof.
  refine (proj1 (calcVerdict_heuristic_uncertain_split
                   (Some []) [scored 40 []] _ _) _).
  - split; [intros r [] | intros [[r [[] _]] _]].
  - discriminate.
  - eexists. split; [apply computed_mean_of_one | reflexivity].
Defined.

(** C4, as stated, fails in two ways.  Where no model declared a claim:
    with a mean confidence of 52 the Consensus condition does not hold
    and the mean is below 55, yet the verdict is [Split], not
    [Uncertain].  And the mean is the rounded one: the confidences 16.6,
    68.8 and 64.6 have a mean below 50, yet their sum rounds to 150, the
    computed mean is 50 and the verdict is [Split]. *)
Lemma calcVerdict_heuristic_no_claims_counterexample :
  (FallsThrough (Some []) /\
   lukewarm_no_claims <> [] /\
   (forall c, ~ Claimed lukewarm_no_claims c) /\
   ~ (HalfShared lukewarm_no_claims /\
      ComputedMeanAtLeast lukewarm_no_claims 65) /\
   ComputedMeanBelow lukewarm_no_claims 55 /\
   Binary64.calcVerdict (Some []) (Some lukewarm_no_claims) = Split) /\
  (exists q, exactMean fractional_reversed = Some q /\ (q < 50)%Q) /\
  Binary64.calcVerdict None (Some fractional_reversed) = Split.
Proof.
  assert (Hno : forall c, ~ Claimed lukewarm_no_claims c).
  { intros c [r [[<- | []] [cs [E Hc]]]]. injection E as <-. destruct Hc. }
  split; [|split].
  - split; [split; [intros r [] | intros [[r [[] _]] _]]|].
    split; [discriminate|]. split; [exact Hno|]. split; [|split].
    + intros [[claims [shared [_ [Hc [_ [_ [Hne _]]]]]]] _].
      destruct claims as [|c claims]; [congruence|].
      apply (Hno c), Hc. left. reflexivity.
    + eexists. split; [apply computed_mean_of_one | reflexivity].
    + reflexivity.
  - eexists. split; [vm_compute; reflexivity | reflexivity].
  - vm_compute. reflexivity.
Qed.

(** C5, as amended.  After the fall-through, over a non-empty Stage 1
    list: when at least half of the distinct normalized claims are
    declared by two models and the mean declared confidence, as the code
    computes it, is at least 65, the verdict is [Consensus]. *)
Theorem calcVerdict_heuristic_consensus :
  forall (stage25 : option (list VerificationResult))
         (rs : list (ResponseOf float)),
    FallsThrough stage25 ->
    rs <> [] ->
    HalfShared rs ->
    ComputedMeanAtLeast rs 65 ->
    Binary64.calcVerdict stage25 (Some rs) = Consensus.
Proof.
  intros stage25 rs Hft Hne Hh Hm.
  unfold Binary64.calcVerdict.
  rewrite (fallsThrough _ Hft), (factualConsensus_doubles rs Hne).
  apply avgAtLeast_computed in Hm. apply halfShared_iff in Hh.
  destruct Hh as [_ Hr]. rewrite Hm, Hr.
  assert (E50 : Binary64.avgBelow (Binary64.avgConf rs) 50 = false).
  { unfold Binary64.avgBelow, Binary64.avgAtLeast in *.
    destruct (Binary64.avgConf rs); [|reflexivity].
    apply at_least_65_not_below_50, Hm. }
  rewrite E50. simpl. destruct (forallb _ _); reflexivity.
Qed.

(** The spec's case (c): an empty verification set, two models whose
    claims overlap entirely, both at confidence 80. *)
Lemma calcVerdict_heuristic_consensus_witness :
  Binary64.calcVerdict (Some []) (Some agreeing_at_80) = Consensus.
Proof.
  apply calcVerdict_heuristic_consensus.
  - split; [intros r [] | intros [[r [[] _]] _]].
  - discriminate.
  - apply halfShared_iff. split; [vm_compute; discriminate | reflexivity].
  - apply avgAtLeast_computed. reflexivity.
Defined.

(** C5, as stated, fails when the sum rounds down.  Four models declare
    the same claim and the confidences 95.2, 97.0, 63.9 and 3.9.  The
    mean of these four numbers is not below 65, but the code's sum is a
    little under 260 and its mean a little under 65: the verdict is
    [Split]. *)
Lemma calcVerdict_consensus_counterexample :
  FallsThrough None /\
  rounded_down <> [] /\
  HalfShared rounded_down /\
  (exists q, exactMean rounded_down = Some q /\ (65 <= q)%Q) /\
  Binary64.calcVerdict None (Some rounded_down) = Split.
Proof.
  split; [exact I|]. split; [discriminate|]. split; [|split].
  - apply halfShared_iff. split; [vm_compute; discriminate | reflexivity].
  - eexists. split; [vm_compute; reflexivity | vm_compute; discriminate].
  - vm_compute. reflexivity.
Qed.

(** *** Whole scores add up exactly *)

Lemma exact_table : exactBelow 10001 101 = true.
Proof. vm_compute. reflexivity. Qed.

Lemma below_In : forall n k, (0 <= k < n)%Z -> In k (below n).
Proof.
  intros n k H. unfold below. apply in_map_iff. exists (Z.to_nat k).
  split; [lia|]. apply in_seq. lia.
Qed.

Lemma exactBelow_spec : forall na nb a b,
  exactBelow na nb = true -> (0 <= a < na)%Z -> (0 <= b < nb)%Z ->
  PrimFloat.add (Binary64.ofZ a) (Binary64.ofZ b) = Binary64.ofZ (a + b).
Proof.
  intros na nb a b T Ha Hb.
  unfold exactBelow in T. rewrite forallb_forall in T.
  specialize (T a (below_In na a Ha)).
  rewrite forallb_forall in T.
  specialize (T b (below_In nb b Hb)).
  apply Leibniz.eqb_spec. exact T.
Qed.

(** Adding a whole number up to 100 to one up to 10000 is exact. *)
Lemma add_whole : forall a b,
  (0 <= a <= 10000)%Z -> (0 <= b <= 100)%Z ->
  PrimFloat.add (Binary64.ofZ a) (Binary64.ofZ b) = Binary64.ofZ (a + b).
Proof.
  intros a b Ha Hb.
  apply (exactBelow_spec 10001 101 a b exact_table); lia.
Qed.

Lemma wholeOf_table :
  forallb (fun k => (wholeOf (Binary64.ofZ k) =? k)%Z) (below 101) = true.
Proof. vm_compute. reflexivity. Qed.

Lemma forallb_below : forall (f : Z -> bool) n k,
  forallb f (below n) = true -> (0 <= k < n)%Z -> f k = true.
Proof.
  intros f n k T H. rewrite forallb_forall in T. apply T, below_In, H.
Qed.

Lemma wholeOf_ofZ : forall k,
  (0 <= k <= 100)%Z -> wholeOf (Binary64.ofZ k) = k.
Proof.
  intros k H. apply Z.eqb_eq.
  apply (forallb_below _ 101 k wholeOf_table). lia.
Qed.

(** A double that holds a whole number from 0 to 100. *)
Lemma sum_whole : forall (l : list float) a,
  Forall (fun x => exists k, (0 <= k <= 100)%Z /\ x = Binary64.ofZ k) l ->
  (0 <= a)%Z -> (a + 100 * Z.of_nat (length l) <= 10000)%Z ->
  fold_left PrimFloat.add l (Binary64.ofZ a)
  = Binary64.ofZ (a + Js.sum (map wholeOf l)).
Proof.
  induction l as [|x l IH]; intros a Hl Ha Hb.
  - simpl. f_equal. unfold Js.sum. simpl. lia.
  - inversion Hl as [|? ? [k [Hk ->]] Hl']; subst.
    cbn [fold_left map]. rewrite sum_cons, (wholeOf_ofZ k Hk).
    rewrite add_whole by (simpl length in Hb; lia).
    rewrite IH; [f_equal; lia | exact Hl' | lia |].
    simpl length in Hb. lia.
Qed.

Lemma whole_confidences : forall rs,
  WholeScores rs ->
  Forall (fun x => exists k, (0 <= k <= 100)%Z /\ x = Binary64.ofZ k)
         (nonNull (map confidence rs)).
Proof.
  induction 1 as [|r rs Hr _ IH]; simpl; [constructor|].
  destruct (confidence r) as [x|]; [|exact IH].
  constructor; [apply Hr; reflexivity | exact IH].
Qed.

Lemma nonNull_le : forall (N : Type) (l : list (option N)),
  length (nonNull l) <= length l.
Proof.
  induction l as [|[v|] l IH]; simpl; lia.
Qed.

(** With whole scores the mean the code computes does not depend on the
    order of the responses. *)
Lemma avgConf_doubles_perm : forall rs rs',
  Permutation rs rs' -> WholeScores rs -> length rs <= 100 ->
  Binary64.avgConf rs = Binary64.avgConf rs'.
Proof.
  intros rs rs' Hp Hw Hlen.
  assert (Hw' : WholeScores rs')
    by (unfold WholeScores in *; eapply Permutation_Forall; eassumption).
  assert (Hc : Permutation (nonNull (map confidence rs))
                           (nonNull (map confidence rs')))
    by (apply nonNull_perm, Permutation_map, Hp).
  assert (Hn : length (nonNull (map confidence rs)) <= 100).
  { pose proof (nonNull_le _ (map confidence rs)) as H.
    rewrite length_map in H. lia. }
  unfold Binary64.avgConf, Binary64.sum. cbv zeta.
  rewrite <- (Permutation_length Hc).
  rewrite (sum_whole _ 0 (whole_confidences rs Hw)) by lia.
  rewrite (sum_whole _ 0 (whole_confidences rs' Hw'))
    by (rewrite <- ?(Permutation_length Hc); lia).
  rewrite (sum_perm _ _ (Permutation_map wholeOf Hc)). reflexivity.
Qed.

(** C7, as amended.  The verdict does not depend on the order of the
    verification results.  It does not depend on the order of the
    Stage 1 responses either when there are at most 100 of them and
    every declared confidence is a whole number from 0 to 100: the sum
    of the confidences is then exact in double precision. *)
Theorem calcVerdict_order_independent :
  (forall (stage25 stage25' : option (list VerificationResult))
          (stage1 : option (list (ResponseOf float))),
     SameUpToOrder stage25 stage25' ->
     Binary64.calcVerdict stage25 stage1 =
     Binary64.calcVerdict stage25' stage1) /\
  (forall (stage25 stage25' : option (list VerificationResult))
          (rs rs' : list (ResponseOf float)),
     SameUpToOrder stage25 stage25' ->
     Permutation rs rs' ->
     WholeScores rs ->
     length rs <= 100 ->
     Binary64.calcVerdict stage25 (Some rs) =
     Binary64.calcVerdict stage25' (Some rs')).
Proof.
  assert (E25 : forall stage25 stage25',
            SameUpToOrder stage25 stage25' ->
            externalEvidence stage25 = externalEvidence stage25').
  { intros stage25 stage25' H25.
    destruct H25; [reflexivity | apply externalEvidence_perm; assumption]. }
  split.
  - intros stage25 stage25' stage1 H25.
    unfold Binary64.calcVerdict. rewrite (E25 _ _ H25). reflexivity.
  - intros stage25 stage25' rs rs' H25 Hp Hw Hlen.
    unfold Binary64.calcVerdict. rewrite (E25 _ _ H25).
    destruct (externalEvidence stage25'); [reflexivity|].
    destruct rs as [|r rs].
    { apply Permutation_nil in Hp. subst. reflexivity. }
    destruct rs' as [|r' rs'].
    { apply Permutation_sym, Permutation_nil in Hp. discriminate. }
    unfold Binary64.factualConsensus. cbv zeta.
    rewrite (avgConf_doubles_perm _ _ Hp Hw Hlen).
    apply agreement_perm, Hp.
Qed.

Lemma calcVerdict_order_independent_witness :
  Binary64.calcVerdict
    (Some [result CONTESTED "a"; result VERIFIED "b"])
    (Some [scored 80 ["x"; "y"]; scored 60 ["x"]; scored 70 []])
  = Binary64.calcVerdict
    (Some [result VERIFIED "b"; result CONTESTED "a"])
    (Some [scored 70 []; scored 80 ["x"; "y"]; scored 60 ["x"]]).
Proof.
  apply (proj2 calcVerdict_order_independent).
  - constructor. apply perm_swap.
  - apply Permutation_sym.
    apply (Permutation_cons_append [scored 80 ["x"; "y"]; scored 60 ["x"]]).
  - repeat constructor; intros x E; injection E as <-;
      [exists 80%Z | exists 60%Z | exists 70%Z]; split; try lia; reflexivity.
  - simpl. lia.
Defined.

(** C7, as stated, fails on doubles: 64.6 + 68.8 + 16.6 rounds to a sum
    whose third is below 50, 16.6 + 68.8 + 64.6 to exactly 150; the same
    three responses give [Uncertain] in one order and [Split] in the
    other.  Whole numbers do not help once the sum is no longer exact:
    2^53 + 1 rounds to 2^53, so 2^53 + 1 - 2^53 + 199 is 199 and
    2^53 - 2^53 + 1 + 199 is 200, for a mean of 49.75 or of 50. *)
Lemma calcVerdict_order_counterexample :
  (Permutation fractional fractional_reversed /\
   Binary64.calcVerdict None (Some fractional) = Uncertain /\
   Binary64.calcVerdict None (Some fractional_reversed) = Split) /\
  (Permutation large_scores large_scores_exchanged /\
   Binary64.calcVerdict None (Some large_scores) = Uncertain /\
   Binary64.calcVerdict None (Some large_scores_exchanged) = Split).
Proof.
  split.
  - split; [apply Permutation_rev|]. split; vm_compute; reflexivity.
  - split; [apply perm_skip, perm_swap|]. split; vm_compute; reflexivity.
Qed.

(** ** Searching the chairman text *)

Import Annotate.

Lemma isPrefix_iff : forall p s,
  isPrefix p s = true <-> firstn (length p) s = p.
Proof.
  induction p as [|x p IH]; intros s; simpl; [tauto|].
  destruct s as [|y s]; [split; discriminate|].
  rewrite andb_true_iff, N.eqb_eq, IH. simpl.
  split; [intros [-> ->]; reflexivity | intros E; inversion E; subst].
  split; [reflexivity|]. rewrite H1. assumption.
Qed.

Lemma indexOfFrom_Some : forall needle hay i k,
  indexOfFrom needle hay i = Some k ->
  exists d, k = i + d /\ d <= length hay /\
            isPrefix needle (skipn d hay) = true /\
            forall d', d' < d -> isPrefix needle (skipn d' hay) = false.
Proof.
  intros needle. induction hay as [|c hay IH]; intros i k H; simpl in H.
  - destruct (isPrefix needle []) eqn:E; [|discriminate].
    inversion H; subst. exists 0. repeat split; auto; lia.
  - destruct (isPrefix needle (c :: hay)) eqn:E.
    + inversion H; subst. exists 0. repeat split; auto; simpl; lia.
    + destruct (IH _ _ H) as [d [-> [Hd [Hp Hmin]]]].
      exists (S d). repeat split; simpl; auto; try lia.
      intros [|d'] Hd'; simpl; [assumption | apply Hmin; lia].
Qed.

Lemma indexOfFrom_None : forall needle hay i,
  indexOfFrom needle hay i = None ->
  forall d, isPrefix needle (skipn d hay) = false.
Proof.
  intros needle. induction hay as [|c hay IH]; intros i H d; simpl in H.
  - destruct (isPrefix needle []) eqn:E; [discriminate|].
    destruct d; assumption.
  - destruct (isPrefix needle (c :: hay)) eqn:E; [discriminate|].
    destruct d; simpl; [assumption | eapply IH; eassumption].
Qed.

Lemma skipn_beyond : forall (s : str) q, length s <= q -> skipn q s = [].
Proof. intros s q H. apply skipn_all2. assumption. Qed.

Lemma isPrefix_beyond : forall needle (s : str) q,
  needle <> [] -> length s <= q -> isPrefix needle (skipn q s) = false.
Proof.
  intros needle s q Hne Hq. rewrite skipn_beyond by assumption.
  destruct needle; [congruence | reflexivity].
Qed.

(** [indexOf] returns the least matching position at or after [pos]. *)
Lemma indexOf_Some : forall s needle pos k,
  needle <> [] ->
  indexOf s needle pos = Some k ->
  pos <= k /\ k < length s /\
  isPrefix needle (skipn k s) = true /\
  forall q, pos <= q -> q < k -> isPrefix needle (skipn q s) = false.
Proof.
  intros s needle pos k Hne H. unfold indexOf in H.
  apply indexOfFrom_Some in H. destruct H as [d [-> [Hd [Hp Hmin]]]].
  rewrite skipn_skipn in Hp. rewrite length_skipn in Hd.
  destruct (Nat.le_gt_cases (length s) pos) as [Hle | Hlt].
  - rewrite isPrefix_beyond in Hp by (auto; lia). discriminate.
  - rewrite Nat.min_l by lia.
    assert (Hk : pos + d < length s).
    { destruct (Nat.le_gt_cases (length s) (pos + d)) as [Hge|]; [|lia].
      rewrite Nat.add_comm in Hp.
      rewrite isPrefix_beyond in Hp by (auto; lia). discriminate. }
    rewrite Nat.add_comm in Hp.
    repeat split; auto; try lia.
    intros q Hq1 Hq2. specialize (Hmin (q - pos)).
    rewrite skipn_skipn in Hmin.
    replace (q - pos + pos) with q in Hmin by lia. apply Hmin. lia.
Qed.

Lemma indexOf_None : forall s needle pos,
  needle <> [] ->
  indexOf s needle pos = None ->
  forall q, pos <= q -> isPrefix needle (skipn q s) = false.
Proof.
  intros s needle pos Hne H q Hq. unfold indexOf in H.
  pose proof (indexOfFrom_None _ _ _ H (q - pos)) as Hd.
  rewrite skipn_skipn in Hd.
  replace (q - pos + pos) with q in Hd by lia. assumption.
Qed.

Lemma overlaps_iff : forall used s e,
  overlaps used s e = true <-> Overlaps used s e.
Proof.
  intros used s e. unfold overlaps, Overlaps. rewrite existsb_exists.
  split; intros [u [Hin H]]; exists u; split; auto.
  - apply andb_true_iff in H. rewrite !Nat.ltb_lt in H. assumption.
  - apply andb_true_iff. rewrite !Nat.ltb_lt. assumption.
Qed.

(** The loop, with enough fuel, finds the first free occurrence at or
    after [pos], or establishes that there is none. *)
Lemma search_Some : forall lower needle len used fuel pos p e,
  needle <> [] ->
  search lower needle len used pos fuel = Some (p, e) ->
  e = p + len /\ pos <= p /\ p < length lower /\
  isPrefix needle (skipn p lower) = true /\
  overlaps used p (p + len) = false /\
  forall q, pos <= q -> q < p ->
            isPrefix needle (skipn q lower) = true ->
            overlaps used q (q + len) = true.
Proof.
  intros lower needle len used fuel.
  induction fuel as [|fuel IH]; intros pos p e Hne H; simpl in H;
    [discriminate|].
  destruct (indexOf lower needle pos) as [found|] eqn:Ei; [|discriminate].
  destruct (indexOf_Some _ _ _ _ Hne Ei) as [Hpos [Hlen [Hocc Hmin]]].
  destruct (overlaps used found (found + len)) eqn:Eo.
  - destruct (IH _ _ _ Hne H) as [He [Hp [Hpl [Hpo [Hfree Hfirst]]]]].
    repeat split; auto; try lia.
    intros q Hq1 Hq2 Hq.
    destruct (Nat.lt_trichotomy q found) as [Hlt | [-> | Hgt]].
    + rewrite Hmin in Hq by assumption. discriminate.
    + assumption.
    + apply Hfirst; auto; lia.
  - inversion H; subst. repeat split; auto.
    intros q Hq1 Hq2 Hq. rewrite Hmin in Hq by assumption. discriminate.
Qed.

Lemma search_None : forall lower needle len used fuel pos,
  needle <> [] ->
  length lower < pos + fuel ->
  search lower needle len used pos fuel = None ->
  forall q, pos <= q ->
            isPrefix needle (skipn q lower) = true ->
            overlaps used q (q + len) = true.
Proof.
  intros lower needle len used fuel.
  induction fuel as [|fuel IH]; intros pos Hne Hfuel H q Hq Hocc.
  - rewrite isPrefix_beyond in Hocc by (auto; lia). discriminate.
  - simpl in H.
    destruct (indexOf lower needle pos) as [found|] eqn:Ei.
    + destruct (indexOf_Some _ _ _ _ Hne Ei) as [Hpos [Hlen [Hfo Hmin]]].
      destruct (overlaps used found (found + len)) eqn:Eo; [|discriminate].
      destruct (Nat.lt_trichotomy q found) as [Hlt | [-> | Hgt]].
      * rewrite Hmin in Hocc by assumption. discriminate.
      * assumption.
      * apply (IH (found + 1)); auto; lia.
    + rewrite (indexOf_None _ _ _ Hne Ei q Hq) in Hocc. discriminate.
Qed.

Lemma firstn_exact : forall (a x : str), firstn (length a) (a ++ x) = a.
Proof. induction a as [|c a IH]; intros x; simpl; [reflexivity | f_equal; apply IH]. Qed.

Lemma skipn_exact : forall (a x : str), skipn (length a) (a ++ x) = x.
Proof. induction a as [|c a IH]; intros x; simpl; [reflexivity | apply IH]. Qed.

(** A match of the scan at [p] is an occurrence at [p]. *)
Lemma occurs_iff : forall hay needle p,
  needle <> [] ->
  isPrefix needle (skipn p hay) = true <-> OccursAt hay needle p.
Proof.
  intros hay needle p Hne. rewrite isPrefix_iff. unfold OccursAt. split.
  - intros H.
    assert (Hp : p < length hay).
    { destruct (Nat.le_gt_cases (length hay) p) as [Hle|]; [|assumption].
      rewrite skipn_all2 in H by assumption. rewrite firstn_nil in H.
      congruence. }
    exists (firstn p hay), (skipn (length needle) (skipn p hay)). split.
    + set (n := length needle) in *. rewrite <- H.
      rewrite firstn_skipn. symmetry. apply firstn_skipn.
    + rewrite length_firstn. lia.
  - intros [pre [post [-> <-]]]. rewrite skipn_exact. apply firstn_exact.
Qed.

(** Lower-casing makes no string empty. *)
Lemma toLowerCase_nonempty : forall c, c <> [] -> toLowerCase c <> [].
Proof.
  intros [|u s] H; [congruence|]. unfold toLowerCase.
  assert (Hc : exists c cps, codePoints (u :: s) = c :: cps).
  { cbn [codePoints]. destruct s as [|v s']; [eauto|].
    destruct (_ && _); eauto. }
  destruct Hc as [c [cps ->]]. cbn [lowerPoints].
  assert (Hu : forall x rest, flat_map utf16 (x :: rest) <> []).
  { intros x rest E. cbn [flat_map] in E. apply app_eq_nil in E.
    destruct E as [E _]. unfold utf16 in E.
    destruct (in_range _ _ x); discriminate. }
  destruct (N.eqb c _); [apply Hu|]. destruct (N.eqb c _); apply Hu.
Qed.

(** ** The stable sort *)

Section SortFacts.
Context {A : Type}.
Variable cmp : A -> A -> Z.

Lemma insert_perm : forall x l, Permutation (Js.insert cmp x l) (x :: l).
Proof.
  intros x. induction l as [|y l IH]; simpl; [auto|].
  destruct (cmp x y <=? 0)%Z; [auto|].
  eapply perm_trans; [apply perm_skip, IH | apply perm_swap].
Qed.

Lemma sort_perm : forall l, Permutation (Js.sort cmp l) l.
Proof.
  induction l as [|x l IH]; simpl; [auto|].
  eapply perm_trans; [apply insert_perm | apply perm_skip, IH].
Qed.

(** A comparator that orders by a key, larger keys first. *)
Variable key : A -> nat.
Hypothesis cmp_key : forall a b, (cmp a b <= 0)%Z <-> key b <= key a.

Let after (a b : A) : Prop := key b <= key a.


End SortFacts.


(** ** The matching loop *)

Lemma FOP_snoc : forall (A : Type) (R : A -> A -> Prop) l x,
  ForallOrdPairs R l -> Forall (fun a => R a x) l ->
  ForallOrdPairs R (l ++ [x]).
Proof.
  intros A R l x H. induction H as [|a l Ha Hl IH]; intros Hx; simpl.
  - repeat constructor.
  - inversion Hx; subst. constructor; [|apply IH; assumption].
    apply Forall_app. split; [assumption | repeat constructor; assumption].
Qed.

(** One round of the loop.  The claim is looked for, lower-cased, in the
    lower-cased text; it is placed at its first occurrence there whose
    span, as long as the claim itself, is free, or both arrays stay as
    they are. *)
Lemma matchItem_spec : forall lower st it,
  (exists p,
     toLowerCase (claim (item it)) <> [] /\
     FirstFree lower (toLowerCase (claim (item it)))
               (length (claim (item it))) (snd st) p /\
     matchItem lower st it =
       (fst st ++ [placed it p],
        snd st ++ [(p, p + length (claim (item it)))]))
  \/
  ((toLowerCase (claim (item it)) = [] \/
    NoFree lower (toLowerCase (claim (item it)))
           (length (claim (item it))) (snd st)) /\
   matchItem lower st it = st).
Proof.
  intros lower st it. unfold matchItem.
  destruct (toLowerCase (claim (item it))) as [|c0 c'] eqn:Ec;
    [right; auto|].
  set (needle := c0 :: c') in *.
  assert (Hnl : needle <> []) by discriminate.
  destruct (search lower needle (length (claim (item it))) (snd st)
                   0 (S (length lower)))
    as [[p e]|] eqn:Es.
  - left. exists p.
    destruct (search_Some _ _ _ _ _ _ _ _ Hnl Es)
      as [-> [_ [_ [Hocc [Hfree Hfirst]]]]].
    split; [assumption|]. split; [|reflexivity].
    split; [apply occurs_iff; assumption|]. split.
    + rewrite <- overlaps_iff. congruence.
    + intros q Hq Hoq. apply overlaps_iff.
      apply Hfirst; [lia | assumption|].
      apply occurs_iff; assumption.
  - right. split; [|reflexivity]. right.
    intros q Hoq. apply overlaps_iff.
    apply (search_None _ _ _ _ _ _ Hnl) with (q := q) in Es;
      [assumption | lia | lia |].
    apply occurs_iff; assumption.
Qed.

Lemma matchItem_placed : forall lower st it,
  WellPlaced st -> WellPlaced (matchItem lower st it).
Proof.
  intros lower st it [Hu [Hin Hdis]].
  destruct (matchItem_spec lower st it)
    as [[p [Hne [[Hocc [Hfree _]] ->]]] | [_ ->]];
    [|repeat split; assumption].
  unfold WellPlaced. simpl. repeat split.
  - rewrite map_app, Hu. reflexivity.
  - apply Forall_app. split; [assumption|].
    repeat constructor; simpl.
    destruct (claim (item it)); [elim Hne; reflexivity | simpl; lia].
  - apply FOP_snoc; [assumption|].
    apply Forall_forall. intros a Ha. unfold Disjoint. simpl.
    destruct (Nat.le_gt_cases (end_ a) p) as [H1|H1]; [left; assumption|].
    destruct (Nat.le_gt_cases (p + length (claim (item it))) (start a))
      as [H2|H2]; [right; assumption|].
    elim Hfree. exists (span a). split; [|simpl; lia].
    rewrite Hu. apply in_map. assumption.
Qed.

Lemma matchLoop_placed : forall lower items st,
  WellPlaced st -> WellPlaced (fold_left (matchItem lower) items st).
Proof.
  intros lower. induction items as [|it items IH]; intros st H; simpl;
    [assumption|].
  apply IH, matchItem_placed, H.
Qed.

Lemma matchAll_placed : forall text items,
  WellPlaced (matchAll text items).
Proof.
  intros text items. apply matchLoop_placed.
  repeat split; constructor.
Qed.

(** The loop only ever appends. *)
Lemma matchLoop_extends : forall lower items st,
  exists rest,
    fst (fold_left (matchItem lower) items st) = fst st ++ rest.
Proof.
  intros lower. induction items as [|it items IH]; intros st; simpl.
  - exists []. rewrite app_nil_r. reflexivity.
  - destruct (IH (matchItem lower st it)) as [rest ->].
    unfold matchItem.
    destruct (toLowerCase (claim (item it)));
      [exists rest; reflexivity|].
    destruct (search _ _ _ _ _ _) as [[p e]|];
      [|exists rest; reflexivity].
    simpl. rewrite <- app_assoc. eexists. reflexivity.
Qed.

(** ** Which results get a marker *)

Lemma withIndex_In : forall rs k it,
  In it (withIndex rs k) ->
  exists i, originalIdx it = k + i /\ nth_error rs i = Some (item it).
Proof.
  induction rs as [|r rs IH]; intros k it H; simpl in H; [contradiction|].
  destruct H as [<- | H].
  - exists 0. simpl. split; [lia | reflexivity].
  - destruct (IH _ _ H) as [i [Hi Hn]]. exists (S i). simpl.
    split; [lia | assumption].
Qed.

Lemma actionable_In : forall rs it,
  In it (actionable rs) ->
  nth_error rs (originalIdx it) = Some (item it) /\ Actionable (item it).
Proof.
  intros rs it H. apply filter_In in H. destruct H as [Hin Hs].
  destruct (withIndex_In _ _ _ Hin) as [i [Hi Hn]]. simpl in Hi. subst i.
  split; [assumption|].
  unfold includes in Hs. cbn [existsb] in Hs.
  rewrite !orb_true_iff, !str_eqb_eq in Hs. unfold Actionable.
  intuition congruence.
Qed.

Lemma matchLoop_In : forall lower items st r,
  In r (fst (fold_left (matchItem lower) items st)) ->
  In r (fst st) \/
  exists it p, In it items /\ r = placed it p /\
               OccursAt lower (toLowerCase (claim (item it))) p.
Proof.
  intros lower. induction items as [|it items IH]; intros st r H;
    simpl in H; [left; assumption|].
  destruct (IH _ _ H) as [Hst | [it' [p [Hin [E Ho]]]]].
  - destruct (matchItem_spec lower st it)
      as [[p [Hne [[Hocc _] E]]] | [_ E]]; rewrite E in Hst.
    + simpl in Hst. apply in_app_or in Hst. destruct Hst as [Hst | [<- | []]].
      * left. assumption.
      * right. exists it, p. simpl. auto.
    + left. assumption.
  - right. exists it', p. simpl. auto.
Qed.

(** Every replacement stems from an actionable result: its index is the
    result's, its span starts where the lower-cased claim occurs in the
    lower-cased text and is as long as the claim. *)
Lemma replacements_origin : forall text rs r,
  In r (replacements text rs) ->
  exists res,
    nth_error rs (claimIdx r) = Some res /\ Actionable res /\
    OccursAt (toLowerCase text) (toLowerCase (claim res)) (start r) /\
    end_ r = start r + length (claim res) /\
    rstatus r = toLowerCase (status res).
Proof.
  intros text rs r H. unfold replacements, matchAll in H.
  apply matchLoop_In in H. destruct H as [[] | [it [p [Hin [-> Ho]]]]].
  apply (Permutation_in _ (sort_perm byClaimLength (actionable rs))) in Hin.
  apply actionable_In in Hin. destruct Hin as [Hn Ha].
  exists (item it). simpl. auto.
Qed.

(** ** Injecting the markers *)

(** An injection makes the text longer by its two tags, wherever the
    span lies. *)
Lemma inject_length : forall result r,
  start r <= end_ r ->
  length (inject result r)
  = length result + length (openTag (rstatus r) (claimIdx r))
    + length closeTag.
Proof.
  intros result r H. unfold inject, slice, sliceFrom.
  rewrite !length_app, !length_firstn, !length_skipn. cbn [skipn]. lia.
Qed.

Lemma inject_all_length : forall l result,
  Forall (fun r => start r <= end_ r) l ->
  length result + length closeTag * length l
  <= length (fold_left inject l result).
Proof.
  induction l as [|r l IH]; intros result H; simpl; [lia|].
  inversion H as [|? ? Hr Hl]; subst.
  specialize (IH (inject result r) Hl).
  rewrite inject_length in IH by assumption.
  change (length closeTag) with 7 in *. lia.
Qed.

(** The four exits of the function are one: without replacements the
    injection loop has nothing to do. *)
Lemma annotate_fold : forall text rs,
  annotateChairmanText text (Some rs)
  = fold_left inject (Js.sort byStartDesc (replacements text rs)) text.
Proof.
  intros text rs. unfold annotateChairmanText.
  destruct rs as [|r0 rs']; [reflexivity|].
  set (rs := r0 :: rs').
  destruct (length (actionable rs) =? 0) eqn:Ea.
  - apply Nat.eqb_eq in Ea.
    assert (Hnil : actionable rs = [])
      by (destruct (actionable rs); [reflexivity | discriminate]).
    unfold replacements, matchingOrder. rewrite Hnil. reflexivity.
  - destruct (length (replacements text rs) =? 0) eqn:Er; [|reflexivity].
    apply Nat.eqb_eq in Er.
    destruct (replacements text rs); [reflexivity | discriminate].
Qed.

(** The text comes back unchanged exactly when nothing was placed. *)
Lemma annotate_unchanged : forall text rs,
  annotateChairmanText text (Some rs) = text <-> replacements text rs = [].
Proof.
  intros text rs. rewrite annotate_fold. split.
  - intros E.
    destruct (matchAll_placed text (matchingOrder rs)) as [_ [Hpos _]].
    fold (replacements text rs) in Hpos.
    assert (Hs : Forall (fun r => start r <= end_ r)
                        (Js.sort byStartDesc (replacements text rs))).
    { eapply Permutation_Forall; [apply Permutation_sym, sort_perm|].
      eapply Forall_impl; [|exact Hpos]. simpl. intros a Ha. lia. }
    pose proof (inject_all_length _ text Hs) as Hg. rewrite E in Hg.
    rewrite (Permutation_length (sort_perm byStartDesc _)) in Hg.
    change (length closeTag) with 7 in Hg.
    destruct (replacements text rs); [reflexivity | simpl in Hg; lia].
  - intros ->. reflexivity.
Qed.

(** C3.  The claim fails on a text that holds U+0130.  The offsets are
    found in the lower-cased text, in which U+0130 takes two code units,
    and are then applied to the text itself.  In the fifteen code units
    of [istanbul] the claim [big] stands at 12; lower-cased, the text
    has sixteen code units and the claim is found at 13; the span chosen
    is [13, 16), which ends past the text and holds [ig]. *)
Theorem annotate_span_leaves_the_text :
  length istanbul = 15 /\
  slice istanbul 12 15 = lit "big" /\
  toLowerCase istanbul = [0x69%N; 0x307%N] ++ lit "stanbul is big" /\
  replacements istanbul [result VERIFIED "big"]
  = [mkReplacement 13 16 0 (lit "verified")] /\
  slice istanbul 13 16 = lit "ig".
Proof. repeat split; vm_compute; reflexivity. Qed.

(** C6.  The claim fails on a text that holds U+0130, for the same
    reason.  In the four code units of [dotted_ab] the claims [a] and
    [b] stand at 2 and 3; their spans are [4, 5) and [5, 6), both past
    the text.  The marker of [b] is injected first and wraps nothing;
    the marker of [a] then wraps the first character of that tag.  What
    comes back is the text, followed by a marker around the character
    [<] and the wreck of a tag: no marker holds a stretch of the text,
    and removing the tags does not give the text back. *)
Theorem annotate_marker_cuts_a_tag :
  length dotted_ab = 4 /\
  replacements dotted_ab [result VERIFIED "a"; result CONTESTED "b"]
  = [mkReplacement 4 5 0 (lit "verified");
     mkReplacement 5 6 1 (lit "contested")] /\
  annotateChairmanText dotted_ab
    (Some [result VERIFIED "a"; result CONTESTED "b"])
  = dotted_ab
    ++ openTag (lit "verified") 0 ++ lit "<" ++ closeTag
    ++ skipn 1 (openTag (lit "contested") 1) ++ closeTag.
Proof. repeat split; vm_compute; reflexivity. Qed.

(** ** The Phase 0 review flow *)

Lemma phase0_status_after : forall s e s',
  App.handle s e = Some s' ->
  App.phase0State s' = App.phase0State s \/
  App.phase0State s' = App.PHASE0_IDLE \/
  App.status (App.phase0State s') = App.scrubbing \/
  exists result, e = App.ScrubResolved result /\
                 App.phase0State s' = App.review result.
Proof.
  intros s e s' H.
  destruct e as [id | ms | | | content | res | | | |]; simpl in H;
    try (inversion H; subst; left; reflexivity).
  - inversion H; subst. unfold App.handleSendMessage.
    destruct (App.currentConversationId s); [|left; reflexivity].
    right. right. left. reflexivity.
  - destruct (App.scrubsInFlight s =? 0); inversion H; subst.
    right. right. right. exists res. split; reflexivity.
  - destruct (App.scrubsInFlight s =? 0); inversion H; subst.
    right. left. reflexivity.
  - inversion H; subst. right. left. reflexivity.
  - inversion H; subst. right. left. reflexivity.
  - inversion H; subst. right. left. reflexivity.
Qed.

(** In every reachable state the status is one of the three, and a
    pending review holds a scrub result. *)
Lemma phase0_invariant : forall s,
  App.reachable s ->
  (App.phase0State s = App.PHASE0_IDLE \/
   App.phase0State s = App.mkPhase0 App.scrubbing [] [] [] \/
   exists result, App.phase0State s = App.review result).
Proof.
  induction 1 as [|s e s' Hr IH Hstep]; [left; reflexivity|].
  destruct e as [id | ms | | | content | res | | | |]; simpl in Hstep;
    try (inversion Hstep; subst; exact IH).
  - inversion Hstep; subst. unfold App.handleSendMessage.
    destruct (App.currentConversationId s); [|exact IH].
    right. left. reflexivity.
  - destruct (App.scrubsInFlight s =? 0); inversion Hstep; subst.
    right. right. exists res. reflexivity.
  - destruct (App.scrubsInFlight s =? 0); inversion Hstep; subst.
    left. reflexivity.
  - inversion Hstep; subst. left. reflexivity.
  - inversion Hstep; subst. left. reflexivity.
  - inversion Hstep; subst. left. reflexivity.
Qed.

(** C8. The Phase 0 flow has three states.  In every reachable state the
    status is ['idle'], ['scrubbing'] or ['pending'], and a pending
    state holds the result of a scrub.  Sending a message to the current
    conversation moves idle to scrubbing; the scrub resolving moves
    scrubbing to pending, with the result on the card; the scrub failing
    moves scrubbing to idle; Use Original, Use Scrubbed and Cancel move
    pending to idle.  No step enters pending except the scrub
    resolving. *)
Theorem phase0_review_flow :
  forall s : App.State,
    App.reachable s ->
    let st := App.status (App.phase0State s) in
    (st = App.idle \/ st = App.scrubbing \/ st = App.pending) /\
    (st = App.pending ->
     exists result, App.phase0State s = App.review result) /\
    (forall id content,
       App.currentConversationId s = Some id -> st = App.idle ->
       App.status (App.phase0State (App.handleSendMessage s content))
       = App.scrubbing) /\
    (forall result,
       st = App.scrubbing ->
       App.phase0State (App.scrubResolved s result) = App.review result) /\
    (st = App.scrubbing ->
     App.phase0State (App.scrubRejected s) = App.PHASE0_IDLE) /\
    (st = App.pending ->
     App.phase0State (App.handlePhase0UseOriginal s) = App.PHASE0_IDLE /\
     App.phase0State (App.handlePhase0UseScrubbed s) = App.PHASE0_IDLE /\
     App.phase0State (App.handlePhase0Decline s) = App.PHASE0_IDLE) /\
    (forall e s',
       App.handle s e = Some s' ->
       st <> App.pending ->
       App.status (App.phase0State s') = App.pending ->
       exists result,
         e = App.ScrubResolved result /\
         App.phase0State s' = App.review result).
Proof.
  intros s Hr st.
  pose proof (phase0_invariant s Hr) as Hinv.
  split; [|split; [|split; [|split; [|split; [|split]]]]].
  - subst st. destruct Hinv as [-> | [-> | [result ->]]]; simpl; auto.
  - subst st. intros Hp.
    destruct Hinv as [E | [E | [result E]]]; rewrite E in Hp;
      try discriminate Hp.
    exists result. assumption.
  - intros id content Hid _. unfold App.handleSendMessage.
    rewrite Hid. reflexivity.
  - intros result _. reflexivity.
  - intros _. reflexivity.
  - intros _. repeat split.
  - intros e s' Hstep Hnot Hpend.
    destruct (phase0_status_after s e s' Hstep)
      as [E | [E | [E | [result [-> E]]]]].
    + rewrite E in Hpend. contradiction.
    + rewrite E in Hpend. discriminate Hpend.
    + rewrite E in Hpend. discriminate Hpend.
    + exists result. auto.
Qed.

(** A conversation is selected and a message sent: the flow is
    scrubbing, and from there the scrub resolving opens the review. *)
Lemma phase0_review_flow_witness :
  App.status (App.phase0State awaiting_scrub) = App.scrubbing /\
  App.phase0State (App.scrubResolved awaiting_scrub softened)
  = App.review softened.
Proof.
  assert (Hr : App.reachable awaiting_scrub).
  { eapply App.reach_step with (e := App.SendMessage (lit "hello")).
    - eapply App.reach_step with (e := App.SelectConversation (lit "c1")).
      + apply App.reach_initial.
      + reflexivity.
    - reflexivity. }
  split; [reflexivity|].
  apply (phase0_review_flow awaiting_scrub Hr). reflexivity.
Defined.

(** ** The heap is only ever extended *)

Import Heap.

Section KeepsRules.
Variable n : nat.

Lemma Keeps_ret : forall (A : Type) (a : A) (Q : A -> Prop),
  Q a -> Keeps n (ret a) Q.
Proof.
  intros A a Q HQ h a' h' Hn E. inversion E; subst. auto.
Qed.

Lemma Keeps_throw : forall (A : Type) (Q : A -> Prop),
  Keeps n (@throw A) Q.
Proof. intros A Q h a h' _ E. discriminate E. Qed.

Lemma Keeps_bind : forall (A B : Type) (m : M A) (k : A -> M B)
                          (Q : A -> Prop) (R : B -> Prop),
  Keeps n m Q -> (forall a, Q a -> Keeps n (k a) R) ->
  Keeps n (bind m k) R.
Proof.
  intros A B m k Q R Hm Hk h b h' Hn E. unfold bind in E.
  destruct (m h) as [[a h1]|] eqn:Em; [|discriminate].
  destruct (Hm _ _ _ Hn Em) as [Hn1 [Hf1 HQ]].
  destruct (Hk a HQ _ _ _ Hn1 E) as [Hn2 [Hf2 HR]].
  repeat split; auto. congruence.
Qed.

Lemma Keeps_weaken : forall (A : Type) (m : M A) (Q R : A -> Prop),
  Keeps n m Q -> (forall a, Q a -> R a) -> Keeps n m R.
Proof.
  intros A m Q R Hm HQR h a h' Hn E.
  destruct (Hm _ _ _ Hn E) as [H1 [H2 H3]]. auto.
Qed.

Lemma Keeps_alloc : forall c, Keeps n (alloc c) (Fresh n).
Proof.
  intros c h l h' Hn E. unfold alloc in E. inversion E; subst.
  rewrite length_app, firstn_app. simpl.
  replace (n - length h) with 0 by lia.
  rewrite firstn_O, app_nil_r. unfold Fresh. repeat split; auto; lia.
Qed.

Lemma Keeps_get : forall l, Keeps n (get l) Any.
Proof.
  intros l h c h' Hn E. unfold get in E.
  destruct (nth_error h l); inversion E; subst. unfold Any. auto.
Qed.

Lemma update_length : forall h l c, length (update h l c) = length h.
Proof.
  induction h as [|x h IH]; intros [|l] c; simpl; auto.
Qed.

Lemma update_firstn : forall k h l c,
  k <= l -> firstn k (update h l c) = firstn k h.
Proof.
  induction k as [|k IH]; intros h l c Hk; [reflexivity|].
  destruct h as [|x h]; [reflexivity|].
  destruct l as [|l]; [lia|]. simpl. f_equal. apply IH. lia.
Qed.

(** Overwriting is harmless on a cell allocated after the first [n]. *)
Lemma Keeps_put : forall l c, Fresh n l -> Keeps n (put l c) Any.
Proof.
  intros l c Hl h u h' Hn E. unfold put in E.
  destruct (l <? length h); inversion E; subst.
  rewrite update_length, update_firstn by exact Hl.
  unfold Any. auto.
Qed.

Lemma Keeps_mapM : forall (A B : Type) (f : A -> M B) (Q : B -> Prop) l,
  (forall x, Keeps n (f x) Q) -> Keeps n (mapM f l) (Forall Q).
Proof.
  intros A B f Q l Hf. induction l as [|x l IH]; simpl.
  - apply Keeps_ret. constructor.
  - eapply Keeps_bind; [apply Hf|]. intros y Hy.
    eapply Keeps_bind; [apply IH|]. intros ys Hys.
    apply Keeps_ret. constructor; assumption.
Qed.

Lemma Keeps_forEach : forall (A : Type) (f : A -> M unit) l,
  (forall x, Keeps n (f x) Any) -> Keeps n (forEach f l) Any.
Proof.
  intros A f l Hf. induction l as [|x l IH]; simpl.
  - apply Keeps_ret. exact I.
  - eapply Keeps_bind; [apply Hf|]. intros _ _. apply IH.
Qed.

Ltac getter :=
  intros; eapply Keeps_bind; [apply Keeps_get|];
  intros [] _; first [apply Keeps_ret; exact I | apply Keeps_throw].

Lemma Keeps_getResult : forall l, Keeps n (getResult l) Any.
Proof. getter. Qed.
Lemma Keeps_getResponse : forall l, Keeps n (getResponse l) Any.
Proof. getter. Qed.
Lemma Keeps_getItem : forall l, Keeps n (getItem l) Any.
Proof. getter. Qed.
Lemma Keeps_getRepl : forall l, Keeps n (getRepl l) Any.
Proof. getter. Qed.
Lemma Keeps_getPair : forall l, Keeps n (getPair l) Any.
Proof. getter. Qed.
Lemma Keeps_getObjects : forall l, Keeps n (getObjects l) Any.
Proof. getter. Qed.
Lemma Keeps_getStrings : forall l, Keeps n (getStrings l) Any.
Proof. getter. Qed.
Lemma Keeps_getNumbers : forall l, Keeps n (getNumbers l) Any.
Proof. getter. Qed.

Lemma Keeps_push : forall arr x, Fresh n arr -> Keeps n (push arr x) Any.
Proof.
  intros arr x Ha. eapply Keeps_bind; [apply Keeps_getObjects|].
  intros es _. apply Keeps_put. assumption.
Qed.
End KeepsRules.

Create HintDb keeps.

#[local] Hint Resolve Keeps_ret Keeps_throw Keeps_alloc Keeps_get Keeps_put
  Keeps_getResult Keeps_getResponse Keeps_getItem Keeps_getRepl
  Keeps_getPair Keeps_getObjects Keeps_getStrings Keeps_getNumbers
  Keeps_push Keeps_mapM Keeps_forEach : keeps.

(** One step through a computation: a bind, a branch or a return. *)
Ltac keeps_step :=
  match goal with
  | |- Keeps _ (ret _) _ => apply Keeps_ret; exact I
  | |- Keeps _ throw _ => apply Keeps_throw
  | |- Keeps _ (bind (alloc _) _) _ =>
      eapply Keeps_bind; [apply Keeps_alloc | intros ? ?]
  | |- Keeps _ (bind _ _) _ =>
      eapply Keeps_bind; [solve [eauto with keeps] | intros ? ?]
  | |- Keeps _ (if ?b then _ else _) _ => destruct b
  | |- Keeps _ (match ?x with _ => _ end) _ => destruct x
  end.

Lemma Keeps_externalEvidenceM : forall n stage25,
  Keeps n (externalEvidenceM stage25) Any.
Proof.
  intros n stage25. unfold externalEvidenceM. repeat keeps_step.
Qed.

Lemma Keeps_claimsOfM : forall n r, Keeps n (claimsOfM r) Any.
Proof.
  intros n r. unfold claimsOfM.
  destruct (snd r).
  - eapply Keeps_bind; [apply Keeps_getStrings|]. intros cs _.
    eapply Keeps_weaken; [apply Keeps_alloc | intros; exact I].
  - eapply Keeps_weaken; [apply Keeps_alloc | intros; exact I].
Qed.

Lemma Keeps_sharedByTwoM : forall n ls lists c,
  Keeps n (sharedByTwoM ls lists c) Any.
Proof.
  intros n ls lists c. unfold sharedByTwoM. repeat keeps_step.
Qed.

#[local] Hint Resolve Keeps_claimsOfM Keeps_sharedByTwoM : keeps.

Lemma Keeps_factualConsensusM : forall n stage1,
  Keeps n (factualConsensusM stage1) Any.
Proof.
  intros n stage1. unfold factualConsensusM. repeat keeps_step.
Qed.

Lemma Keeps_calcVerdictM : forall n stage25 stage1,
  Keeps n (calcVerdictM stage25 stage1) Any.
Proof.
  intros n stage25 stage1. unfold calcVerdictM.
  eapply Keeps_bind; [apply Keeps_externalEvidenceM|].
  intros [v|] _; [apply Keeps_ret; exact I | apply Keeps_factualConsensusM].
Qed.

Lemma Keeps_copyWithIndex : forall n x, Keeps n (copyWithIndex x) Any.
Proof.
  intros n x. unfold copyWithIndex.
  eapply Keeps_bind; [apply Keeps_getResult|]. intros r _.
  eapply Keeps_weaken; [apply Keeps_alloc | intros; exact I].
Qed.

(** A round of the matching loop writes to the two arrays the function
    created, and to nothing else. *)
Lemma Keeps_matchItemM : forall n lower replacements used l,
  Fresh n replacements -> Fresh n used ->
  Keeps n (matchItemM lower replacements used l) Any.
Proof.
  intros n lower replacements used l Hr Hu. unfold matchItemM.
  eapply Keeps_bind; [apply Keeps_getItem|]. intros it _.
  destruct (toLowerCase (claim (item it))) as [|c cs];
    [apply Keeps_ret; exact I|].
  eapply Keeps_bind; [apply Keeps_getObjects|]. intros us _.
  eapply Keeps_bind; [apply Keeps_mapM, Keeps_getPair|]. intros spans _.
  destruct (search _ _ _ _ _ _) as [[found e]|]; [|apply Keeps_ret; exact I].
  eapply Keeps_bind; [apply Keeps_alloc|]. intros r _.
  eapply Keeps_bind; [apply Keeps_push; assumption|]. intros _ _.
  eapply Keeps_bind; [apply Keeps_alloc|]. intros p _.
  apply Keeps_push; assumption.
Qed.

#[local] Hint Resolve Keeps_copyWithIndex Keeps_matchItemM : keeps.

Lemma Keeps_annotateChairmanTextM : forall n text stage25,
  Keeps n (annotateChairmanTextM text stage25) Any.
Proof.
  intros n text stage25. unfold annotateChairmanTextM.
  repeat keeps_step.
Qed.

Lemma Keeps_extends : forall (A : Type) (m : M A) (Q : A -> Prop) h a h',
  Keeps (length h) m Q -> m h = Some (a, h') ->
  exists fresh, h' = h ++ fresh.
Proof.
  intros A m Q h a h' Hk E.
  destruct (Hk h a h' (le_n _) E) as [_ [Hf _]].
  rewrite firstn_all in Hf.
  exists (skipn (length h) h'). rewrite <- Hf at 1.
  symmetry. apply firstn_skipn.
Qed.



(** ** The heap versions compute what the pure versions compute *)

Lemma bind_run : forall (A B : Type) (m : M A) (k : A -> M B) h a h1,
  m h = Some (a, h1) -> bind m k h = k a h1.
Proof. intros A B m k h a h1 E. unfold bind. rewrite E. reflexivity. Qed.

Lemma Stable_refl : forall h, Stable h h.
Proof. intros h l c H. exact H. Qed.

Lemma Stable_trans : forall h1 h2 h3,
  Stable h1 h2 -> Stable h2 h3 -> Stable h1 h3.
Proof. intros h1 h2 h3 H12 H23 l c H. auto. Qed.

Lemma Stable_app : forall h ext, Stable h (h ++ ext).
Proof.
  intros h ext l c H. rewrite nth_error_app1; [assumption|].
  apply nth_error_Some. congruence.
Qed.

Lemma nth_error_snoc : forall (h : heap) c,
  nth_error (h ++ [c]) (length h) = Some c.
Proof.
  intros h c. rewrite nth_error_app2 by lia.
  rewrite Nat.sub_diag. reflexivity.
Qed.

Lemma run_getObjects : forall h l es,
  nth_error h l = Some (Objects es) -> getObjects l h = Some (es, h).
Proof. intros h l es E. unfold getObjects, bind, get. rewrite E. reflexivity. Qed.

Lemma run_getStrings : forall h l es,
  nth_error h l = Some (Strings es) -> getStrings l h = Some (es, h).
Proof. intros h l es E. unfold getStrings, bind, get. rewrite E. reflexivity. Qed.

Lemma run_getNumbers : forall h l es,
  nth_error h l = Some (Numbers es) -> getNumbers l h = Some (es, h).
Proof. intros h l es E. unfold getNumbers, bind, get. rewrite E. reflexivity. Qed.

Lemma run_getResult : forall h l r,
  AtResult h l r -> getResult l h = Some (r, h).
Proof. intros h l r E. unfold getResult, bind, get. rewrite E. reflexivity. Qed.

Lemma run_getItem : forall h l it,
  nth_error h l = Some (ItemObj it) -> getItem l h = Some (it, h).
Proof. intros h l it E. unfold getItem, bind, get. rewrite E. reflexivity. Qed.

Lemma run_getRepl : forall h l r,
  nth_error h l = Some (ReplObj r) -> getRepl l h = Some (r, h).
Proof. intros h l r E. unfold getRepl, bind, get. rewrite E. reflexivity. Qed.

Lemma run_getPair : forall h l p,
  nth_error h l = Some (PairObj (fst p) (snd p)) -> getPair l h = Some (p, h).
Proof.
  intros h l [s e] E. unfold getPair, bind, get. rewrite E. reflexivity.
Qed.

(** Reading every object of an array. *)
Lemma run_mapM_read : forall (A : Type) (f : loc -> M A)
    (P : loc -> A -> Prop) h,
  (forall l x, P l x -> f l h = Some (x, h)) ->
  forall ls xs, Forall2 P ls xs -> mapM f ls h = Some (xs, h).
Proof.
  intros A f P h Hf ls xs H. induction H as [|l x ls xs Hx _ IH]; simpl.
  - reflexivity.
  - rewrite (bind_run _ _ _ _ _ _ _ (Hf l x Hx)).
    rewrite (bind_run _ _ _ _ _ _ _ IH). reflexivity.
Qed.

Lemma Forall2_impl : forall (A B : Type) (P Q : A -> B -> Prop) l l',
  (forall a b, P a b -> Q a b) -> Forall2 P l l' -> Forall2 Q l l'.
Proof. intros A B P Q l l' H. induction 1; constructor; auto. Qed.

Lemma Forall2_select : forall (A : Type) (P : loc -> A -> Prop)
    (p : A -> bool) ls xs,
  Forall2 P ls xs -> Forall2 P (select p ls xs) (filter p xs).
Proof.
  intros A P p ls xs H. unfold select.
  induction H as [|l x ls xs Hx _ IH]; simpl; [constructor|].
  destruct (p x); simpl; [constructor; assumption | assumption].
Qed.

Lemma select_length : forall (A : Type) (p : A -> bool) ls xs,
  length ls = length xs -> length (select p ls xs) = length (filter p xs).
Proof.
  intros A p ls. unfold select.
  induction ls as [|l ls IH]; intros [|x xs] H; simpl in *;
    try discriminate; [reflexivity|].
  destruct (p x); simpl; [f_equal|]; apply IH; lia.
Qed.

Lemma externalEvidence_cons : forall r rs,
  externalEvidence (Some (r :: rs)) =
  if existsb isContradicted (r :: rs) then Some Disputed
  else if (0 <? length (filter isActionable (r :: rs)))
          && forallb isVerified (filter isActionable (r :: rs))
       then Some Verified else None.
Proof. reflexivity. Qed.

(** Step 1 on the heap. *)
Lemma externalEvidenceM_run : forall h a stage25,
  ArrayAt AtResult h a stage25 ->
  exists h',
    externalEvidenceM a h = Some (externalEvidence stage25, h') /\
    Stable h h'.
Proof.
  intros h [a|] [rs|] H; simpl in H; try contradiction.
  2:{ exists h. split; [reflexivity | apply Stable_refl]. }
  destruct H as [elems [Ha Hall]].
  unfold externalEvidenceM.
  rewrite (bind_run _ _ _ _ _ _ _ (run_getObjects _ _ _ Ha)).
  pose proof (Forall2_length Hall) as Hlen.
  destruct rs as [|r rs'].
  { destruct elems; [|discriminate Hlen].
    exists h. split; [reflexivity | apply Stable_refl]. }
  destruct elems as [|e elems']; [discriminate Hlen|].
  rewrite externalEvidence_cons.
  set (rs := r :: rs') in *. set (elems := e :: elems') in *.
  change (length elems =? 0) with false. cbv iota.
  rewrite (bind_run _ _ _ _ _ _ _
             (run_mapM_read _ _ _ h (run_getResult h) _ _ Hall)).
  destruct (existsb isContradicted rs).
  { exists h. split; [reflexivity | apply Stable_refl]. }
  rewrite (bind_run _ _ _ _ _ (length h)
             (h ++ [Objects (select isActionable elems rs)]) eq_refl).
  rewrite (bind_run _ _ _ _ _ _ _
             (run_getObjects _ _ _ (nth_error_snoc h _))).
  assert (Hsel : Forall2 (AtResult (h ++ [Objects (select isActionable elems rs)]))
                         (select isActionable elems rs)
                         (filter isActionable rs)).
  { apply Forall2_select.
    eapply Forall2_impl; [|exact Hall].
    intros l x Hx. apply (Stable_app h _ l _ Hx). }
  rewrite (bind_run _ _ _ _ _ _ _
             (run_mapM_read _ _ _ _ (run_getResult _) _ _ Hsel)).
  rewrite (select_length _ _ _ _ Hlen).
  exists (h ++ [Objects (select isActionable elems rs)]).
  split; [|apply Stable_app].
  destruct (_ && _); reflexivity.
Qed.

Lemma run_getResponses : forall h elems resps,
  Forall2 (AtResponse h) elems resps ->
  exists rs,
    mapM getResponse elems h = Some (rs, h) /\
    map fst rs = map confidence resps /\
    Forall2 (fun x r => ClaimsAt h (snd x) (factual_claims r)) rs resps.
Proof.
  intros h elems resps H.
  induction H as [|l r elems resps [fc [Hl Hc]] _ [rs [E [Hm Hf]]]].
  - exists []. repeat split; constructor.
  - exists ((confidence r, fc) :: rs). simpl. repeat split.
    + assert (Eg : getResponse l h = Some ((confidence r, fc), h))
        by (unfold getResponse, bind, get; rewrite Hl; reflexivity).
      rewrite (bind_run _ _ _ _ _ _ _ Eg), (bind_run _ _ _ _ _ _ _ E).
      reflexivity.
    + f_equal. assumption.
    + constructor; assumption.
Qed.

Lemma nonNull_filter : forall l, nonNull (filter isNotNull l) = nonNull l.
Proof.
  induction l as [|[v|] l IH]; simpl; [reflexivity | f_equal; exact IH | exact IH].
Qed.

Lemma nonNull_length : forall l,
  length (filter isNotNull l) = length (nonNull l).
Proof.
  induction l as [|[v|] l IH]; simpl; [reflexivity | f_equal; exact IH | exact IH].
Qed.

Lemma ClaimsAt_stable : forall h h' fc cs,
  Stable h h' -> ClaimsAt h fc cs -> ClaimsAt h' fc cs.
Proof.
  intros h h' [f|] [cs|] Hs H; simpl in *; auto.
Qed.

(** The per-model claim arrays are allocated one after the other. *)
Lemma run_claimsOfM : forall rs (resps : list ModelResponse) h,
  Forall2 (fun x r => ClaimsAt h (snd x) (factual_claims r)) rs resps ->
  mapM claimsOfM rs h =
    Some (seq (length h) (length resps),
          h ++ map Strings (allClaims resps)).
Proof.
  induction rs as [|x rs IH]; intros resps h H;
    inversion H as [|? r ? resps' Hx Hr]; subst; simpl.
  - rewrite app_nil_r. reflexivity.
  - assert (E : claimsOfM x h =
                Some (length h,
                      h ++ [Strings (match factual_claims r with
                                     | Some cs => map normalize cs
                                     | None => []
                                     end)])).
    { unfold claimsOfM. destruct (snd x) as [f|], (factual_claims r) as [cs|];
        simpl in Hx; try contradiction; [|reflexivity].
      rewrite (bind_run _ _ _ _ _ _ _ (run_getStrings _ _ _ Hx)).
      reflexivity. }
    rewrite (bind_run _ _ _ _ _ _ _ E).
    match type of E with _ = Some (_, ?h1) =>
      assert (Hr' : Forall2 (fun x r => ClaimsAt h1 (snd x) (factual_claims r))
                            rs resps')
    end.
    { eapply Forall2_impl; [|exact Hr].
      intros a b. apply ClaimsAt_stable, Stable_app. }
    rewrite (bind_run _ _ _ _ _ _ _ (IH resps' _ Hr')).
    rewrite length_app, <- app_assoc. simpl.
    replace (length h + 1) with (S (length h)) by lia. reflexivity.
Qed.

Lemma Forall2_seq_app : forall (A : Type) (f : A -> cell) (h : heap) xs ext,
  Forall2 (fun l x => nth_error (h ++ map f xs ++ ext) l = Some (f x))
          (seq (length h) (length xs)) xs.
Proof.
  intros A f h xs. revert h.
  induction xs as [|x xs IH]; intros h ext; simpl; [constructor|].
  constructor.
  - rewrite nth_error_app2 by lia. rewrite Nat.sub_diag. reflexivity.
  - specialize (IH (h ++ [f x]) ext).
    rewrite length_app in IH. simpl in IH.
    replace (length h + 1) with (S (length h)) in IH by lia.
    rewrite <- app_assoc in IH. exact IH.
Qed.

Lemma run_sharedByTwoM : forall ls lists un h,
  length ls = length lists ->
  exists h',
    mapM (sharedByTwoM ls lists) un h =
      Some (map (sharedByTwo lists) un, h') /\ Stable h h'.
Proof.
  intros ls lists un h Hlen. revert h.
  induction un as [|c un IH]; intros h; simpl.
  - exists h. split; [reflexivity | apply Stable_refl].
  - set (cellc := Objects (select (fun l : list str => includes l c) ls lists)).
    assert (E : sharedByTwoM ls lists c h =
                Some (sharedByTwo lists c, h ++ [cellc])).
    { unfold sharedByTwoM.
      rewrite (bind_run _ _ _ _ _ (length h) (h ++ [cellc]) eq_refl).
      unfold cellc.
      rewrite (bind_run _ _ _ _ _ _ _
                 (run_getObjects _ _ _ (nth_error_snoc h _))).
      unfold ret, sharedByTwo. rewrite select_length by assumption.
      reflexivity. }
    rewrite (bind_run _ _ _ _ _ _ _ E).
    destruct (IH (h ++ [cellc])) as [h' [E' Hs]].
    rewrite (bind_run _ _ _ _ _ _ _ E').
    exists h'. split; [reflexivity|].
    eapply Stable_trans; [apply Stable_app | exact Hs].
Qed.

Lemma filter_by_flags : forall (A : Type) (f : A -> bool) l,
  map fst (filter snd (combine l (map f l))) = filter f l.
Proof.
  intros A f. induction l as [|x l IH]; simpl; [reflexivity|].
  destruct (f x); simpl; [f_equal|]; exact IH.
Qed.

(** Step 2 on the heap. *)
Lemma factualConsensusM_run : forall h a stage1,
  ArrayAt AtResponse h a stage1 ->
  exists h', factualConsensusM a h = Some (factualConsensus stage1, h').
Proof.
  intros h [a|] [resps|] H; simpl in H; try contradiction.
  2:{ exists h. reflexivity. }
  destruct H as [elems [Ha Hall]].
  unfold factualConsensusM.
  rewrite (bind_run _ _ _ _ _ _ _ (run_getObjects _ _ _ Ha)).
  pose proof (Forall2_length Hall) as Hlen.
  destruct resps as [|r resps'].
  { destruct elems; [|discriminate Hlen]. exists h. reflexivity. }
  destruct elems as [|e elems']; [discriminate Hlen|].
  rewrite (factualConsensus_cases (r :: resps')) by discriminate.
  set (resps := r :: resps') in *. set (elems := e :: elems') in *.
  change (length elems =? 0) with false. cbv iota.
  destruct (run_getResponses h elems resps Hall) as [rs [E [Hm Hf]]].
  rewrite (bind_run _ _ _ _ _ _ _ E).
  rewrite (bind_run _ _ _ _ _ (length h) (h ++ [Numbers (map fst rs)]) eq_refl).
  rewrite (bind_run _ _ _ _ _ _ _
             (run_getNumbers _ _ _ (nth_error_snoc h _))).
  set (h1 := h ++ [Numbers (map fst rs)]).
  rewrite (bind_run _ _ _ _ _ (length h1)
             (h1 ++ [Numbers (filter isNotNull (map fst rs))]) eq_refl).
  rewrite (bind_run _ _ _ _ _ _ _
             (run_getNumbers _ _ _ (nth_error_snoc h1 _))).
  set (h2 := h1 ++ [Numbers (filter isNotNull (map fst rs))]).
  assert (Havg :
    (if 0 <? length (filter isNotNull (map fst rs))
     then Some (Js.sum (nonNull (filter isNotNull (map fst rs)))
                # Pos.of_nat (length (filter isNotNull (map fst rs))))
     else None) = avgConf resps).
  { unfold avgConf, confidences.
    rewrite Hm, nonNull_filter, nonNull_length. reflexivity. }
  cbv zeta. rewrite Havg.
  destruct (avgBelow (avgConf resps) 50); [exists h2; reflexivity|].
  assert (Hf2 : Forall2 (fun x r => ClaimsAt h2 (snd x) (factual_claims r))
                        rs resps).
  { eapply Forall2_impl; [|exact Hf]. intros x y.
    apply ClaimsAt_stable.
    eapply Stable_trans; apply Stable_app. }
  rewrite (bind_run _ _ _ _ _ _ _ (run_claimsOfM rs resps h2 Hf2)).
  set (ls := seq (length h2) (length resps)).
  set (h3 := h2 ++ map Strings (allClaims resps)).
  rewrite (bind_run _ _ _ _ _ (length h3) (h3 ++ [Objects ls]) eq_refl).
  set (h4 := h3 ++ [Objects ls]).
  assert (Hll : length (allClaims resps) = length resps)
    by apply length_map.
  assert (Hls : Forall2 (fun l cl => nth_error h4 l = Some (Strings cl))
                        ls (allClaims resps)).
  { unfold h4, h3, ls. rewrite <- app_assoc, <- Hll.
    apply (Forall2_seq_app _ Strings h2 (allClaims resps) [Objects _]). }
  rewrite (bind_run _ _ _ _ _ _ _
             (run_mapM_read _ _ _ h4 (run_getStrings h4) _ _ Hls)).
  destruct (forallb (fun l : list str => length l =? 0) (allClaims resps));
    [exists h4; reflexivity|].
  rewrite (bind_run _ _ _ _ _ (length h4)
             (h4 ++ [Strings (concat (allClaims resps))]) eq_refl).
  rewrite (bind_run _ _ _ _ _ _ _
             (run_getStrings _ _ _ (nth_error_snoc h4 _))).
  set (h5 := h4 ++ [Strings (concat (allClaims resps))]).
  rewrite (bind_run _ _ _ _ _ (length h5)
             (h5 ++ [Strings (uniq (concat (allClaims resps)))]) eq_refl).
  rewrite (bind_run _ _ _ _ _ _ _
             (run_getStrings _ _ _ (nth_error_snoc h5 _))).
  set (h6 := h5 ++ [Strings (uniq (concat (allClaims resps)))]).
  assert (Hlenls : length ls = length (allClaims resps))
    by (unfold ls; rewrite length_seq; congruence).
  destruct (run_sharedByTwoM ls (allClaims resps)
              (uniq (concat (allClaims resps))) h6 Hlenls) as [h7 [E7 _]].
  rewrite (bind_run _ _ _ _ _ _ _ E7).
  rewrite filter_by_flags.
  match goal with |- context [alloc ?c] =>
    rewrite (bind_run _ _ _ _ _ (length h7) (h7 ++ [c]) eq_refl);
    rewrite (bind_run _ _ _ _ _ _ _
               (run_getStrings _ _ _ (nth_error_snoc h7 _)));
    exists (h7 ++ [c])
  end.
  unfold overlapRatio, overlapping, unique.
  destruct (_ && _); reflexivity.
Qed.

Lemma calcVerdictM_run : forall h a b stage25 stage1,
  ArrayAt AtResult h a stage25 ->
  ArrayAt AtResponse h b stage1 ->
  exists h', calcVerdictM a b h = Some (calcVerdict stage25 stage1, h').
Proof.
  intros h a b stage25 stage1 H25 H1.
  destruct (externalEvidenceM_run h a stage25 H25) as [h1 [E Hs]].
  unfold calcVerdictM, calcVerdict.
  rewrite (bind_run _ _ _ _ _ _ _ E).
  destruct (externalEvidence stage25) as [v|]; [exists h1; reflexivity|].
  apply factualConsensusM_run.
  destruct b as [b|], stage1 as [resps|]; simpl in *; try contradiction; auto.
  destruct H1 as [elems [Hb Hall]]. exists elems. split; [auto|].
  eapply Forall2_impl; [|exact Hall].
  intros l r [fc [Hl Hc]]. exists fc. split; [auto|].
  eapply ClaimsAt_stable; eassumption.
Qed.

(** *** The copies, the filter and the sorts *)

Lemma AtResult_stable : forall h h' l r,
  Stable h h' -> AtResult h l r -> AtResult h' l r.
Proof. intros h h' l r Hs H. apply Hs. exact H. Qed.

Lemma run_copies : forall elems rs k h,
  Forall2 (AtResult h) elems rs ->
  mapM copyWithIndex (combine elems (seq k (length elems))) h =
    Some (seq (length h) (length rs), h ++ map ItemObj (withIndex rs k)).
Proof.
  induction elems as [|e elems IH]; intros rs k h H;
    inversion H as [|? r ? rs' He Hr]; subst; simpl.
  - rewrite app_nil_r. reflexivity.
  - assert (E : copyWithIndex (e, k) h =
                Some (length h, h ++ [ItemObj (mkItem r k)])).
    { unfold copyWithIndex. simpl.
      rewrite (bind_run _ _ _ _ _ _ _ (run_getResult _ _ _ He)).
      reflexivity. }
    rewrite (bind_run _ _ _ _ _ _ _ E).
    assert (Hr' : Forall2 (AtResult (h ++ [ItemObj (mkItem r k)])) elems rs').
    { eapply Forall2_impl; [|exact Hr].
      intros l x. apply AtResult_stable, Stable_app. }
    rewrite (bind_run _ _ _ _ _ _ _ (IH rs' (S k) _ Hr')).
    rewrite length_app, <- app_assoc. simpl.
    replace (length h + 1) with (S (length h)) by lia. reflexivity.
Qed.

Lemma withIndex_length : forall rs k, length (withIndex rs k) = length rs.
Proof. induction rs as [|r rs IH]; intros k; simpl; auto. Qed.

Section SortRefs.
Context {A : Type}.
Variable cmp : A -> A -> Z.
Let cmp' (x y : loc * A) : Z := cmp (snd x) (snd y).

Lemma insert_snd : forall p ps,
  map snd (Js.insert cmp' p ps) = Js.insert cmp (snd p) (map snd ps).
Proof.
  intros p. induction ps as [|q ps IH]; simpl; [reflexivity|].
  unfold cmp' at 1. destruct (cmp (snd p) (snd q) <=? 0)%Z; simpl;
    [reflexivity | f_equal; exact IH].
Qed.

Lemma sort_snd : forall ps,
  map snd (Js.sort cmp' ps) = Js.sort cmp (map snd ps).
Proof.
  induction ps as [|p ps IH]; simpl; [reflexivity|].
  rewrite insert_snd, IH. reflexivity.
Qed.

Lemma combine_snd : forall (ls : list loc) (xs : list A),
  length ls = length xs -> map snd (combine ls xs) = xs.
Proof.
  induction ls as [|l ls IH]; intros [|x xs] H; simpl in *;
    try discriminate; [reflexivity|].
  f_equal. apply IH. lia.
Qed.

(** Sorting the references by their objects sorts the objects. *)
Lemma sortRefs_Forall2 : forall (P : loc -> A -> Prop) ls xs,
  Forall2 P ls xs ->
  Forall2 P (sortRefs cmp ls xs) (Js.sort cmp xs).
Proof.
  intros P ls xs H. unfold sortRefs. fold cmp'.
  rewrite <- (combine_snd ls xs (Forall2_length H)) at 2.
  rewrite <- sort_snd.
  assert (Hall : Forall (fun p => P (fst p) (snd p)) (combine ls xs)).
  { induction H; simpl; constructor; auto. }
  apply (Permutation_Forall (Permutation_sym (sort_perm cmp' _))) in Hall.
  induction Hall; simpl; constructor; auto.
Qed.
End SortRefs.

Lemma put_last : forall (h : heap) c0 c,
  put (length h) c (h ++ [c0]) = Some (tt, h ++ [c]).
Proof.
  intros h c0 c. unfold put. rewrite length_app. simpl.
  replace (length h <? length h + 1) with true
    by (symmetry; apply Nat.ltb_lt; lia).
  f_equal. f_equal. induction h as [|x h IH]; simpl; [reflexivity|].
  f_equal. exact IH.
Qed.

(** *** The heap during the loop *)

Section LoopHeap.
Variable hb : heap.

Lemma loopHeap_base : forall rl ul tail l c,
  nth_error hb l = Some c -> nth_error (loopHeap hb rl ul tail) l = Some c.
Proof. intros. apply Stable_app. assumption. Qed.

Lemma loopHeap_R : forall rl ul tail,
  nth_error (loopHeap hb rl ul tail) (length hb) = Some (Objects rl).
Proof.
  intros. unfold loopHeap. rewrite nth_error_app2 by lia.
  rewrite Nat.sub_diag. reflexivity.
Qed.

Lemma loopHeap_U : forall rl ul tail,
  nth_error (loopHeap hb rl ul tail) (S (length hb)) = Some (Objects ul).
Proof.
  intros. unfold loopHeap. rewrite nth_error_app2 by lia.
  replace (S (length hb) - length hb) with 1 by lia. reflexivity.
Qed.

Lemma loopHeap_tail : forall rl ul tail k,
  nth_error (loopHeap hb rl ul tail) (length hb + 2 + k) = nth_error tail k.
Proof.
  intros. unfold loopHeap. rewrite nth_error_app2 by lia.
  replace (length hb + 2 + k - length hb) with (S (S k)) by lia.
  reflexivity.
Qed.

Lemma loopHeap_length : forall rl ul tail,
  length (loopHeap hb rl ul tail) = length hb + 2 + length tail.
Proof. intros. unfold loopHeap. rewrite length_app. simpl. lia. Qed.

Lemma loopHeap_alloc : forall rl ul tail c,
  alloc c (loopHeap hb rl ul tail) =
  Some (length hb + 2 + length tail, loopHeap hb rl ul (tail ++ [c])).
Proof.
  intros. unfold alloc. rewrite loopHeap_length. unfold loopHeap.
  rewrite <- app_assoc. reflexivity.
Qed.

Lemma update_app_here : forall (h : heap) c0 rest c,
  update (h ++ c0 :: rest) (length h) c = h ++ c :: rest.
Proof.
  induction h as [|x h IH]; intros; simpl; [reflexivity|].
  f_equal. apply IH.
Qed.

Lemma loopHeap_push_R : forall rl ul tail x,
  push (length hb) x (loopHeap hb rl ul tail) =
  Some (tt, loopHeap hb (rl ++ [x]) ul tail).
Proof.
  intros. unfold push.
  rewrite (bind_run _ _ _ _ _ _ _
             (run_getObjects _ _ _ (loopHeap_R rl ul tail))).
  unfold put. rewrite loopHeap_length.
  replace (length hb <? length hb + 2 + length tail) with true
    by (symmetry; apply Nat.ltb_lt; lia).
  unfold loopHeap. rewrite update_app_here. reflexivity.
Qed.

Lemma loopHeap_push_U : forall rl ul tail x,
  push (S (length hb)) x (loopHeap hb rl ul tail) =
  Some (tt, loopHeap hb rl (ul ++ [x]) tail).
Proof.
  intros. unfold push.
  rewrite (bind_run _ _ _ _ _ _ _
             (run_getObjects _ _ _ (loopHeap_U rl ul tail))).
  unfold put. rewrite loopHeap_length.
  replace (S (length hb) <? length hb + 2 + length tail) with true
    by (symmetry; apply Nat.ltb_lt; lia).
  unfold loopHeap.
  replace (hb ++ Objects rl :: Objects ul :: tail)
    with ((hb ++ [Objects rl]) ++ Objects ul :: tail)
    by (rewrite <- app_assoc; reflexivity).
  replace (S (length hb)) with (length (hb ++ [Objects rl]))
    by (rewrite length_app; simpl; lia).
  rewrite update_app_here, <- app_assoc. reflexivity.
Qed.

Lemma loopHeap_put_R : forall rl ul tail rl',
  put (length hb) (Objects rl') (loopHeap hb rl ul tail) =
  Some (tt, loopHeap hb rl' ul tail).
Proof.
  intros. unfold put. rewrite loopHeap_length.
  replace (length hb <? length hb + 2 + length tail) with true
    by (symmetry; apply Nat.ltb_lt; lia).
  unfold loopHeap. rewrite update_app_here. reflexivity.
Qed.

Lemma InTail_grow : forall tail P l c,
  InTail hb tail P l -> InTail hb (tail ++ [c]) P l.
Proof.
  intros tail P l c [k [c0 [Hl [Hk HP]]]]. exists k, c0.
  repeat split; auto. rewrite nth_error_app1; [assumption|].
  apply nth_error_Some. congruence.
Qed.

Lemma InTail_read : forall tail P l rl ul,
  InTail hb tail P l ->
  exists c, nth_error (loopHeap hb rl ul tail) l = Some c /\ P c.
Proof.
  intros tail P l rl ul [k [c [-> [Hk HP]]]]. exists c.
  rewrite loopHeap_tail. auto.
Qed.
End LoopHeap.

(** One round of the loop on the heap is one round of the pure loop. *)
Lemma matchItemM_run : forall hb lower rl ul tail st l it,
  nth_error hb l = Some (ItemObj it) ->
  LoopInv hb tail rl ul st ->
  exists rl' ul' tail',
    matchItemM lower (length hb) (S (length hb)) l (loopHeap hb rl ul tail)
    = Some (tt, loopHeap hb rl' ul' tail') /\
    LoopInv hb tail' rl' ul' (matchItem lower st it).
Proof.
  intros hb lower rl ul tail st l it Hl [HR HU].
  unfold matchItemM, matchItem.
  rewrite (bind_run _ _ _ _ _ _ _
             (run_getItem _ _ _ (loopHeap_base hb rl ul tail l _ Hl))).
  destruct (toLowerCase (claim (item it))) as [|c0 cs] eqn:Ec.
  { exists rl, ul, tail. split; [reflexivity | split; assumption]. }
  rewrite (bind_run _ _ _ _ _ _ _
             (run_getObjects _ _ _ (loopHeap_U hb rl ul tail))).
  assert (Hspans : mapM getPair ul (loopHeap hb rl ul tail)
                   = Some (snd st, loopHeap hb rl ul tail)).
  { eapply run_mapM_read; [|exact HU].
    intros x p Hx. simpl in Hx.
    destruct (InTail_read hb tail _ x rl ul Hx) as [c [Hc ->]].
    apply run_getPair. exact Hc. }
  rewrite (bind_run _ _ _ _ _ _ _ Hspans).
  destruct (search lower (c0 :: cs) (length (claim (item it))) (snd st) 0
                   (S (length lower))) as [[found e]|].
  2:{ exists rl, ul, tail. split; [reflexivity | split; assumption]. }
  set (r := mkReplacement found e (originalIdx it)
              (toLowerCase (status (item it)))).
  rewrite (bind_run _ _ _ _ _ _ _ (loopHeap_alloc hb rl ul tail (ReplObj r))).
  rewrite (bind_run _ _ _ _ _ _ _ (loopHeap_push_R hb rl ul _ _)).
  rewrite (bind_run _ _ _ _ _ _ _
             (loopHeap_alloc hb _ ul _ (PairObj found e))).
  rewrite loopHeap_push_U.
  eexists _, _, _. split; [reflexivity|].
  split; simpl; apply Forall2_app.
  - eapply Forall2_impl; [|exact HR]. intros x y Hx.
    apply InTail_grow, InTail_grow. exact Hx.
  - repeat constructor. exists (length tail), (ReplObj r).
    repeat split.
    rewrite <- app_assoc. rewrite nth_error_app2 by lia.
    rewrite Nat.sub_diag. reflexivity.
  - eapply Forall2_impl; [|exact HU]. intros x y Hx.
    apply InTail_grow, InTail_grow. exact Hx.
  - repeat constructor. exists (length (tail ++ [ReplObj r])), (PairObj found e).
    repeat split. apply nth_error_snoc.
Qed.

Lemma matchLoopM_run : forall hb lower locs items,
  Forall2 (fun l it => nth_error hb l = Some (ItemObj it)) locs items ->
  forall rl ul tail st,
    LoopInv hb tail rl ul st ->
    exists rl' ul' tail',
      forEach (matchItemM lower (length hb) (S (length hb))) locs
              (loopHeap hb rl ul tail)
      = Some (tt, loopHeap hb rl' ul' tail') /\
      LoopInv hb tail' rl' ul' (fold_left (matchItem lower) items st).
Proof.
  intros hb lower locs items H.
  induction H as [|l it locs items Hl _ IH]; intros rl ul tail st Hinv; simpl.
  - exists rl, ul, tail. split; [reflexivity | assumption].
  - destruct (matchItemM_run hb lower rl ul tail st l it Hl Hinv)
      as [rl1 [ul1 [tail1 [E1 Hinv1]]]].
    rewrite (bind_run _ _ _ _ _ _ _ E1).
    apply IH. assumption.
Qed.

Lemma annotate_cons : forall text r rs,
  annotateChairmanText text (Some (r :: rs)) =
  if length (actionable (r :: rs)) =? 0 then text
  else if length (replacements text (r :: rs)) =? 0 then text
       else fold_left inject
                      (Js.sort byStartDesc (replacements text (r :: rs))) text.
Proof. reflexivity. Qed.

(** [annotateChairmanText] on the heap. *)
Lemma annotateChairmanTextM_run : forall h text a stage25,
  ArrayAt AtResult h a stage25 ->
  exists h',
    annotateChairmanTextM text a h =
    Some (annotateChairmanText text stage25, h').
Proof.
  intros h text [a|] [rs|] H; simpl in H; try contradiction.
  2:{ exists h. reflexivity. }
  destruct H as [elems [Ha Hall]].
  unfold annotateChairmanTextM.
  rewrite (bind_run _ _ _ _ _ _ _ (run_getObjects _ _ _ Ha)).
  pose proof (Forall2_length Hall) as Hlen.
  destruct rs as [|r rs'].
  { destruct elems; [|discriminate Hlen]. exists h. reflexivity. }
  destruct elems as [|e elems']; [discriminate Hlen|].
  rewrite annotate_cons.
  set (rs := r :: rs') in *. set (elems := e :: elems') in *.
  change (length elems =? 0) with false. cbv iota.
  rewrite (bind_run _ _ _ _ _ _ _ (run_copies elems rs 0 h Hall)).
  set (copies := seq (length h) (length rs)).
  set (h1 := h ++ map ItemObj (withIndex rs 0)).
  rewrite (bind_run _ _ _ _ _ (length h1) (h1 ++ [Objects copies]) eq_refl).
  rewrite (bind_run _ _ _ _ _ _ _
             (run_getObjects _ _ _ (nth_error_snoc h1 _))).
  set (h2 := h1 ++ [Objects copies]).
  assert (Hits : Forall2 (fun l it => nth_error h2 l = Some (ItemObj it))
                         copies (withIndex rs 0)).
  { unfold h2, h1, copies.
    rewrite <- app_assoc, <- (withIndex_length rs 0).
    apply (Forall2_seq_app _ ItemObj h (withIndex rs 0) [Objects _]). }
  rewrite (bind_run _ _ _ _ _ _ _
             (run_mapM_read _ _ _ h2 (run_getItem h2) _ _ Hits)).
  set (aElems := select isListed copies (withIndex rs 0)).
  rewrite (bind_run _ _ _ _ _ (length h2) (h2 ++ [Objects aElems]) eq_refl).
  rewrite (bind_run _ _ _ _ _ _ _
             (run_getObjects _ _ _ (nth_error_snoc h2 _))).
  assert (HaLen : length aElems = length (actionable rs)).
  { unfold aElems. apply select_length.
    unfold copies. rewrite length_seq, withIndex_length. reflexivity. }
  rewrite HaLen.
  destruct (length (actionable rs) =? 0); [eexists; reflexivity|].
  assert (Hact : Forall2 (fun l it => nth_error h2 l = Some (ItemObj it))
                         aElems (actionable rs))
    by (apply Forall2_select; exact Hits).
  assert (Hact3 : Forall2 (fun l it => nth_error (h2 ++ [Objects aElems]) l
                                       = Some (ItemObj it))
                          aElems (actionable rs)).
  { eapply Forall2_impl; [|exact Hact]. intros l it. apply Stable_app. }
  rewrite (bind_run _ _ _ _ _ _ _
             (run_mapM_read _ _ _ _ (run_getItem _) _ _ Hact3)).
  rewrite (bind_run _ _ _ _ _ _ _ (put_last h2 _ _)).
  set (ordered := sortRefs byClaimLength aElems (actionable rs)).
  set (hb := h2 ++ [Objects ordered]).
  rewrite (bind_run _ _ _ _ _ (length hb) (hb ++ [Objects []]) eq_refl).
  rewrite (bind_run _ _ _ _ _ (length (hb ++ [Objects []]))
             ((hb ++ [Objects []]) ++ [Objects []]) eq_refl).
  replace (length (hb ++ [Objects []])) with (S (length hb))
    by (rewrite length_app; simpl; lia).
  replace ((hb ++ [Objects []]) ++ [Objects []]) with (loopHeap hb [] [] [])
    by (unfold loopHeap; rewrite <- app_assoc; reflexivity).
  assert (Hord0 : nth_error (loopHeap hb [] [] []) (length h2)
                  = Some (Objects ordered))
    by (apply loopHeap_base, nth_error_snoc).
  rewrite (bind_run _ _ _ _ _ _ _ (run_getObjects _ _ _ Hord0)).
  assert (Hord : Forall2 (fun l it => nth_error hb l = Some (ItemObj it))
                         ordered (matchingOrder rs)).
  { apply sortRefs_Forall2.
    eapply Forall2_impl; [|exact Hact]. intros l it. apply Stable_app. }
  destruct (matchLoopM_run hb (toLowerCase text) ordered (matchingOrder rs)
              Hord [] [] [] ([], []))
    as [rl [ul [tail [E [HR HU]]]]];
    [split; constructor|].
  fold (matchAll text (matchingOrder rs)) in HR, HU.
  fold (replacements text rs) in HR.
  rewrite (bind_run _ _ _ _ _ _ _ E).
  rewrite (bind_run _ _ _ _ _ _ _
             (run_getObjects _ _ _ (loopHeap_R hb rl ul tail))).
  rewrite (Forall2_length HR).
  destruct (length (replacements text rs) =? 0); [eexists; reflexivity|].
  assert (Hread : forall rl0 l x,
            InTail hb tail (fun c => c = ReplObj x) l ->
            getRepl l (loopHeap hb rl0 ul tail)
            = Some (x, loopHeap hb rl0 ul tail)).
  { intros rl0 l x Hx.
    destruct (InTail_read hb tail _ l rl0 ul Hx) as [c [Hc ->]].
    apply run_getRepl. exact Hc. }
  rewrite (bind_run _ _ _ _ _ _ _
             (run_mapM_read _ _ _ _ (Hread rl) _ _ HR)).
  rewrite (bind_run _ _ _ _ _ _ _ (loopHeap_put_R hb rl ul tail _)).
  rewrite (bind_run _ _ _ _ _ _ _
             (run_getObjects _ _ _ (loopHeap_R hb _ ul tail))).
  rewrite (bind_run _ _ _ _ _ _ _
             (run_mapM_read _ _ _ _ (Hread _) _ _
                (sortRefs_Forall2 byStartDesc _ _ _ HR))).
  eexists. reflexivity.
Qed.

(** C9. Whatever the heap and whatever the arguments refer to, a call of
    [calcVerdict] or of [annotateChairmanText] leaves every cell that
    existed before the call as it was: the heap after the call is the
    heap before it followed by the cells the call allocated (the arrays
    [annotateChairmanText] sorts and pushes to are its own).  On a heap
    that holds the verification results and the Stage 1 responses, both
    calls return, with the value the pure functions give. *)
Theorem utilities_leave_their_inputs_unchanged :
  forall (h : heap) (text : str) (stage25 stage1 : option loc),
    (forall v h',
       calcVerdictM stage25 stage1 h = Some (v, h') ->
       exists fresh, h' = h ++ fresh) /\
    (forall out h',
       annotateChairmanTextM text stage25 h = Some (out, h') ->
       exists fresh, h' = h ++ fresh) /\
    (forall rs resps,
       ArrayAt AtResult h stage25 rs ->
       ArrayAt AtResponse h stage1 resps ->
       exists fresh,
         calcVerdictM stage25 stage1 h =
         Some (calcVerdict rs resps, h ++ fresh)) /\
    (forall rs,
       ArrayAt AtResult h stage25 rs ->
       exists fresh,
         annotateChairmanTextM text stage25 h =
         Some (annotateChairmanText text rs, h ++ fresh)).
Proof.
  intros h text stage25 stage1.
  assert (F1 : forall v h',
            calcVerdictM stage25 stage1 h = Some (v, h') ->
            exists fresh, h' = h ++ fresh).
  { intros v h' E.
    exact (Keeps_extends _ _ _ h v h'
             (Keeps_calcVerdictM (length h) stage25 stage1) E). }
  assert (F2 : forall out h',
            annotateChairmanTextM text stage25 h = Some (out, h') ->
            exists fresh, h' = h ++ fresh).
  { intros out h' E.
    exact (Keeps_extends _ _ _ h out h'
             (Keeps_annotateChairmanTextM (length h) text stage25) E). }
  split; [exact F1|]. split; [exact F2|]. split.
  - intros rs resps H25 H1.
    destruct (calcVerdictM_run h stage25 stage1 rs resps H25 H1) as [h' E].
    destruct (F1 _ _ E) as [fresh ->]. exists fresh. exact E.
  - intros rs H25.
    destruct (annotateChairmanTextM_run h text stage25 rs H25) as [h' E].
    destruct (F2 _ _ E) as [fresh ->]. exists fresh. exact E.
Qed.

(** On the sample heap the annotation returns the annotated text and
    leaves the nine cells of its arguments in place. *)
Lemma utilities_leave_their_inputs_unchanged_witness :
  exists fresh,
    annotateChairmanTextM sampleText (Some 3) sampleHeap =
    Some (annotateChairmanText sampleText
            (Some [result VERIFIED "sky is blue";
                   result UNVERIFIABLE "Water";
                   result CONTESTED "The Sky"]),
          sampleHeap ++ fresh).
Proof.
  apply (proj2 (proj2 (proj2 (utilities_leave_their_inputs_unchanged
                                sampleHeap sampleText (Some 3) (Some 8))))).
  exists [0; 1; 2]. split; [reflexivity | repeat constructor].
Defined.

(** ** The models at work *)

(** The longer claim is placed first and keeps its span; the shorter one
    moves on to its next free occurrence; the result that is
    [UNVERIFIABLE] and the claim that occurs nowhere get nothing. *)
Example replacements_sample :
  replacements sampleText
    [result VERIFIED "sky is blue"; result CONTESTED "The Sky";
     result UNVERIFIABLE "Water"; result VERIFIED "nothing"]
  = [mkReplacement 4 15 0 (lit "verified");
     mkReplacement 39 46 1 (lit "contested")].
Proof. vm_compute. reflexivity. Qed.

Example normalize_sample :
  normalize (lit "  Water boils at 100 C.  ") = lit "water boils at 100 c".
Proof. vm_compute. reflexivity. Qed.

(** Lower-casing: the letters of ODOS in capital Greek letters get a
    final sigma at the end of the word and a medial one inside it;
    U+0130 becomes two code units; the Kelvin sign becomes k; a
    supplementary code point (U+10400, a surrogate pair) is mapped as a
    whole. *)
Example toLowerCase_sample :
  toLowerCase [0x39F; 0x394; 0x39F; 0x3A3; 0x20; 0x3A3; 0x39F]%N
  = [0x3BF; 0x3B4; 0x3BF; 0x3C2; 0x20; 0x3C3; 0x3BF]%N /\
  toLowerCase [0x130; 0x212A]%N = [0x69; 0x307; 0x6B]%N /\
  toLowerCase [0xD801; 0xDC00]%N = [0xD801; 0xDC28]%N.
Proof. repeat split; vm_compute; reflexivity. Qed.

(** The waterfall on doubles, past Step 1: claims that are not shared
    and a mean of 52, then of 60; no claims and a mean of 60, then of
    70. *)
Example waterfall_sample :
  Binary64.calcVerdict None (Some [scored 52 ["a"]; scored 52 ["b"]])
  = Uncertain /\
  Binary64.calcVerdict None (Some [scored 60 ["a"]; scored 60 ["b"]])
  = Split /\
  Binary64.calcVerdict None (Some [scored 60 []; scored 60 []]) = Split /\
  Binary64.calcVerdict None (Some [scored 70 []; scored 70 []]) = Consensus.
Proof. repeat split; vm_compute; reflexivity. Qed.

Example calcVerdictM_sample :
  option_map fst (calcVerdictM (Some 3) (Some 8) sampleHeap) = Some Consensus.
Proof. vm_compute. reflexivity. Qed.

(* ================================================================== *)
(** ** The waterfall, read backwards *)
(* ================================================================== *)

Lemma externalEvidence_unfold : forall rs,
  externalEvidence (Some rs) =
    if existsb isContradicted rs then Some Disputed
    else if (0 <? length (filter isActionable rs))
            && forallb isVerified (filter isActionable rs)
    then Some Verified else None.
Proof. intros [|r rs]; reflexivity. Qed.

Lemma some_actionable_iff : forall rs,
  (0 <? length (filter isActionable rs)) = true <->
  exists r, In r rs /\ Actionable r.
Proof.
  intros rs. rewrite Nat.ltb_lt. split.
  - intros H. destruct (filter isActionable rs) as [|a l] eqn:E;
      [simpl in H; lia|].
    assert (Ha : In a (filter isActionable rs)) by (rewrite E; left; auto).
    apply filter_In in Ha. exists a. rewrite <- isActionable_iff. tauto.
  - intros [r [Hin Ha]].
    assert (In r (filter isActionable rs))
      by (apply filter_In; rewrite isActionable_iff; auto).
    destruct (filter isActionable rs); [contradiction | simpl; lia].
Qed.

Lemma all_actionable_verified_iff : forall rs,
  forallb isVerified (filter isActionable rs) = true <->
  forall r, In r rs -> Actionable r -> status r = VERIFIED.
Proof.
  intros rs. rewrite forallb_forall. unfold isVerified. split.
  - intros H r Hin Ha. apply str_eqb_eq, H, filter_In.
    rewrite isActionable_iff. auto.
  - intros H r Hr. apply filter_In in Hr. apply str_eqb_eq.
    apply H; [tauto | apply isActionable_iff; tauto].
Qed.

Lemma not_contradicted_iff : forall rs,
  existsb isContradicted rs = false <->
  forall r, In r rs -> status r <> CONTRADICTED.
Proof.
  intros rs. split.
  - intros H r Hin E.
    assert (existsb isContradicted rs = true)
      by (apply existsb_isContradicted; exists r; auto).
    congruence.
  - intros H. destruct (existsb isContradicted rs) eqn:E; [|reflexivity].
    apply existsb_isContradicted in E. destruct E as [r [Hin E]].
    elim (H r Hin E).
Qed.

(** Step 2 answers one of [Consensus], [Split], [Uncertain] and
    [Unknown], and [Unknown] only without a Stage 1 response. *)
Lemma factualConsensus_range : forall stage1,
  factualConsensus stage1 <> Disputed /\
  factualConsensus stage1 <> Verified /\
  (factualConsensus stage1 = Unknown <->
   stage1 = None \/ stage1 = Some []).
Proof.
  intros [[|r rs]|].
  - simpl. split; [discriminate|]. split; [discriminate|]. tauto.
  - rewrite factualConsensus_cases by discriminate.
    repeat match goal with
           | |- context [if ?b then _ else _] => destruct b
           end;
      (split; [discriminate|]); (split; [discriminate|]);
      (split; [discriminate | intros [H | H]; discriminate]).
  - simpl. split; [discriminate|]. split; [discriminate|]. tauto.
Qed.

(** What Step 1 answers, and when. *)
Lemma externalEvidence_verdicts : forall stage25,
  (externalEvidence stage25 = Some Disputed <->
   exists rs, stage25 = Some rs /\
              exists r, In r rs /\ status r = CONTRADICTED) /\
  (externalEvidence stage25 = Some Verified <->
   exists rs, stage25 = Some rs /\
              (forall r, In r rs -> status r <> CONTRADICTED) /\
              (exists r, In r rs /\ Actionable r) /\
              (forall r, In r rs -> Actionable r -> status r = VERIFIED)).
Proof.
  intros [rs|].
  - rewrite externalEvidence_unfold.
    destruct (existsb isContradicted rs) eqn:Ec.
    + apply existsb_isContradicted in Ec. split.
      * split; [intros _; exists rs; auto | reflexivity].
      * split; [discriminate|].
        intros [rs' [E [Hno _]]]. inversion E; subst rs'.
        destruct Ec as [r [Hin Hc]]. elim (Hno r Hin Hc).
    + pose proof (proj1 (not_contradicted_iff rs) Ec) as Hno.
      destruct ((0 <? length (filter isActionable rs))
                && forallb isVerified (filter isActionable rs)) eqn:Ea.
      * apply andb_true_iff in Ea. destruct Ea as [E1 E2].
        apply some_actionable_iff in E1.
        pose proof (proj1 (all_actionable_verified_iff rs) E2) as Hall.
        split.
        -- split; [discriminate|].
           intros [rs' [E [r [Hin Hc]]]]. inversion E; subst rs'.
           elim (Hno r Hin Hc).
        -- split; [intros _; exists rs; auto | reflexivity].
      * split.
        -- split; [discriminate|].
           intros [rs' [E [r [Hin Hc]]]]. inversion E; subst rs'.
           elim (Hno r Hin Hc).
        -- split; [discriminate|].
           intros [rs' [E [_ [H1 H2]]]]. inversion E; subst rs'.
           apply some_actionable_iff in H1.
           apply all_actionable_verified_iff in H2.
           rewrite H1, H2 in Ea. discriminate.
  - simpl. split.
    + split; [discriminate | intros [rs [E _]]; discriminate].
    + split; [discriminate | intros [rs [E _]]; discriminate].
Qed.

(** [Disputed] and [Verified] are verdicts of Step 1 alone. *)
Lemma calcVerdict_from_evidence : forall stage25 stage1 v,
  v = Disputed \/ v = Verified ->
  (calcVerdict stage25 stage1 = v <-> externalEvidence stage25 = Some v).
Proof.
  intros stage25 stage1 v Hv. unfold calcVerdict.
  destruct (factualConsensus_range stage1) as [ND [NV _]].
  destruct (externalEvidence stage25) as [v'|].
  - split; congruence.
  - split; [|discriminate]. intros H. destruct Hv; subst v; contradiction.
Qed.

(** X1. [calcVerdict] answers [Disputed] exactly when Stage 2.5 holds a
    [CONTRADICTED] result, and [Verified] exactly when it holds no
    [CONTRADICTED] result, holds an actionable one, and every actionable
    one is [VERIFIED]; Stage 1 has no say in either. *)
Theorem calcVerdict_evidence_verdicts :
  forall (stage25 : option (list VerificationResult))
         (stage1 : option (list ModelResponse)),
    (calcVerdict stage25 stage1 = Disputed <->
     exists rs, stage25 = Some rs /\
                exists r, In r rs /\ status r = CONTRADICTED) /\
    (calcVerdict stage25 stage1 = Verified <->
     exists rs, stage25 = Some rs /\
                (forall r, In r rs -> status r <> CONTRADICTED) /\
                (exists r, In r rs /\ Actionable r) /\
                (forall r, In r rs -> Actionable r -> status r = VERIFIED)).
Proof.
  intros stage25 stage1.
  destruct (externalEvidence_verdicts stage25) as [HD HV].
  split.
  - rewrite (calcVerdict_from_evidence stage25 stage1 Disputed) by auto.
    exact HD.
  - rewrite (calcVerdict_from_evidence stage25 stage1 Verified) by auto.
    exact HV.
Qed.

Lemma filter_idem : forall (A : Type) (f : A -> bool) l,
  filter f (filter f l) = filter f l.
Proof.
  intros A f l. induction l as [|x l IH]; [reflexivity|].
  simpl. destruct (f x) eqn:E; [simpl; rewrite E, IH; reflexivity | exact IH].
Qed.

Lemma existsb_filter_weaker : forall (A : Type) (f g : A -> bool) l,
  (forall x, f x = true -> g x = true) ->
  existsb f (filter g l) = existsb f l.
Proof.
  intros A f g l H. induction l as [|x l IH]; [reflexivity|].
  simpl. destruct (g x) eqn:Eg.
  - simpl. rewrite IH. reflexivity.
  - rewrite IH. destruct (f x) eqn:Ef; [|reflexivity].
    rewrite (H x Ef) in Eg. discriminate.
Qed.

Lemma contradicted_actionable : forall r,
  isContradicted r = true -> isActionable r = true.
Proof.
  intros r H. unfold isContradicted in H. unfold isActionable.
  rewrite H. rewrite orb_true_r. reflexivity.
Qed.

(** X2. The results that are not actionable ([UNVERIFIABLE], or any
    status outside the three) have no influence on the verdict: dropping
    them from Stage 2.5 leaves it unchanged, and a Stage 2.5 list made
    only of them gives the verdict of no Stage 2.5 at all. *)
Theorem calcVerdict_ignores_inactionable :
  forall (rs : list VerificationResult)
         (stage1 : option (list ModelResponse)),
    calcVerdict (Some rs) stage1 =
    calcVerdict (Some (filter isActionable rs)) stage1 /\
    ((forall r, In r rs -> ~ Actionable r) ->
     calcVerdict (Some rs) stage1 = calcVerdict None stage1).
Proof.
  intros rs stage1.
  assert (E : externalEvidence (Some rs) =
              externalEvidence (Some (filter isActionable rs))).
  { rewrite !externalEvidence_unfold, filter_idem.
    rewrite (existsb_filter_weaker _ _ _ rs contradicted_actionable).
    reflexivity. }
  split.
  - unfold calcVerdict. rewrite E. reflexivity.
  - intros Hno. unfold calcVerdict. rewrite E.
    assert (Hnil : filter isActionable rs = []).
    { destruct (filter isActionable rs) as [|a l] eqn:Ef; [reflexivity|].
      assert (Ha : In a (filter isActionable rs)) by (rewrite Ef; left; auto).
      apply filter_In in Ha. destruct Ha as [Hin Ha].
      apply isActionable_iff in Ha. elim (Hno a Hin Ha). }
    rewrite Hnil. reflexivity.
Qed.

(** X3. [calcVerdict] answers [Unknown] exactly when Step 1 falls
    through and Stage 1 is missing or empty: with one Stage 1 response
    or more the verdict is never [Unknown]. *)
Theorem calcVerdict_unknown_iff :
  forall (stage25 : option (list VerificationResult))
         (stage1 : option (list ModelResponse)),
    calcVerdict stage25 stage1 = Unknown <->
    externalEvidence stage25 = None /\ (stage1 = None \/ stage1 = Some []).
Proof.
  intros stage25 stage1. unfold calcVerdict.
  destruct (factualConsensus_range stage1) as [_ [_ HU]].
  destruct stage25 as [rs|].
  - rewrite externalEvidence_unfold.
    destruct (existsb isContradicted rs);
      [split; [discriminate | intros [H _]; discriminate]|].
    destruct ((0 <? length (filter isActionable rs))
              && forallb isVerified (filter isActionable rs));
      [split; [discriminate | intros [H _]; discriminate]|].
    rewrite HU. tauto.
  - simpl. rewrite HU. tauto.
Qed.

Lemma avgConf_none : forall rs, confidences rs = [] -> avgConf rs = None.
Proof. intros rs H. unfold avgConf. rewrite H. reflexivity. Qed.

(** X4. When Step 1 falls through and no Stage 1 response declares a
    confidence, the verdict is [Split], whatever the claims are: without
    a mean there is neither [Consensus] nor [Uncertain]. *)
Theorem calcVerdict_no_confidence_is_split :
  forall (stage25 : option (list VerificationResult))
         (rs : list ModelResponse),
    externalEvidence stage25 = None ->
    rs <> [] ->
    confidences rs = [] ->
    calcVerdict stage25 (Some rs) = Split.
Proof.
  intros stage25 rs H25 Hne Hc. unfold calcVerdict. rewrite H25.
  rewrite factualConsensus_cases by assumption.
  rewrite (avgConf_none rs Hc). simpl.
  rewrite andb_false_r.
  destruct (forallb _ _); reflexivity.
Qed.

Lemma calcVerdict_no_confidence_is_split_witness :
  calcVerdict (Some [result CONTESTED "a"])
    (Some [mkResponse (lit "m1") None (Some [lit "x"]);
           mkResponse (lit "m2") None (Some [lit "x"])]) = Split.
Proof.
  apply (calcVerdict_no_confidence_is_split
           (Some [result CONTESTED "a"])
           [mkResponse (lit "m1") None (Some [lit "x"]);
            mkResponse (lit "m2") None (Some [lit "x"])]);
    [reflexivity | discriminate | reflexivity].
Defined.

(** ** The mean between the extremes *)

Lemma sum_le : forall k l,
  Forall (fun c => (c <= k)%Z) l ->
  (Js.sum l <= k * Z.of_nat (length l))%Z.
Proof.
  intros k l H. induction H as [|c l Hc _ IH].
  - unfold Js.sum. simpl. lia.
  - rewrite sum_cons. simpl length. lia.
Qed.

Lemma sum_ge : forall k l,
  Forall (fun c => (k <= c)%Z) l ->
  (k * Z.of_nat (length l) <= Js.sum l)%Z.
Proof.
  intros k l H. induction H as [|c l Hc _ IH].
  - unfold Js.sum. simpl. lia.
  - rewrite sum_cons. simpl length. lia.
Qed.

Lemma avgConf_some : forall rs,
  confidences rs <> [] ->
  avgConf rs =
  Some (Js.sum (confidences rs) # Pos.of_nat (length (confidences rs))) /\
  0 < length (confidences rs).
Proof.
  intros rs H. unfold avgConf.
  destruct (confidences rs) as [|c cs]; [congruence|].
  split; [reflexivity | simpl; lia].
Qed.

Lemma all_below_mean : forall rs k,
  confidences rs <> [] ->
  Forall (fun c => (c < k)%Z) (confidences rs) ->
  MeanBelow rs k.
Proof.
  intros rs k Hne H. destruct (avgConf_some rs Hne) as [E Hpos].
  eexists. split; [exact E|].
  unfold Qlt. simpl. rewrite (Zpos_of_nat _ Hpos).
  assert (Hle : (Js.sum (confidences rs)
                 <= (k - 1) * Z.of_nat (length (confidences rs)))%Z).
  { apply sum_le. eapply Forall_impl; [|exact H]. simpl. intros; lia. }
  nia.
Qed.

Lemma all_at_least_mean : forall rs k,
  confidences rs <> [] ->
  Forall (fun c => (k <= c)%Z) (confidences rs) ->
  MeanAtLeast rs k.
Proof.
  intros rs k Hne H. destruct (avgConf_some rs Hne) as [E Hpos].
  eexists. split; [exact E|].
  unfold Qle. simpl. rewrite (Zpos_of_nat _ Hpos).
  pose proof (sum_ge k _ H). lia.
Qed.

Lemma badgeColor_red : forall c, badgeColor c = red <-> (c < 50)%Z.
Proof.
  intros c. unfold badgeColor.
  destruct (70 <=? c)%Z eqn:E1; destruct (50 <=? c)%Z eqn:E2;
    split; intros H; try discriminate; try reflexivity; lia.
Qed.

Lemma badgeColor_green : forall c, badgeColor c = green <-> (70 <= c)%Z.
Proof.
  intros c. unfold badgeColor.
  destruct (70 <=? c)%Z eqn:E1; destruct (50 <=? c)%Z eqn:E2;
    split; intros H; try discriminate; try reflexivity; lia.
Qed.

(** X5. The confidence badges of Stage 1 bound the heuristic verdict.
    After the fall-through, with a declared confidence or more: when
    every badge is red (below 50) the verdict is [Uncertain]; when every
    badge is green (70 or more) the verdict is never [Uncertain], and it
    is [Consensus] when no model declared a claim. *)
Theorem calcVerdict_follows_the_badges :
  forall (stage25 : option (list VerificationResult))
         (rs : list ModelResponse),
    externalEvidence stage25 = None ->
    confidences rs <> [] ->
    (Forall (fun c => badgeColor c = red) (confidences rs) ->
     calcVerdict stage25 (Some rs) = Uncertain) /\
    (Forall (fun c => badgeColor c = green) (confidences rs) ->
     calcVerdict stage25 (Some rs) <> Uncertain /\
     (NoClaims rs -> calcVerdict stage25 (Some rs) = Consensus)).
Proof.
  intros stage25 rs H25 Hne.
  assert (Hrs : rs <> []) by (intros ->; apply Hne; reflexivity).
  unfold calcVerdict. rewrite H25.
  rewrite factualConsensus_cases by assumption.
  split.
  - intros Hred.
    assert (Hb : MeanBelow rs 50).
    { apply all_below_mean; [assumption|].
      eapply Forall_impl; [|exact Hred]. intros c. apply badgeColor_red. }
    apply avgBelow_iff in Hb. rewrite Hb. reflexivity.
  - intros Hgreen.
    assert (Hm : MeanAtLeast rs 70).
    { apply all_at_least_mean; [assumption|].
      eapply Forall_impl; [|exact Hgreen]. intros c. apply badgeColor_green. }
    assert (H50 : avgBelow (avgConf rs) 50 = false).
    { destruct (avgBelow (avgConf rs) 50) eqn:E; [|reflexivity].
      apply avgBelow_iff in E.
      elim (MeanAtLeast_not_below rs 70 50 ltac:(lia) Hm E). }
    assert (H55 : avgBelow (avgConf rs) 55 = false).
    { destruct (avgBelow (avgConf rs) 55) eqn:E; [|reflexivity].
      apply avgBelow_iff in E.
      elim (MeanAtLeast_not_below rs 70 55 ltac:(lia) Hm E). }
    assert (H65 : avgAtLeast (avgConf rs) 65 = true).
    { apply avgAtLeast_iff. destruct Hm as [q [E Hq]]. exists q.
      split; [exact E|]. eapply Qle_trans; [|exact Hq].
      rewrite <- Zle_Qle. lia. }
    rewrite H50, H55, H65. split.
    + destruct (forallb _ _); [discriminate|].
      destruct (Qle_bool _ _ && true); discriminate.
    + intros Hn. apply noClaims_iff in Hn. rewrite Hn. reflexivity.
Qed.

Lemma calcVerdict_follows_the_badges_witness :
  calcVerdict None (Some [response 30 ["x"]; response 45 ["y"]]) = Uncertain.
Proof.
  apply (calcVerdict_follows_the_badges
           None [response 30 ["x"]; response 45 ["y"]]);
    [reflexivity | discriminate | repeat constructor].
Defined.

(** ** [EpistemicSummary]: the pills and the badge *)

Lemma countStatus_pos : forall s rs,
  0 < countStatus s (Some rs) <-> exists r, In r rs /\ status r = s.
Proof.
  intros s rs. simpl. split.
  - intros H.
    destruct (filter (fun r => str_eqb (status r) s) rs) as [|a l] eqn:E;
      [simpl in H; lia|].
    assert (Ha : In a (filter (fun r => str_eqb (status r) s) rs))
      by (rewrite E; left; auto).
    apply filter_In in Ha. exists a. rewrite <- str_eqb_eq. tauto.
  - intros [r [Hin Hs]].
    assert (In r (filter (fun r => str_eqb (status r) s) rs))
      by (apply filter_In; rewrite str_eqb_eq; auto).
    destruct (filter _ rs); [contradiction | simpl; lia].
Qed.

Lemma countStatus_zero : forall s rs,
  countStatus s (Some rs) = 0 <-> forall r, In r rs -> status r <> s.
Proof.
  intros s rs. split.
  - intros H r Hin Hs.
    assert (0 < countStatus s (Some rs))
      by (apply countStatus_pos; exists r; auto).
    lia.
  - intros H. destruct (countStatus s (Some rs)) eqn:E; [reflexivity|].
    assert (Hp : 0 < countStatus s (Some rs)) by lia.
    apply countStatus_pos in Hp. destruct Hp as [r [Hin Hs]].
    elim (H r Hin Hs).
Qed.

(** X6. The pills of the epistemic summary and its badge agree.  Pills
    are shown exactly when Stage 2.5 holds an actionable result.  The
    badge reads [Disputed] exactly when the contradicted count is
    positive, and [Verified] exactly when the verified count is positive
    and the two other counts are zero.  Without pills the badge is the
    verdict of Stage 1 alone. *)
Theorem summary_pills_match_the_badge :
  forall (stage25 : option (list VerificationResult))
         (stage1 : option (list ModelResponse)),
    (hasVerdicts stage25 = true <->
     exists rs, stage25 = Some rs /\ exists r, In r rs /\ Actionable r) /\
    (calcVerdict stage25 stage1 = Disputed <->
     0 < countStatus CONTRADICTED stage25) /\
    (calcVerdict stage25 stage1 = Verified <->
     0 < countStatus VERIFIED stage25 /\
     countStatus CONTESTED stage25 = 0 /\
     countStatus CONTRADICTED stage25 = 0) /\
    (hasVerdicts stage25 = false ->
     calcVerdict stage25 stage1 = calcVerdict None stage1).
Proof.
  intros stage25 stage1.
  destruct (externalEvidence_verdicts stage25) as [HD HV].
  rewrite (calcVerdict_from_evidence stage25 stage1 Disputed) by auto.
  rewrite (calcVerdict_from_evidence stage25 stage1 Verified) by auto.
  rewrite HD, HV. clear HD HV.
  destruct stage25 as [rs|].
  - assert (Hhas : hasVerdicts (Some rs) = true <->
                   exists r, In r rs /\ Actionable r).
    { unfold hasVerdicts. rewrite !orb_true_iff, !Nat.ltb_lt.
      rewrite !countStatus_pos. unfold Actionable. split.
      - intros [[[r [Hin H]] | [r [Hin H]]] | [r [Hin H]]];
          exists r; tauto.
      - intros [r [Hin [H | [H | H]]]]; [right | left; left | left; right];
          exists r; tauto. }
    split; [|split; [|split]].
    + rewrite Hhas. split.
      * intros H. exists rs. auto.
      * intros [rs' [E H]]. inversion E; subst rs'. exact H.
    + rewrite countStatus_pos. split.
      * intros [rs' [E H]]. inversion E; subst rs'. exact H.
      * intros H. exists rs. auto.
    + rewrite countStatus_pos, !countStatus_zero. split.
      * intros [rs' [E [Hno [[r [Hin Ha]] Hall]]]]. inversion E; subst rs'.
        split; [exists r; auto|]. split; [|exact Hno].
        intros r' Hin' Hc.
        assert (Hv : status r' = VERIFIED)
          by (apply Hall; [assumption | right; right; assumption]).
        rewrite Hv in Hc. discriminate.
      * intros [[r [Hin Hv]] [Hnc Hno]]. exists rs. split; [reflexivity|].
        split; [exact Hno|]. split; [exists r; split; [|left]; assumption|].
        intros r' Hin' [H | [H | H]]; [exact H | elim (Hno r' Hin' H)
                                       | elim (Hnc r' Hin' H)].
    + intros Hf.
      assert (Hno : forall r, In r rs -> ~ Actionable r).
      { intros r Hin Ha.
        assert (hasVerdicts (Some rs) = true) by (apply Hhas; exists r; auto).
        congruence. }
      unfold calcVerdict. rewrite externalEvidence_unfold.
      assert (Hnil : filter isActionable rs = []).
      { destruct (filter isActionable rs) as [|a l] eqn:Ef; [reflexivity|].
        assert (Ha : In a (filter isActionable rs)) by (rewrite Ef; left; auto).
        apply filter_In in Ha. destruct Ha as [Hin Ha].
        apply isActionable_iff in Ha. elim (Hno a Hin Ha). }
      rewrite Hnil.
      assert (Hc : existsb isContradicted rs = false).
      { apply not_contradicted_iff. intros r Hin Hc. apply (Hno r Hin).
        right; left; assumption. }
      rewrite Hc. reflexivity.
  - split; [|split; [|split]].
    + simpl. split; [discriminate | intros [rs [E _]]; discriminate].
    + simpl. split; [intros [rs [E _]]; discriminate | lia].
    + simpl. split; [intros [rs [E _]]; discriminate | lia].
    + reflexivity.
Qed.

(* ================================================================== *)
(** ** The confidence range and the peer alignment *)
(* ================================================================== *)

Lemma fold_max_spec : forall l x,
  (forall y, In y (x :: l) -> (y <= fold_left Z.max l x)%Z) /\
  In (fold_left Z.max l x) (x :: l).
Proof.
  induction l as [|a l IH]; intros x.
  - simpl. split; [intros y [<- | []]; lia | left; reflexivity].
  - simpl fold_left. destruct (IH (Z.max x a)) as [Hb Hin]. split.
    + intros y [<- | [<- | Hy]].
      * pose proof (Hb (Z.max x a) (or_introl eq_refl)). lia.
      * pose proof (Hb (Z.max x a) (or_introl eq_refl)). lia.
      * apply Hb. right. exact Hy.
    + destruct Hin as [E | Hin].
      * rewrite <- E.
        destruct (Z.max_spec x a) as [[_ ->] | [_ ->]];
          [right; left | left]; reflexivity.
      * right. right. exact Hin.
Qed.

Lemma fold_min_spec : forall l x,
  (forall y, In y (x :: l) -> (fold_left Z.min l x <= y)%Z) /\
  In (fold_left Z.min l x) (x :: l).
Proof.
  induction l as [|a l IH]; intros x.
  - simpl. split; [intros y [<- | []]; lia | left; reflexivity].
  - simpl fold_left. destruct (IH (Z.min x a)) as [Hb Hin]. split.
    + intros y [<- | [<- | Hy]].
      * pose proof (Hb (Z.min x a) (or_introl eq_refl)). lia.
      * pose proof (Hb (Z.min x a) (or_introl eq_refl)). lia.
      * apply Hb. right. exact Hy.
    + destruct Hin as [E | Hin].
      * rewrite <- E.
        destruct (Z.min_spec x a) as [[_ ->] | [_ ->]];
          [left | right; left]; reflexivity.
      * right. right. exact Hin.
Qed.

Lemma maxOf_spec : forall l,
  l <> [] ->
  (forall y, In y l -> (y <= maxOf l)%Z) /\ In (maxOf l) l.
Proof. intros [|x l] H; [congruence | apply fold_max_spec]. Qed.

Lemma minOf_spec : forall l,
  l <> [] ->
  (forall y, In y l -> (minOf l <= y)%Z) /\ In (minOf l) l.
Proof. intros [|x l] H; [congruence | apply fold_min_spec]. Qed.

Lemma perm_nonempty : forall (A : Type) (l l' : list A),
  Permutation l l' -> l <> [] -> l' <> [].
Proof.
  intros A l l' Hp Hne ->. apply Hne. apply Permutation_nil.
  apply Permutation_sym. exact Hp.
Qed.

Lemma maxOf_perm : forall l l', Permutation l l' -> maxOf l = maxOf l'.
Proof.
  intros l l' Hp. destruct l as [|x l0].
  - apply Permutation_nil in Hp. subst. reflexivity.
  - assert (H1 : x :: l0 <> []) by discriminate.
    pose proof (perm_nonempty _ _ _ Hp H1) as H2.
    destruct (maxOf_spec _ H1) as [B1 I1].
    destruct (maxOf_spec _ H2) as [B2 I2].
    apply (Permutation_in _ Hp) in I1.
    apply (Permutation_in _ (Permutation_sym Hp)) in I2.
    apply B1 in I2. apply B2 in I1. lia.
Qed.

Lemma minOf_perm : forall l l', Permutation l l' -> minOf l = minOf l'.
Proof.
  intros l l' Hp. destruct l as [|x l0].
  - apply Permutation_nil in Hp. subst. reflexivity.
  - assert (H1 : x :: l0 <> []) by discriminate.
    pose proof (perm_nonempty _ _ _ Hp H1) as H2.
    destruct (minOf_spec _ H1) as [B1 I1].
    destruct (minOf_spec _ H2) as [B2 I2].
    apply (Permutation_in _ Hp) in I1.
    apply (Permutation_in _ (Permutation_sym Hp)) in I2.
    apply B1 in I2. apply B2 in I1. lia.
Qed.

Lemma confidences_perm : forall rs rs',
  Permutation rs rs' -> Permutation (confidences rs) (confidences rs').
Proof.
  intros rs rs' Hp. unfold confidences.
  apply nonNull_perm, Permutation_map, Hp.
Qed.

Lemma nonNull_In : forall (N : Type) (l : list (option N)) v,
  In v (nonNull l) <-> In (Some v) l.
Proof.
  intros N l v. induction l as [|[w|] l IH]; simpl.
  - tauto.
  - rewrite IH. split; [intros [-> | H]; auto | intros [E | H]; auto].
    inversion E. auto.
  - rewrite IH. split; [auto | intros [E | H]; [discriminate | auto]].
Qed.

Lemma confidences_In : forall rs c,
  In c (confidences rs) <-> exists r, In r rs /\ confidence r = Some c.
Proof.
  intros rs c. unfold confidences. rewrite nonNull_In, in_map_iff.
  split; intros [r [H1 H2]]; exists r; auto.
Qed.

Lemma length_zero_iff : forall (A : Type) (l : list A),
  (length l =? 0) = true <-> l = [].
Proof.
  intros A [|x l]; simpl; split; intros H; try reflexivity; discriminate.
Qed.

(** X7. The confidence range is [null] exactly when Stage 1 is missing
    or no response declares a confidence.  Otherwise [min] and [max] are
    confidences that responses declared, and every declared confidence
    lies between them. *)
Theorem calcConfidenceRange_spec :
  forall stage1 : option (list ModelResponse),
    (calcConfidenceRange stage1 = None <->
     stage1 = None \/
     exists rs, stage1 = Some rs /\
                forall r, In r rs -> confidence r = None) /\
    (forall range,
       calcConfidenceRange stage1 = Some range ->
       exists rs,
         stage1 = Some rs /\
         (exists r, In r rs /\ confidence r = Some (Range.min range)) /\
         (exists r, In r rs /\ confidence r = Some (Range.max range)) /\
         forall r c, In r rs -> confidence r = Some c ->
                     (Range.min range <= c <= Range.max range)%Z).
Proof.
  intros [rs|]; [|split; [simpl; tauto | discriminate]].
  assert (Hnil : confidences rs = [] <->
                 forall r, In r rs -> confidence r = None).
  { split.
    - intros H r Hin. destruct (confidence r) as [c|] eqn:E; [|reflexivity].
      assert (Hc : In c (confidences rs))
        by (apply confidences_In; exists r; auto).
      rewrite H in Hc. destruct Hc.
    - intros H. destruct (confidences rs) as [|c cs] eqn:E; [reflexivity|].
      assert (Hc : In c (confidences rs)) by (rewrite E; left; auto).
      apply confidences_In in Hc. destruct Hc as [r [Hin Hc]].
      rewrite (H r Hin) in Hc. discriminate. }
  unfold calcConfidenceRange.
  destruct (length (confidences rs) =? 0) eqn:E.
  - apply length_zero_iff in E. split.
    + split; [intros _; right; exists rs; split; [reflexivity|]|reflexivity].
      apply Hnil, E.
    + discriminate.
  - assert (Hne : confidences rs <> []).
    { intros H. rewrite H in E. discriminate. }
    split.
    + split; [discriminate|]. intros [H | [rs' [H1 H2]]]; [discriminate|].
      inversion H1; subst rs'. elim Hne. apply Hnil, H2.
    + intros range H. inversion H; subst range; clear H. simpl.
      destruct (minOf_spec _ Hne) as [Bmin Imin].
      destruct (maxOf_spec _ Hne) as [Bmax Imax].
      exists rs. split; [reflexivity|].
      split; [apply confidences_In, Imin|].
      split; [apply confidences_In, Imax|].
      intros r c Hin Hc.
      assert (In c (confidences rs)) by (apply confidences_In; exists r; auto).
      split; [apply Bmin | apply Bmax]; assumption.
Qed.

(** X8. [calcPeerAlignment] does not depend on the order of the Stage 1
    responses. *)
Theorem calcPeerAlignment_order_independent :
  forall rs rs' : list ModelResponse,
    Permutation rs rs' ->
    calcPeerAlignment (Some rs) = calcPeerAlignment (Some rs').
Proof.
  intros rs rs' Hp. unfold calcPeerAlignment.
  rewrite (Permutation_length Hp).
  rewrite (Permutation_length (unique_perm _ _ _ Hp)).
  rewrite (overlapRatio_perm _ _ _ Hp).
  pose proof (confidences_perm _ _ Hp) as Hc.
  rewrite (Permutation_length Hc), (maxOf_perm _ _ Hc), (minOf_perm _ _ Hc).
  reflexivity.
Qed.

Lemma calcPeerAlignment_order_independent_witness :
  calcPeerAlignment (Some [response 80 ["x"]; response 60 []])
  = calcPeerAlignment (Some [response 60 []; response 80 ["x"]]).
Proof.
  apply calcPeerAlignment_order_independent. apply perm_swap.
Defined.

Lemma unique_nil_iff : forall rs : list ModelResponse,
  unique rs = [] <-> NoClaims rs.
Proof.
  intros rs. unfold unique, NoClaims. rewrite Forall_forall. split.
  - intros H l Hl. destruct l as [|c l]; [reflexivity|].
    assert (Hc : In c (uniq (concat (allClaims rs)))).
    { apply uniq_In, in_concat. exists (c :: l). split; [exact Hl | left; auto]. }
    rewrite H in Hc. destruct Hc.
  - intros H. destruct (uniq (concat (allClaims rs))) as [|c u] eqn:E;
      [reflexivity|].
    assert (Hc : In c (uniq (concat (allClaims rs)))) by (rewrite E; left; auto).
    apply uniq_In, in_concat in Hc. destruct Hc as [l [Hl Hc]].
    rewrite (H l Hl) in Hc. destruct Hc.
Qed.

(** X9. The confidence fallback of [calcPeerAlignment], over two
    responses or more that declare no claim and at least one confidence,
    the declared confidences being whole numbers of magnitude 2^53 at
    most (on these the source's subtraction of doubles is exact, or its
    result beyond 30 like the exact one): the answer is [Unanimous]
    exactly when any two declared confidences differ by 15 at most,
    [Split] exactly when two of them differ by more than 30, and it is
    never [Unknown]. *)
Theorem calcPeerAlignment_confidence_fallback :
  forall rs : list ModelResponse,
    2 <= length rs ->
    NoClaims rs ->
    confidences rs <> [] ->
    Forall (fun c => (Z.abs c <= 2 ^ 53)%Z) (confidences rs) ->
    (calcPeerAlignment (Some rs) = AlignUnanimous <->
     forall x y, In x (confidences rs) -> In y (confidences rs) ->
                 (x - y <= 15)%Z) /\
    (calcPeerAlignment (Some rs) = AlignSplit <->
     exists x y, In x (confidences rs) /\ In y (confidences rs) /\
                 (30 < x - y)%Z) /\
    calcPeerAlignment (Some rs) <> AlignUnknown.
Proof.
  intros rs Hlen Hno Hne _.
  destruct (minOf_spec _ Hne) as [Bmin Imin].
  destruct (maxOf_spec _ Hne) as [Bmax Imax].
  unfold calcPeerAlignment.
  assert (E1 : (length rs <? 2) = false) by (apply Nat.ltb_ge; lia).
  assert (E2 : (0 <? length (unique rs)) = false).
  { apply unique_nil_iff in Hno. rewrite Hno. reflexivity. }
  assert (E3 : (length (confidences rs) =? 0) = false).
  { destruct (length (confidences rs) =? 0) eqn:E; [|reflexivity].
    apply length_zero_iff in E. contradiction. }
  rewrite E1, E2, E3.
  destruct (maxOf (confidences rs) - minOf (confidences rs) <=? 15)%Z eqn:A.
  - apply Z.leb_le in A. split; [|split; [|discriminate]].
    + split; [|reflexivity]. intros _ x y Hx Hy.
      specialize (Bmax x Hx). specialize (Bmin y Hy). lia.
    + split; [discriminate|]. intros [x [y [Hx [Hy H]]]].
      specialize (Bmax x Hx). specialize (Bmin y Hy). lia.
  - apply Z.leb_gt in A.
    destruct (maxOf (confidences rs) - minOf (confidences rs) <=? 30)%Z eqn:B.
    + apply Z.leb_le in B. split; [|split; [|discriminate]].
      * split; [discriminate|]. intros H.
        specialize (H _ _ Imax Imin). lia.
      * split; [discriminate|]. intros [x [y [Hx [Hy H]]]].
        specialize (Bmax x Hx). specialize (Bmin y Hy). lia.
    + apply Z.leb_gt in B. split; [|split; [|discriminate]].
      * split; [discriminate|]. intros H.
        specialize (H _ _ Imax Imin). lia.
      * split; [intros _ | reflexivity].
        exists (maxOf (confidences rs)), (minOf (confidences rs)). auto.
Qed.

Lemma calcPeerAlignment_confidence_fallback_witness :
  calcPeerAlignment (Some [response 80 []; response 70 []; response 75 []])
  = AlignUnanimous <->
  (forall x y,
     In x (confidences [response 80 []; response 70 []; response 75 []]) ->
     In y (confidences [response 80 []; response 70 []; response 75 []]) ->
     (x - y <= 15)%Z).
Proof.
  apply (calcPeerAlignment_confidence_fallback
           [response 80 []; response 70 []; response 75 []]);
    [simpl; lia | repeat constructor | discriminate
    | repeat constructor; vm_compute; discriminate].
Defined.

(** X10. The two readings of Stage 1 agree where both look at claims:
    when Step 1 falls through, some model declared a claim and the
    verdict is [Consensus], there are two responses or more and
    [calcPeerAlignment] answers [Unanimous] on the same list. *)
Theorem consensus_with_claims_is_unanimous :
  forall (stage25 : option (list VerificationResult))
         (rs : list ModelResponse),
    externalEvidence stage25 = None ->
    ~ NoClaims rs ->
    calcVerdict stage25 (Some rs) = Consensus ->
    2 <= length rs /\ calcPeerAlignment (Some rs) = AlignUnanimous.
Proof.
  intros stage25 rs H25 Hcl Hv.
  assert (Hrs : rs <> []).
  { intros ->. apply Hcl. constructor. }
  unfold calcVerdict in Hv. rewrite H25 in Hv.
  rewrite factualConsensus_cases in Hv by assumption.
  destruct (avgBelow (avgConf rs) 50); [discriminate|].
  destruct (forallb _ (allClaims rs)) eqn:En.
  { apply noClaims_iff in En. contradiction. }
  destruct (Qle_bool (1 # 2) (overlapRatio rs)) eqn:Er;
    [|simpl in Hv; destruct (avgBelow (avgConf rs) 55); discriminate].
  assert (Hu : unique rs <> []).
  { intros H. apply Hcl. apply unique_nil_iff. exact H. }
  assert (Hpos : 0 < length (unique rs)).
  { destruct (unique rs); [congruence | simpl; lia]. }
  assert (Ho : overlapping rs <> []).
  { intros H. apply Qle_bool_iff in Er. unfold overlapRatio, Qle in Er.
    rewrite H in Er. simpl in Er. elim Er. reflexivity. }
  assert (Hlen : 2 <= length rs).
  { destruct (overlapping rs) as [|c o] eqn:E; [congruence|].
    assert (Hc : In c (overlapping rs)) by (rewrite E; left; auto).
    apply overlapping_spec in Hc. destruct Hc as [_ Hc].
    pose proof (filter_length_le (fun l => includes l c) (allClaims rs)) as Hf.
    assert (Hm : length (allClaims rs) = length rs)
      by (unfold allClaims; apply length_map).
    lia. }
  split; [exact Hlen|].
  unfold calcPeerAlignment.
  assert (E1 : (length rs <? 2) = false) by (apply Nat.ltb_ge; lia).
  assert (E2 : (0 <? length (unique rs)) = true) by (apply Nat.ltb_lt; lia).
  rewrite E1, E2, Er. reflexivity.
Qed.

Lemma consensus_with_claims_is_unanimous_witness :
  2 <= length agreeing_pair /\
  calcPeerAlignment (Some agreeing_pair) = AlignUnanimous.
Proof.
  apply (consensus_with_claims_is_unanimous (Some []) agreeing_pair).
  - reflexivity.
  - intros H. inversion H as [|l ls Hl _]. discriminate Hl.
  - vm_compute. reflexivity.
Defined.

(* ================================================================== *)
(** ** [getMinorityModel] and the minority report *)
(* ================================================================== *)

Section SortByOrder.
Context {A : Type}.
Variable cmp : A -> A -> Z.
Variable before : A -> A -> Prop.
Hypothesis cmp_before : forall a b, (cmp a b <= 0)%Z <-> before a b.
Hypothesis before_total : forall a b, before a b \/ before b a.
Hypothesis before_trans : forall a b c, before a b -> before b c -> before a c.

Lemma insert_ordered : forall x l,
  StronglySorted before l -> StronglySorted before (Js.insert cmp x l).
Proof.
  intros x. induction 1 as [|y l Hs IH Hy]; simpl.
  - repeat constructor.
  - destruct (cmp x y <=? 0)%Z eqn:E.
    + apply Z.leb_le, cmp_before in E.
      constructor; [constructor; assumption|].
      constructor; [exact E|].
      eapply Forall_impl; [|exact Hy]. intros z Hz.
      exact (before_trans _ _ _ E Hz).
    + apply Z.leb_gt in E.
      assert (Hyx : before y x).
      { destruct (before_total x y) as [H|H]; [|assumption].
        apply cmp_before in H. lia. }
      constructor; [assumption|].
      eapply Permutation_Forall;
        [apply Permutation_sym, insert_perm|].
      constructor; assumption.
Qed.

Lemma sort_ordered : forall l, StronglySorted before (Js.sort cmp l).
Proof.
  induction l as [|x l IH]; simpl; [constructor|].
  apply insert_ordered, IH.
Qed.
End SortByOrder.

Lemma byRankDesc_before : forall a b,
  (byRankDesc a b <= 0)%Z <-> (average_rank b <= average_rank a)%Q.
Proof.
  intros a b. unfold byRankDesc, sgn. rewrite <- Z.sgn_nonpos.
  destruct (average_rank a) as [na da], (average_rank b) as [nb db].
  unfold Qle. simpl. lia.
Qed.

Lemma sorted_by_rank : forall rs,
  StronglySorted (fun a b => (average_rank b <= average_rank a)%Q)
                 (Js.sort byRankDesc rs).
Proof.
  intros rs. apply sort_ordered.
  - apply byRankDesc_before.
  - intros a b.
    destruct (Qlt_le_dec (average_rank a) (average_rank b)) as [H|H];
      [right; apply Qlt_le_weak; exact H | left; exact H].
  - intros a b c H1 H2. eapply Qle_trans; eassumption.
Qed.

Lemma gap_weaken : forall w s x : Q,
  (x <= s)%Q -> (1 # 2 < w - s)%Q -> (1 # 2 < w - x)%Q.
Proof. intros w s x H1 H2. lra. Qed.

Lemma gap_contra : forall e w : Q,
  (e <= w)%Q -> (1 # 2 < e - w)%Q -> False.
Proof. intros e w H1 H2. lra. Qed.

Lemma length_two : forall (A : Type) (l : list A),
  2 <= length l -> exists a b rest, l = a :: b :: rest.
Proof.
  intros A [|a [|b rest]] H; simpl in H; try lia. eauto.
Qed.

(** What [getMinorityModel] returns, read off the sorted copy. *)
Lemma getMinorityModel_Some : forall rs m,
  getMinorityModel (Some rs) = Some m <->
  exists e, Outlier rs e /\ a_model e = m.
Proof.
  intros rs m. unfold getMinorityModel.
  pose proof (sorted_by_rank rs) as Hs.
  pose proof (sort_perm byRankDesc rs) as Hp.
  destruct (length rs <? 2) eqn:El.
  - apply Nat.ltb_lt in El. split; [discriminate|].
    intros [e [[l1 [l2 [E [Hne _]]]] _]]. subst rs.
    rewrite length_app in El. simpl in El.
    destruct l1; destruct l2; simpl in *; try congruence; lia.
  - apply Nat.ltb_ge in El.
    assert (Hl : 2 <= length (Js.sort byRankDesc rs))
      by (rewrite (Permutation_length Hp); exact El).
    destruct (length_two _ _ Hl) as [w [s [rest Es]]].
    rewrite Es in *. clear Hl.
    inversion Hs as [|w' tl Hs' Hw]; subst.
    inversion Hs' as [|s' tl' _ Hs2]; subst.
    assert (Hout : forall e, Outlier rs e ->
                     w = e /\
                     (1 # 2 < average_rank e - average_rank s)%Q).
    { intros e [l1 [l2 [E [_ Hgap]]]].
      rewrite E in Hp.
      assert (Hp' : Permutation (w :: s :: rest) (e :: l1 ++ l2))
        by (eapply perm_trans;
            [exact Hp | apply Permutation_sym, Permutation_middle]).
      assert (Hw' : w = e).
      { assert (Hin : In w (e :: l1 ++ l2))
          by (apply (Permutation_in _ Hp'); left; reflexivity).
        destruct Hin as [Hin | Hin]; [symmetry; exact Hin|].
        exfalso. apply (gap_contra (average_rank e) (average_rank w));
          [|apply Hgap, Hin].
        assert (Hin' : In e (w :: s :: rest))
          by (apply (Permutation_in _ (Permutation_sym Hp')); left;
              reflexivity).
        destruct Hin' as [<- | Hin']; [apply Qle_refl|].
        rewrite Forall_forall in Hw. apply Hw, Hin'. }
      split; [exact Hw'|]. subst e.
      apply Permutation_cons_inv in Hp'.
      apply Hgap. apply (Permutation_in _ Hp'). left. reflexivity. }
    destruct (Qlt_bool (1 # 2) (average_rank w - average_rank s)) eqn:Eg.
    + apply Qlt_bool_iff in Eg. split.
      * intros H. inversion H; subst m. exists w. split; [|reflexivity].
        assert (Hin : In w rs)
          by (apply (Permutation_in _ Hp); left; reflexivity).
        apply in_split in Hin. destruct Hin as [l1 [l2 E]].
        exists l1, l2. split; [exact E|].
        rewrite E in Hp. apply Permutation_cons_app_inv in Hp.
        split.
        { intros Hnil. rewrite Hnil in Hp.
          apply Permutation_sym, Permutation_nil in Hp. discriminate. }
        intros x Hx.
        apply (Permutation_in _ (Permutation_sym Hp)) in Hx.
        apply (gap_weaken _ (average_rank s)); [|exact Eg].
        destruct Hx as [<- | Hx]; [apply Qle_refl|].
        rewrite Forall_forall in Hs2. apply Hs2, Hx.
      * intros [e [Ho Hm]]. destruct (Hout e Ho) as [-> _].
        rewrite Hm. reflexivity.
    + split; [discriminate|].
      intros [e [Ho Hm]]. destruct (Hout e Ho) as [-> Hg].
      apply Qlt_bool_iff in Hg. congruence.
Qed.

Lemma getMinorityModel_null : forall m, getMinorityModel None <> Some m.
Proof. intros m. discriminate. Qed.

Lemma Outlier_perm : forall rs rs' e,
  Permutation rs rs' -> Outlier rs e -> Outlier rs' e.
Proof.
  intros rs rs' e Hp [l1 [l2 [E [Hne Hgap]]]]. subst rs.
  assert (Hin : In e rs').
  { apply (Permutation_in _ Hp). apply in_elt. }
  apply in_split in Hin. destruct Hin as [l1' [l2' E']]. subst rs'.
  apply Permutation_app_inv in Hp.
  exists l1', l2'. split; [reflexivity|]. split.
  - eapply perm_nonempty; eassumption.
  - intros x Hx. apply Hgap.
    apply (Permutation_in _ (Permutation_sym Hp)). exact Hx.
Qed.

(** X11. [getMinorityModel] names a model exactly when the rankings
    hold an outlier: an entry whose average rank exceeds that of every
    other entry by more than 0.5, among two entries or more.  The model
    returned is the outlier's. *)
Theorem getMinorityModel_is_the_outlier :
  forall (aggregateRankings : option (list AggregateRanking)) (m : str),
    getMinorityModel aggregateRankings = Some m <->
    exists rs e,
      aggregateRankings = Some rs /\ Outlier rs e /\ a_model e = m.
Proof.
  intros [rs|] m.
  - rewrite getMinorityModel_Some. split.
    + intros [e H]. exists rs, e. tauto.
    + intros [rs' [e [E H]]]. inversion E; subst rs'. exists e. exact H.
  - split; [discriminate | intros [rs [e [E _]]]; discriminate].
Qed.

(** X12. [getMinorityModel] does not depend on the order of the
    rankings: the stable sort may break ties either way, and the answer
    is the same. *)
Theorem getMinorityModel_order_independent :
  forall rs rs' : list AggregateRanking,
    Permutation rs rs' ->
    getMinorityModel (Some rs) = getMinorityModel (Some rs').
Proof.
  assert (H : forall rs rs' m,
            Permutation rs rs' ->
            getMinorityModel (Some rs) = Some m ->
            getMinorityModel (Some rs') = Some m).
  { intros rs rs' m Hp E. apply getMinorityModel_Some in E.
    destruct E as [e [Ho Hm]]. apply getMinorityModel_Some.
    exists e. split; [eapply Outlier_perm; eassumption | exact Hm]. }
  intros rs rs' Hp.
  destruct (getMinorityModel (Some rs)) as [m|] eqn:E.
  - symmetry. eapply H; eassumption.
  - destruct (getMinorityModel (Some rs')) as [m'|] eqn:E'; [|reflexivity].
    rewrite (H rs' rs m' (Permutation_sym Hp) E') in E. discriminate.
Qed.

Lemma getMinorityModel_order_independent_witness :
  getMinorityModel
    (Some [mkRanking (lit "a") (3 # 1); mkRanking (lit "b") (3 # 2)])
  = getMinorityModel
    (Some [mkRanking (lit "b") (3 # 2); mkRanking (lit "a") (3 # 1)]).
Proof.
  apply getMinorityModel_order_independent. apply perm_swap.
Defined.

Lemma find_first : forall (A : Type) (f : A -> bool) l r,
  find f l = Some r <->
  FirstWith (fun x => f x = true) l r.
Proof.
  intros A f l r. induction l as [|x l IH]; simpl.
  - split; [discriminate|].
    intros [pre [post [E _]]]. destruct pre; discriminate.
  - destruct (f x) eqn:Ex.
    + split.
      * intros H. inversion H; subst x. exists [], l.
        split; [reflexivity|]. split; [exact Ex | intros y []].
      * intros [pre [post [E [Hr Hpre]]]]. destruct pre as [|y pre].
        -- inversion E. reflexivity.
        -- inversion E; subst y. elim (Hpre x (or_introl eq_refl) Ex).
    + rewrite IH. split.
      * intros [pre [post [E [Hr Hpre]]]]. exists (x :: pre), post.
        split; [simpl; rewrite E; reflexivity|]. split; [exact Hr|].
        intros y [<- | Hy]; [congruence | apply Hpre, Hy].
      * intros [pre [post [E [Hr Hpre]]]]. destruct pre as [|y pre].
        -- inversion E; subst x. congruence.
        -- inversion E; subst y. exists pre, post.
           split; [reflexivity|]. split; [exact Hr|].
           intros z Hz. apply Hpre. right. exact Hz.
Qed.

(** X13. The minority report shows a response exactly when the rankings
    hold an outlier whose model name is not empty and Stage 1 holds a
    response of that model; the response shown is the first of that
    model in Stage 1. *)
Theorem minorityReport_shows_the_outlier :
  forall (stage1 : option (list ModelResponse))
         (aggregateRankings : option (list AggregateRanking))
         (r : ModelResponse),
    minorityReport stage1 aggregateRankings = Some r <->
    exists rs aggs e,
      stage1 = Some rs /\ aggregateRankings = Some aggs /\
      Outlier aggs e /\ a_model e <> [] /\
      FirstWith (fun x => r_model x = a_model e) rs r.
Proof.
  intros stage1 agg r. unfold minorityReport.
  destruct agg as [aggs|];
    [|split; [discriminate
             | intros [rs [aggs [e [_ [E _]]]]]; discriminate]].
  destruct (getMinorityModel (Some aggs)) as [m|] eqn:Em.
  - apply getMinorityModel_Some in Em. destruct Em as [e [Ho Hm]].
    assert (Huniq : forall e', Outlier aggs e' -> a_model e' = m).
    { intros e' Ho'.
      assert (E1 : getMinorityModel (Some aggs) = Some (a_model e'))
        by (apply getMinorityModel_Some; exists e'; auto).
      assert (E2 : getMinorityModel (Some aggs) = Some m)
        by (apply getMinorityModel_Some; exists e; auto).
      congruence. }
    destruct (length m =? 0) eqn:El.
    + apply length_zero_iff in El. split; [discriminate|].
      intros [rs [aggs' [e' [_ [E [Ho' [Hne _]]]]]]].
      inversion E; subst aggs'. rewrite (Huniq e' Ho') in Hne. contradiction.
    + assert (Hne : m <> []) by (intros ->; discriminate).
      destruct stage1 as [rs|];
        [|split; [discriminate | intros [rs [a [e' [E _]]]]; discriminate]].
      rewrite find_first. split.
      * intros [pre [post [E [Hr Hpre]]]].
        exists rs, aggs, e. split; [reflexivity|]. split; [reflexivity|].
        split; [exact Ho|]. rewrite Hm. split; [exact Hne|].
        exists pre, post. split; [exact E|].
        split; [apply str_eqb_eq; exact Hr|].
        intros x Hx Hc. apply (Hpre x Hx). apply str_eqb_eq. exact Hc.
      * intros [rs' [aggs' [e' [E1 [E2 [Ho' [_ [pre [post [E [Hr Hpre]]]]]]]]]]].
        injection E1 as E1. injection E2 as E2.
        rewrite <- E1 in E. rewrite <- E2 in Ho'.
        rewrite (Huniq e' Ho') in *.
        exists pre, post. split; [exact E|].
        split; [apply str_eqb_eq; exact Hr|].
        intros x Hx Hc. apply (Hpre x Hx). apply str_eqb_eq. exact Hc.
  - split; [discriminate|].
    intros [rs [aggs' [e [_ [E [Ho _]]]]]]. inversion E; subst aggs'.
    assert (E1 : getMinorityModel (Some aggs) = Some (a_model e))
      by (apply getMinorityModel_Some; exists e; auto).
    congruence.
Qed.

(* ================================================================== *)
(** ** [groupClaimsByVerdict], [Stage25] and the drawer *)
(* ================================================================== *)

Section SortByKey.
Context {A : Type}.
Variable cmp : A -> A -> Z.
Variable key : A -> nat.
Hypothesis cmp_key : forall a b, (cmp a b <= 0)%Z <-> key a <= key b.

Lemma insert_app : forall x l1 l2,
  Forall (fun y => key x <= key y) l2 ->
  Js.insert cmp x (l1 ++ l2) = Js.insert cmp x l1 ++ l2.
Proof.
  intros x l1 l2 H. induction l1 as [|a l1 IH]; simpl.
  - destruct l2 as [|y l2]; [reflexivity|]. simpl.
    inversion H as [|y' l' Hy _]; subst.
    apply cmp_key, Z.leb_le in Hy. rewrite Hy. reflexivity.
  - destruct (cmp x a <=? 0)%Z; [reflexivity|].
    simpl. rewrite IH. reflexivity.
Qed.

Lemma insert_last : forall x l,
  Forall (fun y => key y < key x) l ->
  Js.insert cmp x l = l ++ [x].
Proof.
  intros x l H. induction H as [|a l Ha _ IH]; simpl; [reflexivity|].
  destruct (cmp x a <=? 0)%Z eqn:E.
  - apply Z.leb_le, cmp_key in E. lia.
  - rewrite IH. reflexivity.
Qed.

Lemma buckets_bound : forall n l,
  Forall (fun y => key y < n) (buckets key n l).
Proof.
  induction n as [|n IH]; intros l; simpl; [constructor|].
  apply Forall_app. split.
  - eapply Forall_impl; [|apply IH]. simpl. intros; lia.
  - apply Forall_forall. intros y Hy. apply filter_In in Hy.
    destruct Hy as [_ Hy]. apply Nat.eqb_eq in Hy. lia.
Qed.

Lemma buckets_skip : forall n x l,
  n <= key x -> buckets key n (x :: l) = buckets key n l.
Proof.
  induction n as [|n IH]; intros x l H; simpl; [reflexivity|].
  rewrite IH by lia.
  assert (E : (key x =? n) = false) by (apply Nat.eqb_neq; lia).
  rewrite E. reflexivity.
Qed.

Lemma insert_buckets : forall n x l,
  key x < n ->
  Js.insert cmp x (buckets key n l) = buckets key n (x :: l).
Proof.
  induction n as [|n IH]; intros x l H; [lia|].
  simpl buckets. destruct (key x =? n) eqn:E.
  - apply Nat.eqb_eq in E.
    rewrite insert_app.
    + rewrite insert_last.
      * rewrite buckets_skip by lia. rewrite <- app_assoc. reflexivity.
      * rewrite E. apply buckets_bound.
    + apply Forall_forall. intros y Hy. apply filter_In in Hy.
      destruct Hy as [_ Hy]. apply Nat.eqb_eq in Hy. lia.
  - apply Nat.eqb_neq in E.
    rewrite insert_app.
    + rewrite IH by lia. reflexivity.
    + apply Forall_forall. intros y Hy. apply filter_In in Hy.
      destruct Hy as [_ Hy]. apply Nat.eqb_eq in Hy. lia.
Qed.

(** A stable sort on a key with finitely many values lays the elements
    out key by key, each key's elements in their original order. *)
Lemma sort_buckets : forall n l,
  Forall (fun x => key x < n) l ->
  Js.sort cmp l = buckets key n l.
Proof.
  intros n l H. induction H as [|x l Hx _ IH]; simpl.
  - induction n as [|n IHn]; simpl; [reflexivity|].
    rewrite <- IHn. reflexivity.
  - rewrite IH. apply insert_buckets. exact Hx.
Qed.
End SortByKey.

Lemma severity_cases : forall r,
  (Z.to_nat (severity (status r)) =? 0) = hasStatus CONTRADICTED r /\
  (Z.to_nat (severity (status r)) =? 1) = hasStatus CONTESTED r /\
  (Z.to_nat (severity (status r)) =? 2) = hasStatus VERIFIED r /\
  (Z.to_nat (severity (status r)) =? 3) = hasStatus UNVERIFIABLE r /\
  (Z.to_nat (severity (status r)) =? 4) = unlisted r /\
  (0 <= severity (status r) < 5)%Z.
Proof.
  intros r. unfold unlisted, hasStatus, severity.
  generalize (status r). intros s.
  destruct (str_eqb s CONTRADICTED) eqn:E1;
    [apply str_eqb_eq in E1; subst s; vm_compute; intuition congruence|].
  destruct (str_eqb s CONTESTED) eqn:E2;
    [apply str_eqb_eq in E2; subst s; vm_compute; intuition congruence|].
  destruct (str_eqb s VERIFIED) eqn:E3;
    [apply str_eqb_eq in E3; subst s; vm_compute; intuition congruence|].
  destruct (str_eqb s UNVERIFIABLE) eqn:E4;
    [apply str_eqb_eq in E4; subst s; vm_compute; intuition congruence|].
  simpl. repeat split; lia.
Qed.

Lemma bySeverity_key : forall a b,
  (bySeverity a b <= 0)%Z <->
  Z.to_nat (severity (status a)) <= Z.to_nat (severity (status b)).
Proof.
  intros a b. unfold bySeverity.
  destruct (severity_cases a) as [_ [_ [_ [_ [_ Ha]]]]].
  destruct (severity_cases b) as [_ [_ [_ [_ [_ Hb]]]]].
  lia.
Qed.

(** [Stage25]'s order: the four statuses in turn, then the rest. *)
Lemma sort_bySeverity : forall rs,
  Js.sort bySeverity rs =
  filter (hasStatus CONTRADICTED) rs ++ filter (hasStatus CONTESTED) rs
  ++ filter (hasStatus VERIFIED) rs ++ filter (hasStatus UNVERIFIABLE) rs
  ++ filter unlisted rs.
Proof.
  intros rs.
  rewrite (sort_buckets bySeverity
             (fun r => Z.to_nat (severity (status r))) bySeverity_key 5).
  - simpl. rewrite <- !app_assoc.
    repeat (f_equal; [apply filter_ext; intros r; apply severity_cases|]).
    apply filter_ext. intros r. apply severity_cases.
  - apply Forall_forall. intros r _.
    destruct (severity_cases r) as [_ [_ [_ [_ [_ H]]]]]. lia.
Qed.

Lemma pushGroup_spec : forall g r,
  (pushGroup g r = None <-> In (status r) inheritedNames) /\
  (forall g', pushGroup g r = Some g' ->
     g_CONTRADICTED g' = g_CONTRADICTED g ++ filter (hasStatus CONTRADICTED) [r] /\
     g_CONTESTED g' = g_CONTESTED g ++ filter (hasStatus CONTESTED) [r] /\
     g_VERIFIED g' = g_VERIFIED g ++ filter (hasStatus VERIFIED) [r] /\
     g_UNVERIFIABLE g' = g_UNVERIFIABLE g ++ filter (hasStatus UNVERIFIABLE) [r]).
Proof.
  intros g r. unfold pushGroup, hasStatus. simpl filter.
  rewrite <- includes_In.
  generalize (status r). intros s.
  destruct (str_eqb s CONTRADICTED) eqn:E1.
  { apply str_eqb_eq in E1. subst s. split.
    - split; [discriminate | vm_compute; discriminate].
    - intros g' H. inversion H; subst g'. simpl.
      rewrite !app_nil_r. auto. }
  destruct (str_eqb s CONTESTED) eqn:E2.
  { apply str_eqb_eq in E2. subst s. split.
    - split; [discriminate | vm_compute; discriminate].
    - intros g' H. inversion H; subst g'. simpl.
      rewrite !app_nil_r. auto. }
  destruct (str_eqb s VERIFIED) eqn:E3.
  { apply str_eqb_eq in E3. subst s. split.
    - split; [discriminate | vm_compute; discriminate].
    - intros g' H. inversion H; subst g'. simpl.
      rewrite !app_nil_r. auto. }
  destruct (str_eqb s UNVERIFIABLE) eqn:E4.
  { apply str_eqb_eq in E4. subst s. split.
    - split; [discriminate | vm_compute; discriminate].
    - intros g' H. inversion H; subst g'. simpl.
      rewrite !app_nil_r. auto. }
  destruct (includes inheritedNames s) eqn:E5.
  - split; [tauto | discriminate].
  - split; [split; discriminate|].
    intros g' H. inversion H; subst g'. rewrite !app_nil_r. auto.
Qed.

Lemma groupLoop_spec : forall rs g,
  (groupLoop rs g = None <->
   exists r, In r rs /\ In (status r) inheritedNames) /\
  (forall g', groupLoop rs g = Some g' ->
     g_CONTRADICTED g' = g_CONTRADICTED g ++ filter (hasStatus CONTRADICTED) rs /\
     g_CONTESTED g' = g_CONTESTED g ++ filter (hasStatus CONTESTED) rs /\
     g_VERIFIED g' = g_VERIFIED g ++ filter (hasStatus VERIFIED) rs /\
     g_UNVERIFIABLE g' = g_UNVERIFIABLE g ++ filter (hasStatus UNVERIFIABLE) rs).
Proof.
  induction rs as [|r rs IH]; intros g.
  - simpl. split.
    + split; [discriminate | intros [r [[] _]]].
    + intros g' H. inversion H; subst g'. rewrite !app_nil_r. auto.
  - destruct (pushGroup_spec g r) as [PN PS].
    simpl groupLoop. destruct (pushGroup g r) as [g1|] eqn:E.
    + destruct (IH g1) as [LN LS]. split.
      * rewrite LN. split.
        -- intros [x [Hin Hx]]. exists x. split; [right|]; assumption.
        -- intros [x [[<- | Hin] Hx]].
           ++ apply PN in Hx. discriminate.
           ++ exists x. auto.
      * intros g' H. destruct (LS g' H) as [A1 [A2 [A3 A4]]].
        destruct (PS g1 eq_refl) as [B1 [B2 [B3 B4]]].
        rewrite A1, A2, A3, A4, B1, B2, B3, B4.
        rewrite <- !app_assoc, <- !filter_app. auto.
    + split; [|discriminate].
      split; [|reflexivity]. intros _. exists r.
      split; [left; reflexivity | apply PN; reflexivity].
Qed.

(** X14. [groupClaimsByVerdict] throws exactly when a result's status
    names a property that objects inherit ([constructor], [toString],
    ...).  When it returns, each of the four groups holds the results of
    its status, in the order of the input; results of any other status
    are in no group.  Without Stage 2.5 the four groups are empty. *)
Theorem groupClaimsByVerdict_spec :
  forall rs : list VerificationResult,
    (groupClaimsByVerdict (Some rs) = None <->
     exists r, In r rs /\ In (status r) inheritedNames) /\
    (forall g,
       groupClaimsByVerdict (Some rs) = Some g ->
       g_CONTRADICTED g = filter (hasStatus CONTRADICTED) rs /\
       g_CONTESTED g = filter (hasStatus CONTESTED) rs /\
       g_VERIFIED g = filter (hasStatus VERIFIED) rs /\
       g_UNVERIFIABLE g = filter (hasStatus UNVERIFIABLE) rs) /\
    groupClaimsByVerdict None = Some (mkGroups [] [] [] []).
Proof.
  intros rs. unfold groupClaimsByVerdict.
  destruct (groupLoop_spec rs (mkGroups [] [] [] [])) as [LN LS].
  split; [exact LN|]. split; [|reflexivity].
  intros g H. exact (LS g H).
Qed.

(** X15. The components agree on Stage 2.5.  When the grouping
    returns, the sorted list of [Stage25] is the drawer's four groups in
    the drawer's order followed by the results of any other status, and
    the three counts of the summary (and of [Stage25]) are the sizes of
    the drawer's groups. *)
Theorem stage25_views_agree :
  forall (rs : list VerificationResult) (g : Groups),
    groupClaimsByVerdict (Some rs) = Some g ->
    sortedResults rs = Some (drawerOrder g ++ filter unlisted rs) /\
    countStatus CONTRADICTED (Some rs) = length (g_CONTRADICTED g) /\
    countStatus CONTESTED (Some rs) = length (g_CONTESTED g) /\
    countStatus VERIFIED (Some rs) = length (g_VERIFIED g).
Proof.
  intros rs g H. unfold groupClaimsByVerdict in H.
  destruct (groupLoop_spec rs (mkGroups [] [] [] [])) as [LN LS].
  destruct (LS g H) as [A1 [A2 [A3 A4]]]. simpl in A1, A2, A3, A4.
  split; [|rewrite A1, A2, A3; auto].
  unfold sortedResults.
  assert (E : existsb (fun r => includes inheritedNames (status r)) rs = false).
  { destruct (existsb _ rs) eqn:E; [|reflexivity].
    apply existsb_exists in E. destruct E as [r [Hin Hr]].
    apply includes_In in Hr.
    assert (groupLoop rs (mkGroups [] [] [] []) = None)
      by (apply LN; exists r; auto).
    congruence. }
  rewrite E, andb_false_r. rewrite sort_bySeverity.
  unfold drawerOrder. rewrite A1, A2, A3, A4.
  rewrite <- !app_assoc. reflexivity.
Qed.

Lemma stage25_views_agree_witness :
  sortedResults
    [result VERIFIED "a"; result (lit "PENDING") "b";
     result CONTRADICTED "c"; result VERIFIED "d"]
  = Some [result CONTRADICTED "c"; result VERIFIED "a"; result VERIFIED "d";
          result (lit "PENDING") "b"].
Proof.
  apply (stage25_views_agree
           [result VERIFIED "a"; result (lit "PENDING") "b";
            result CONTRADICTED "c"; result VERIFIED "d"]
           (mkGroups [result CONTRADICTED "c"] []
                     [result VERIFIED "a"; result VERIFIED "d"] [])).
  reflexivity.
Defined.

(* ================================================================== *)
(** ** [getModelShortName] *)
(* ================================================================== *)

Lemma split_whole : forall sep s, ~ In sep s -> split sep s = [s].
Proof.
  intros sep. induction s as [|c s IH]; intros H; [reflexivity|].
  simpl. destruct (N.eqb c sep) eqn:E.
  - apply N.eqb_eq in E. elim H. left. exact E.
  - rewrite IH; [reflexivity|]. intros Hin. apply H. right. exact Hin.
Qed.

Lemma split_app : forall sep p rest,
  ~ In sep p -> split sep (p ++ sep :: rest) = p :: split sep rest.
Proof.
  intros sep. induction p as [|c p IH]; intros rest H.
  - simpl. rewrite N.eqb_refl. reflexivity.
  - simpl. destruct (N.eqb c sep) eqn:E.
    + apply N.eqb_eq in E. elim H. left. exact E.
    + rewrite IH; [reflexivity|]. intros Hin. apply H. right. exact Hin.
Qed.

(** X16. [getModelShortName] returns the second segment of a model id
    cut at its slashes: for [provider/name] it is [name], and whatever
    follows a second slash is dropped.  An id without a slash, and an id
    whose second segment is empty, come back whole. *)
Theorem getModelShortName_spec :
  (forall model, ~ In slash model -> getModelShortName model = model) /\
  (forall provider name,
     ~ In slash provider -> ~ In slash name -> name <> [] ->
     getModelShortName (provider ++ slash :: name) = name) /\
  (forall provider name rest,
     ~ In slash provider -> ~ In slash name -> name <> [] ->
     getModelShortName (provider ++ slash :: name ++ slash :: rest) = name) /\
  (forall provider,
     ~ In slash provider ->
     getModelShortName (provider ++ [slash]) = provider ++ [slash]) /\
  (forall provider rest,
     ~ In slash provider ->
     getModelShortName (provider ++ slash :: slash :: rest)
     = provider ++ slash :: slash :: rest).
Proof.
  unfold getModelShortName. split; [|split; [|split; [|split]]].
  - intros model H. rewrite split_whole by assumption. reflexivity.
  - intros p q Hp Hq Hne. rewrite split_app by assumption.
    rewrite split_whole by assumption. simpl.
    destruct q; [congruence | reflexivity].
  - intros p q rest Hp Hq Hne. rewrite split_app by assumption.
    rewrite split_app by assumption. simpl.
    destruct q; [congruence | reflexivity].
  - intros p Hp. rewrite split_app by assumption. reflexivity.
  - intros p rest Hp. rewrite split_app by assumption.
    rewrite (split_app slash [] rest (fun H => H) : split slash (slash :: rest) = _).
    reflexivity.
Qed.

Lemma getModelShortName_spec_witness :
  getModelShortName (lit "openai/gpt-4/preview") = lit "gpt-4".
Proof.
  apply (proj1 (proj2 (proj2 getModelShortName_spec))
           (lit "openai") (lit "gpt-4") (lit "preview"));
    [vm_compute; intuition discriminate
    | vm_compute; intuition discriminate
    | discriminate].
Defined.

(* ================================================================== *)
(** ** More on [annotateChairmanText] *)
(* ================================================================== *)

Lemma withIndex_idx : forall rs k,
  map originalIdx (withIndex rs k) = seq k (length rs).
Proof.
  induction rs as [|r rs IH]; intros k; simpl; [reflexivity|].
  rewrite IH. reflexivity.
Qed.

Lemma NoDup_map_filter : forall (A B : Type) (f : A -> B) (p : A -> bool) l,
  NoDup (map f l) -> NoDup (map f (filter p l)).
Proof.
  intros A B f p l. induction l as [|x l IH]; simpl; intros H; [constructor|].
  inversion H as [|y ys Hx Hl]; subst.
  destruct (p x); [|auto]. simpl. constructor; [|auto].
  intros Hin. apply Hx. apply in_map_iff in Hin.
  destruct Hin as [z [Ez Hz]]. apply filter_In in Hz.
  apply in_map_iff. exists z. tauto.
Qed.

Lemma matchingOrder_idx : forall rs,
  NoDup (map originalIdx (matchingOrder rs)).
Proof.
  intros rs. unfold matchingOrder.
  eapply Permutation_NoDup;
    [apply Permutation_map, Permutation_sym, sort_perm|].
  unfold actionable. apply NoDup_map_filter.
  rewrite withIndex_idx. apply seq_NoDup.
Qed.

Lemma matchLoop_idx : forall lower items st,
  NoDup (map claimIdx (fst st) ++ map originalIdx items) ->
  NoDup (map claimIdx (fst (fold_left (matchItem lower) items st))).
Proof.
  intros lower. induction items as [|it items IH]; intros st H; simpl.
  - rewrite app_nil_r in H. exact H.
  - apply IH. simpl in H.
    destruct (matchItem_spec lower st it) as [[p [_ [_ E]]] | [_ E]];
      rewrite E.
    + simpl. rewrite map_app. simpl. rewrite <- app_assoc. exact H.
    + apply NoDup_remove_1 in H. exact H.
Qed.

Lemma withIndex_complete : forall rs k i res,
  nth_error rs i = Some res -> In (mkItem res (k + i)) (withIndex rs k).
Proof.
  induction rs as [|r rs IH]; intros k i res H; [destruct i; discriminate|].
  destruct i as [|i]; simpl in *.
  - inversion H; subst. left. f_equal. lia.
  - right. replace (k + S i) with (S k + i) by lia. apply IH, H.
Qed.

Lemma matchingOrder_complete : forall rs i res,
  nth_error rs i = Some res -> Actionable res ->
  In (mkItem res i) (matchingOrder rs).
Proof.
  intros rs i res Hn Ha. unfold matchingOrder.
  apply (Permutation_in _ (Permutation_sym (sort_perm byClaimLength _))).
  unfold actionable. apply filter_In. split.
  - exact (withIndex_complete rs 0 i res Hn).
  - apply includes_In. simpl.
    destruct Ha as [H | [H | H]]; rewrite H; auto.
Qed.

Lemma Overlaps_mono : forall used used' s e,
  (forall u, In u used -> In u used') ->
  Overlaps used s e -> Overlaps used' s e.
Proof.
  intros used used' s e H [u [Hu Ho]]. exists u. split; [apply H, Hu | exact Ho].
Qed.

(** An item of the loop ends up placed, or every occurrence of its
    lower-cased claim meets a span of the final state. *)
Lemma matchLoop_complete : forall lower items st it,
  WellPlaced st ->
  In it items ->
  claim (item it) <> [] ->
  let final := fold_left (matchItem lower) items st in
  (exists p, In (placed it p) (fst final)) \/
  NoFree lower (toLowerCase (claim (item it))) (length (claim (item it)))
         (map span (fst final)).
Proof.
  intros lower. induction items as [|it0 items IH]; intros st it Hw Hin Hne;
    [destruct Hin|].
  simpl. destruct Hin as [-> | Hin].
  - destruct (matchLoop_extends lower items (matchItem lower st it))
      as [rest Er].
    rewrite Er.
    destruct (matchItem_spec lower st it)
      as [[p [_ [_ E]]] | [[Hc | Hno] E]]; rewrite E; simpl.
    + left. exists p. apply in_or_app. left. apply in_or_app. right.
      left. reflexivity.
    + elim (toLowerCase_nonempty _ Hne Hc).
    + right. intros q Hq. specialize (Hno q Hq).
      destruct Hw as [Hsnd _]. rewrite Hsnd in Hno.
      eapply Overlaps_mono; [|exact Hno].
      intros u Hu. rewrite map_app. apply in_or_app. left. exact Hu.
  - apply IH; [apply matchItem_placed, Hw | exact Hin | exact Hne].
Qed.

Lemma listed_actionable : forall r,
  includes [VERIFIED; CONTRADICTED; CONTESTED] (status r) = isActionable r.
Proof.
  intros r. apply eq_true_iff_eq.
  rewrite includes_In, isActionable_iff. unfold Actionable. simpl.
  intuition congruence.
Qed.

Lemma withIndex_actionable : forall rs k,
  length (filter (fun it => includes [VERIFIED; CONTRADICTED; CONTESTED]
                                     (status (item it)))
                 (withIndex rs k))
  = length (filter isActionable rs).
Proof.
  induction rs as [|r rs IH]; intros k; [reflexivity|].
  cbn [withIndex filter item]. rewrite listed_actionable.
  destruct (isActionable r); cbn [length]; rewrite IH; reflexivity.
Qed.

(** X17. No result is marked twice: the markers carry distinct
    [data-claim-idx] values, so there are at most as many markers as
    actionable results. *)
Theorem annotate_marks_each_result_once :
  forall (text : str) (rs : list VerificationResult),
    NoDup (map claimIdx (replacements text rs)) /\
    length (replacements text rs) <= length (filter isActionable rs).
Proof.
  intros text rs.
  assert (Hnd : NoDup (map claimIdx (replacements text rs))).
  { unfold replacements, matchAll. apply matchLoop_idx. simpl.
    apply matchingOrder_idx. }
  split; [exact Hnd|].
  assert (Hincl : incl (map claimIdx (replacements text rs))
                       (map originalIdx (actionable rs))).
  { intros i Hi. apply in_map_iff in Hi. destruct Hi as [r [<- Hr]].
    unfold replacements, matchAll in Hr. apply matchLoop_In in Hr.
    destruct Hr as [[] | [it [p [Hin [-> _]]]]]. simpl.
    apply in_map.
    apply (Permutation_in _ (sort_perm byClaimLength (actionable rs))).
    exact Hin. }
  pose proof (NoDup_incl_length Hnd Hincl) as Hlen.
  rewrite !length_map in Hlen.
  unfold actionable in Hlen. rewrite withIndex_actionable in Hlen.
  exact Hlen.
Qed.



(** X19. [annotateChairmanText] returns the text as it is exactly when
    there is nothing to mark: no actionable result has a non-empty claim
    whose lower-cased form occurs in the lower-cased text. *)
Theorem annotate_unchanged_iff :
  forall (text : str) (stage25Results : option (list VerificationResult)),
    annotateChairmanText text stage25Results = text <->
    (forall rs i res p,
       stage25Results = Some rs ->
       nth_error rs i = Some res -> Actionable res -> claim res <> [] ->
       ~ OccursAt (toLowerCase text) (toLowerCase (claim res)) p).
Proof.
  intros text [rs|]; [|split; [intros _ rs i res p H; discriminate
                              | reflexivity]].
  rewrite annotate_unchanged. split.
  - intros E rs' i res p Hrs Hn Ha Hne Ho. injection Hrs as Hrs.
    rewrite <- Hrs in Hn.
    pose proof (matchingOrder_complete rs i res Hn Ha) as Hin.
    destruct (matchLoop_complete (toLowerCase text) (matchingOrder rs)
                ([], []) (mkItem res i)) as [[q Hq] | Hno].
    + repeat split; constructor.
    + exact Hin.
    + exact Hne.
    + fold (matchAll text (matchingOrder rs)) in Hq.
      fold (replacements text rs) in Hq. rewrite E in Hq. destruct Hq.
    + fold (matchAll text (matchingOrder rs)) in Hno.
      fold (replacements text rs) in Hno. rewrite E in Hno.
      destruct (Hno p Ho) as [u [[] _]].
  - intros H. destruct (replacements text rs) as [|r reps] eqn:E;
      [reflexivity|]. exfalso.
    assert (Hr : In r (replacements text rs)) by (rewrite E; left; auto).
    destruct (replacements_origin text rs r Hr)
      as [res [Hn [Ha [Ho [He _]]]]].
    destruct (matchAll_placed text (matchingOrder rs)) as [_ [Hpos _]].
    fold (replacements text rs) in Hpos.
    rewrite Forall_forall in Hpos. specialize (Hpos r Hr).
    apply (H rs (claimIdx r) res (start r) eq_refl Hn Ha); [|exact Ho].
    intros Hc. rewrite Hc in He. simpl in He. lia.
Qed.




(* ================================================================== *)
(** ** The Phase 0 flow, end to end *)
(* ================================================================== *)

(** X20. Sending a message and then cancelling at the review card, or
    the scrub request failing, leaves the component exactly as it was
    before the message was sent: the optimistic message is gone, nothing
    is loading, and no council stream was requested. *)
Theorem send_then_cancel_restores :
  forall (s : App.State) (id content : str) (result : App.ScrubResult),
    App.currentConversationId s = Some id ->
    App.isLoading s = false ->
    App.phase0State s = App.PHASE0_IDLE ->
    App.handlePhase0Decline
      (App.scrubResolved (App.handleSendMessage s content) result) = s /\
    App.scrubRejected (App.handleSendMessage s content) = s.
Proof.
  intros [cid ms ld p n st] id content result Hc Hl Hp. simpl in *.
  subst cid ld p. unfold App.handleSendMessage. simpl.
  unfold App.handlePhase0Decline, App.scrubRejected. simpl.
  rewrite removelast_last. split; reflexivity.
Qed.

Lemma send_then_cancel_restores_witness :
  App.handlePhase0Decline
    (App.scrubResolved
       (App.handleSendMessage
          (App.handleSelectConversation App.initial (lit "c1")) (lit "hello"))
       softened)
  = App.handleSelectConversation App.initial (lit "c1").
Proof.
  apply (send_then_cancel_restores
           (App.handleSelectConversation App.initial (lit "c1"))
           (lit "c1") (lit "hello") softened); reflexivity.
Defined.

Lemma stampLastUser_last : forall ms content scrub reason,
  App.stampLastUser
    (ms ++ [App.mkMessage App.User content None None false]) scrub reason
  = (ms ++ [App.mkMessage App.User content (Some scrub) (Some reason) true],
     true).
Proof.
  induction ms as [|m ms IH]; intros content scrub reason; simpl.
  - reflexivity.
  - rewrite IH. reflexivity.
Qed.

(** X21. When the council stream fails after the user chose a prompt
    at the review card, both optimistic messages are removed: the
    messages are those from before the message was sent, nothing is
    loading and the flow is idle, whichever prompt was chosen. *)
Theorem stream_failure_rolls_back :
  forall (s : App.State) (id content : str) (result : App.ScrubResult),
    App.currentConversationId s = Some id ->
    let review := App.scrubResolved (App.handleSendMessage s content) result in
    App.streamFailed (App.handlePhase0UseOriginal review)
    = App.mkState (Some id) (App.messages s) false App.PHASE0_IDLE
        (App.scrubsInFlight s)
        (App.streams s ++ [(App.r_original result, None)]) /\
    App.streamFailed (App.handlePhase0UseScrubbed review)
    = App.mkState (Some id) (App.messages s) false App.PHASE0_IDLE
        (App.scrubsInFlight s)
        (App.streams s
         ++ [(App.r_original result, Some (App.r_scrubbed result))]).
Proof.
  intros [cid ms ld p n st] id content result Hc. simpl in Hc. subst cid.
  unfold App.handleSendMessage. simpl. split.
  - unfold App.streamFailed, App.handlePhase0UseOriginal. simpl.
    rewrite !removelast_last. reflexivity.
  - unfold App.streamFailed, App.handlePhase0UseScrubbed. simpl.
    rewrite stampLastUser_last. simpl.
    rewrite !removelast_last. reflexivity.
Qed.

Lemma stream_failure_rolls_back_witness :
  App.messages
    (App.streamFailed (App.handlePhase0UseScrubbed reviewing_softened)) = [].
Proof.
  pose proof (proj2 (stream_failure_rolls_back
                       (App.handleSelectConversation App.initial (lit "c1"))
                       (lit "c1") (lit "hello") softened eq_refl)) as H.
  exact (f_equal App.messages H).
Defined.

Lemma stampLastUser_spec : forall ms scrub reason,
  let stamped := fst (App.stampLastUser ms scrub reason) in
  map App.role stamped = map App.role ms /\
  map App.content stamped = map App.content ms /\
  ((snd (App.stampLastUser ms scrub reason) = false /\
    Forall (fun m => App.role m = App.Assistant) ms /\ stamped = ms)
   \/
   (snd (App.stampLastUser ms scrub reason) = true /\
    exists pre m post,
      ms = pre ++ m :: post /\ App.role m = App.User /\
      Forall (fun x => App.role x = App.Assistant) post /\
      stamped =
      pre ++ App.mkMessage App.User (App.content m) (Some scrub)
                           (Some reason) true :: post)).
Proof.
  induction ms as [|m ms IH]; intros scrub reason stamped.
  - simpl. split; [reflexivity|]. split; [reflexivity|]. left. auto.
  - specialize (IH scrub reason). unfold stamped. simpl.
    destruct (App.stampLastUser ms scrub reason) as [rest done].
    simpl in IH. destruct IH as [Hr [Hc Hcase]].
    destruct done.
    + simpl. split; [rewrite Hr; reflexivity|].
      split; [rewrite Hc; reflexivity|]. right.
      destruct Hcase as [[Hd _] | [_ [pre [x [post [E [Hx [Hp Hs]]]]]]]];
        [discriminate|].
      split; [reflexivity|]. exists (m :: pre), x, post.
      rewrite E, Hs. auto.
    + destruct Hcase as [[_ [Hall Hs]] | [Hd _]]; [|discriminate].
      destruct (App.role m) eqn:Em; simpl.
      * split; [rewrite Hr; reflexivity|].
        split; [rewrite Hc; reflexivity|]. right.
        split; [reflexivity|]. exists [], m, ms.
        rewrite Hs. auto.
      * split; [rewrite Hr, Em; reflexivity|].
        split; [rewrite Hc; reflexivity|]. left.
        split; [reflexivity|]. split; [constructor; assumption|].
        rewrite Hs. reflexivity.
Qed.

(** X22. "Use Scrubbed" rewrites no message text and removes none: the
    roles and the contents of the messages are kept and one assistant
    placeholder is appended.  The scrub metadata goes onto the last user
    message and onto no other; without a user message nothing is
    stamped. *)
Theorem use_scrubbed_stamps_the_last_user_message :
  forall s : App.State,
    let p := App.phase0State s in
    let after := App.messages (App.handlePhase0UseScrubbed s) in
    let placeholder := App.mkMessage App.Assistant [] None None false in
    map App.role after = map App.role (App.messages s) ++ [App.Assistant] /\
    map App.content after = map App.content (App.messages s) ++ [[]] /\
    ((Forall (fun m => App.role m = App.Assistant) (App.messages s) /\
      after = App.messages s ++ [placeholder])
     \/
     (exists pre m post,
        App.messages s = pre ++ m :: post /\ App.role m = App.User /\
        Forall (fun x => App.role x = App.Assistant) post /\
        after =
        pre ++ App.mkMessage App.User (App.content m)
                 (Some (App.scrubbed p)) (Some (App.reasoning p)) true
            :: post ++ [placeholder])).
Proof.
  intros s p after placeholder.
  destruct (stampLastUser_spec (App.messages s) (App.scrubbed p)
              (App.reasoning p)) as [Hr [Hc Hcase]].
  unfold after, App.handlePhase0UseScrubbed. simpl. fold p.
  rewrite !map_app, Hr, Hc. split; [reflexivity|]. split; [reflexivity|].
  destruct Hcase as [[_ [Hall Hs]] | [_ [pre [m [post [E [Hm [Hp Hs]]]]]]]].
  - left. split; [exact Hall|]. rewrite Hs. reflexivity.
  - right. exists pre, m, post. split; [exact E|]. split; [exact Hm|].
    split; [exact Hp|]. rewrite Hs, <- app_assoc. reflexivity.
Qed.

(** Every stream requested with a scrubbed prompt was requested from a
    card that showed the two prompts as different. *)
Lemma streams_differ : forall s,
  uiReachable s ->
  Forall (fun st => forall x, snd st = Some x -> trim (fst st) <> trim x)
         (App.streams s).
Proof.
  induction 1 as [| s b unchanged buttons s' Hs IH Hcard Hb Hh
                  | s e s' Hs IH Hn Hh].
  - constructor.
  - unfold Phase0Review in Hcard.
    destruct (str_eqb (App.status (App.phase0State s)) App.scrubbing);
      [discriminate|].
    destruct (negb (str_eqb (App.status (App.phase0State s)) App.pending));
      [discriminate|].
    destruct (str_eqb (trim (App.original (App.phase0State s)))
                      (trim (App.scrubbed (App.phase0State s)))) eqn:Eu;
      inversion Hcard; subst; clear Hcard.
    + destruct Hb as [<- | [<- | []]]; simpl in Hh; inversion Hh; subst;
        simpl; [exact IH|].
      apply Forall_app. split; [exact IH|].
      constructor; [|constructor]. simpl. intros x Hx. discriminate.
    + apply str_eqb_neq in Eu.
      destruct Hb as [<- | [<- | [<- | []]]]; simpl in Hh; inversion Hh;
        subst; simpl.
      * exact IH.
      * apply Forall_app. split; [exact IH|].
        constructor; [|constructor]. simpl. intros x Hx. discriminate.
      * apply Forall_app. split; [exact IH|].
        constructor; [|constructor]. simpl. intros x Hx.
        inversion Hx; subst. exact Eu.
  - destruct e as [id | ms | | | content | res | | | |];
      try discriminate Hn; simpl in Hh.
    + inversion Hh; subst. exact IH.
    + inversion Hh; subst. exact IH.
    + inversion Hh; subst. exact IH.
    + inversion Hh; subst. exact IH.
    + inversion Hh; subst. unfold App.handleSendMessage.
      destruct (App.currentConversationId s); exact IH.
    + destruct (App.scrubsInFlight s =? 0); [discriminate|].
      inversion Hh; subst. exact IH.
    + destruct (App.scrubsInFlight s =? 0); [discriminate|].
      inversion Hh; subst. exact IH.
Qed.

(** X23. The council is sent a scrubbed prompt only when it matters.
    With the Phase 0 handlers run from the buttons of the card on
    screen, every stream request whose body carries [scrubbed_content]
    carries a non-empty text that differs from the original prompt by
    more than surrounding white space. *)
Theorem scrubbed_prompt_is_sent_only_when_it_differs :
  forall (s : App.State) (originalContent : str)
         (scrubbedContent : option str) (x : str),
    uiReachable s ->
    In (originalContent, scrubbedContent) (App.streams s) ->
    scrubbed_content (requestBody originalContent scrubbedContent) = Some x ->
    scrubbedContent = Some x /\ x <> [] /\
    trim originalContent <> trim x.
Proof.
  intros s o sc x Hs Hin Hb.
  pose proof (streams_differ s Hs) as Hall.
  rewrite Forall_forall in Hall. specialize (Hall _ Hin). simpl in Hall.
  unfold requestBody in Hb. destruct sc as [[|c t]|]; try discriminate.
  simpl in Hb. inversion Hb; subst x.
  split; [reflexivity|]. split; [discriminate|]. apply Hall. reflexivity.
Qed.

Lemma scrubbed_prompt_is_sent_only_when_it_differs_witness :
  Some (lit "hi") = Some (lit "hi") /\ lit "hi" <> [] /\
  trim (lit "hello") <> trim (lit "hi").
Proof.
  apply (scrubbed_prompt_is_sent_only_when_it_differs
           (App.handlePhase0UseScrubbed reviewing_softened)
           (lit "hello") (Some (lit "hi")) (lit "hi")).
  - apply (ui_click reviewing_softened UseScrubbedButton false
             [CancelButton; UseOriginalButton; UseScrubbedButton]).
    + apply (ui_other awaiting_scrub (App.ScrubResolved softened));
        [|reflexivity|reflexivity].
      apply (ui_other (App.handleSelectConversation App.initial (lit "c1"))
               (App.SendMessage (lit "hello"))); [|reflexivity|reflexivity].
      apply (ui_other App.initial (App.SelectConversation (lit "c1")));
        [|reflexivity|reflexivity].
      apply ui_initial.
    + reflexivity.
    + right. right. left. reflexivity.
    + reflexivity.
  - left. reflexivity.
  - reflexivity.
Defined.

(** X29. After "Use Scrubbed" the chat shows the scrubbed text, and the
    council is sent it whenever it is not empty.  Sending a message, the
    scrub resolving and the user choosing the scrubbed prompt leave the
    messages of before followed by the user message and the assistant
    placeholder; the user message shows the scrubbed text and its
    indicator holds the text the user typed; the stream is requested
    with the original and the scrubbed text, and the body of that
    request carries the original as [content] and, when the scrubbed
    text is not empty, the text on screen as [scrubbed_content].  When
    the scrubbed text is empty the body carries the original alone. *)
Theorem scrubbed_message_shows_what_is_sent :
  forall (s : App.State) (id content : str) (result : App.ScrubResult),
    App.currentConversationId s = Some id ->
    let s' := App.handlePhase0UseScrubbed
                (App.scrubResolved (App.handleSendMessage s content) result) in
    exists msg body,
      App.messages s'
      = App.messages s ++ [msg; App.mkMessage App.Assistant [] None None false]
      /\ App.role msg = App.User
      /\ shownText msg = Some (App.r_scrubbed result)
      /\ indicatorOriginal msg = Some content
      /\ App.streams s'
         = App.streams s
           ++ [(App.r_original result, Some (App.r_scrubbed result))]
      /\ body = requestBody (App.r_original result)
                            (Some (App.r_scrubbed result))
      /\ b_content body = App.r_original result
      /\ (App.r_scrubbed result <> [] ->
          scrubbed_content body = shownText msg)
      /\ (App.r_scrubbed result = [] -> scrubbed_content body = None).
Proof.
  intros [cid ms ld p n st] id content result Hc. simpl in Hc. subst cid.
  unfold App.handleSendMessage, App.handlePhase0UseScrubbed. simpl.
  rewrite stampLastUser_last. simpl.
  eexists. eexists. split; [rewrite <- app_assoc; reflexivity|].
  split; [reflexivity|]. split; [reflexivity|]. split; [reflexivity|].
  split; [reflexivity|]. split; [reflexivity|].
  unfold requestBody. destruct (App.r_scrubbed result) as [|c t].
  - split; [reflexivity|]. split; [congruence | reflexivity].
  - split; [reflexivity|]. split; [reflexivity | discriminate].
Qed.

Lemma scrubbed_message_shows_what_is_sent_witness :
  exists msg body,
    App.messages (App.handlePhase0UseScrubbed reviewing_softened)
    = [] ++ [msg; App.mkMessage App.Assistant [] None None false]
    /\ App.role msg = App.User
    /\ shownText msg = Some (lit "hi")
    /\ indicatorOriginal msg = Some (lit "hello")
    /\ App.streams (App.handlePhase0UseScrubbed reviewing_softened)
       = [] ++ [(lit "hello", Some (lit "hi"))]
    /\ body = requestBody (lit "hello") (Some (lit "hi"))
    /\ b_content body = lit "hello"
    /\ (lit "hi" <> [] -> scrubbed_content body = shownText msg)
    /\ (lit "hi" = [] -> scrubbed_content body = None).
Proof.
  apply (scrubbed_message_shows_what_is_sent
           (App.handleSelectConversation App.initial (lit "c1"))
           (lit "c1") (lit "hello") softened).
  reflexivity.
Defined.

(* ================================================================== *)
(** ** From a marker back to its result *)
(* ================================================================== *)

Lemma digits_uint : forall d acc,
  digits (lit (NilEmpty.string_of_uint d)) (Some acc)
  = Some (Nat.of_uint_acc d acc).
Proof.
  induction d; intros acc; simpl; try reflexivity;
    unfold lit in IHd; rewrite IHd; f_equal; f_equal;
    rewrite Nat.tail_mul_spec; lia.
Qed.

(** [parseInt] reads back what [String] printed. *)
Lemma parseInt10_decimal : forall n, parseInt10 (decimal n) = Int false n.
Proof.
  intros n. unfold decimal.
  rewrite <- (DecimalNat.Unsigned.of_to n) at 2.
  destruct (Nat.to_uint n) as [|d|d|d|d|d|d|d|d|d|d];
    try reflexivity;
    unfold parseInt10, NilZero.string_of_uint, lit; simpl;
    fold (lit (NilEmpty.string_of_uint d)); rewrite digits_uint;
    unfold Nat.of_uint; simpl; rewrite ?Nat.tail_mul_spec; reflexivity.
Qed.

(** X24. A click on a marker opens the popover of the result the
    marker was made for.  Over an array of results, for every marker
    [annotateChairmanText] injects: reading the marker's
    [data-claim-idx] back with [parseInt] and indexing Stage 2.5 with it
    gives an actionable result; the marker's span starts where the
    lower-cased claim of that result occurs in the lower-cased text and
    is as long as the claim; and the badge of the popover carries the
    class the marker carries. *)
Theorem marker_click_opens_its_result :
  forall (text : str) (rs : list VerificationResult) (r : Replacement),
    (N.of_nat (length rs) < 4294967295)%N ->
    In r (replacements text rs) ->
    exists res,
      handleClick (Some rs) (Some (Some (decimal (claimIdx r))))
      = OpenPopover res /\
      Actionable res /\
      OccursAt (toLowerCase text) (toLowerCase (claim res)) (start r) /\
      end_ r = start r + length (claim res) /\
      popoverClass res = Some (rstatus r).
Proof.
  intros text rs r Hlen Hr.
  destruct (replacements_origin text rs r Hr)
    as [res [Hn [Ha [Ho [He Hs]]]]].
  exists res. split; [|split; [exact Ha|split; [exact Ho|split; [exact He|]]]].
  - unfold handleClick. rewrite parseInt10_decimal. unfold at_.
    assert (Hlt : claimIdx r < length rs).
    { apply nth_error_Some. rewrite Hn. discriminate. }
    destruct (claimIdx r =? 0) eqn:E0.
    + apply Nat.eqb_eq in E0. rewrite E0 in Hn. rewrite Hn. reflexivity.
    + assert (Hb : (N.of_nat (claimIdx r) <? 4294967295)%N = true)
        by (apply N.ltb_lt; lia).
      rewrite Hb, Hn. reflexivity.
  - rewrite Hs. unfold popoverClass.
    destruct Ha as [H | [H | H]]; rewrite H; reflexivity.
Qed.

Lemma marker_click_opens_its_result_witness :
  exists res,
    handleClick
      (Some [result VERIFIED "sky is blue"; result CONTESTED "The Sky"])
      (Some (Some (decimal 1)))
    = OpenPopover res /\
    Actionable res /\
    OccursAt (toLowerCase sampleText) (toLowerCase (claim res)) 39 /\
    46 = 39 + length (claim res) /\
    popoverClass res = Some (lit "contested").
Proof.
  apply (marker_click_opens_its_result sampleText
           [result VERIFIED "sky is blue"; result CONTESTED "The Sky"]
           (mkReplacement 39 46 1 (lit "contested"))).
  - vm_compute. reflexivity.
  - vm_compute. right. left. reflexivity.
Defined.

(* ================================================================== *)
(** ** The events of the stream *)
(* ================================================================== *)

Lemma split_nonempty : forall sep s, split sep s <> [].
Proof.
  intros sep [|c s]; simpl; [discriminate|].
  destruct (N.eqb c sep); [discriminate|].
  destruct (split sep s); discriminate.
Qed.

Lemma split_at : forall sep a b,
  split sep (a ++ sep :: b) = split sep a ++ split sep b.
Proof.
  intros sep. induction a as [|c a IH]; intros b.
  - simpl. rewrite N.eqb_refl. reflexivity.
  - simpl. rewrite IH. destruct (N.eqb c sep); [reflexivity|].
    pose proof (split_nonempty sep a) as Hne.
    destruct (split sep a); [congruence | reflexivity].
Qed.

Lemma split_pieces : forall sep s piece,
  In piece (split sep s) -> ~ In sep piece.
Proof.
  intros sep. induction s as [|c s IH]; intros piece H; simpl in H.
  - destruct H as [<- | []]. intros [].
  - destruct (N.eqb c sep) eqn:E.
    + destruct H as [<- | H]; [intros [] | apply IH, H].
    + apply N.eqb_neq in E.
      pose proof (split_nonempty sep s) as Hne.
      destruct (split sep s) as [|h t]; [congruence|].
      destruct H as [<- | H].
      * intros [Hc | Hin]; [congruence|].
        apply (IH h); [left; reflexivity | exact Hin].
      * apply IH. right. exact H.
Qed.

Lemma skipn_In : forall (A : Type) k (l : list A) x,
  In x (skipn k l) -> In x l.
Proof.
  intros A. induction k as [|k IH]; intros [|y l] x H; simpl in *; auto.
Qed.

(** X25. The payloads read from a chunk are read line by line: a chunk
    made of two parts joined by a line feed gives the payloads of the
    first part followed by those of the second, so a stream cut at line
    feeds gives the same payloads however it is cut.  A payload never
    holds a line feed, and with its ['data: '] prefix it is a line of
    the chunk. *)
Theorem payloads_compose :
  (forall chunk1 chunk2 : str,
     payloads (chunk1 ++ newline :: chunk2)
     = payloads chunk1 ++ payloads chunk2) /\
  (forall (chunk p : str),
     In p (payloads chunk) ->
     ~ In newline p /\ In (lit "data: " ++ p) (split newline chunk)).
Proof.
  split.
  - intros c1 c2. unfold payloads.
    rewrite split_at, filter_app, map_app. reflexivity.
  - intros chunk p H. unfold payloads in H. apply in_map_iff in H.
    destruct H as [line [<- Hl]]. apply filter_In in Hl.
    destruct Hl as [Hin Hd].
    pose proof (split_pieces _ _ _ Hin) as Hnl.
    unfold isData in Hd. apply isPrefix_iff in Hd. split.
    + intros Hc. apply Hnl. eapply skipn_In. exact Hc.
    + unfold sliceFrom. rewrite <- Hd at 1.
      change (length (lit "data: ")) with 6.
      rewrite firstn_skipn. exact Hin.
Qed.

Lemma payloads_compose_witness :
  payloads (lit "data: {a}" ++ newline :: newline :: lit "data: {b}")
  = payloads (lit "data: {a}") ++ payloads (newline :: lit "data: {b}").
Proof.
  apply (proj1 payloads_compose).
Defined.

(* ================================================================== *)
(** ** [groupClaimsByVerdict] shares the results it groups *)
(* ================================================================== *)

Import Grouping.

Lemma Keeps_pushGroupM : forall n c t v u l,
  Fresh n c -> Fresh n t -> Fresh n v -> Fresh n u ->
  Keeps n (pushGroupM (mkGroupRefs c t v u) l) Any.
Proof.
  intros n c t v u l Hc Ht Hv Hu. unfold pushGroupM. simpl.
  eapply Keeps_bind; [apply Keeps_getResult|]. intros r _.
  repeat match goal with
         | |- Keeps _ (if ?b then _ else _) _ => destruct b
         end;
    first [apply Keeps_push; assumption
          | apply Keeps_throw
          | apply Keeps_ret; exact I].
Qed.

Lemma Keeps_groupClaimsByVerdictM : forall n stage25Results,
  Keeps n (groupClaimsByVerdictM stage25Results) Any.
Proof.
  intros n stage25Results. unfold groupClaimsByVerdictM.
  eapply Keeps_bind; [apply Keeps_alloc|]. intros c Hc.
  eapply Keeps_bind; [apply Keeps_alloc|]. intros t Ht.
  eapply Keeps_bind; [apply Keeps_alloc|]. intros v Hv.
  eapply Keeps_bind; [apply Keeps_alloc|]. intros u Hu.
  destruct stage25Results as [a|]; [|apply Keeps_ret; exact I].
  eapply Keeps_bind; [apply Keeps_getObjects|]. intros elems _.
  eapply Keeps_bind;
    [apply Keeps_forEach; intros l; apply Keeps_pushGroupM; assumption|].
  intros _ _. apply Keeps_ret. exact I.
Qed.

Lemma update_app_right : forall (h cells : heap) k c,
  update (h ++ cells) (length h + k) c = h ++ update cells k c.
Proof.
  induction h as [|x h IH]; intros cells k c; simpl; [reflexivity|].
  rewrite IH. reflexivity.
Qed.

Lemma nth_error_app_right : forall (h cells : heap) k,
  nth_error (h ++ cells) (length h + k) = nth_error cells k.
Proof.
  intros h cells k. rewrite nth_error_app2 by lia.
  f_equal. lia.
Qed.

Lemma update_length_same : forall (cells : heap) k c,
  length (update cells k c) = length cells.
Proof. intros. apply update_length. Qed.

Lemma push_app : forall (h cells : heap) k es x,
  nth_error cells k = Some (Objects es) ->
  push (length h + k) x (h ++ cells)
  = Some (tt, h ++ update cells k (Objects (es ++ [x]))).
Proof.
  intros h cells k es x H. unfold push.
  assert (Hg : getObjects (length h + k) (h ++ cells) = Some (es, h ++ cells)).
  { apply run_getObjects. rewrite nth_error_app_right. exact H. }
  rewrite (bind_run _ _ _ _ _ _ _ Hg). unfold put.
  assert (Hk : k < length cells) by (apply nth_error_Some; congruence).
  replace (length h + k <? length (h ++ cells)) with true
    by (symmetry; apply Nat.ltb_lt; rewrite length_app; lia).
  rewrite update_app_right. reflexivity.
Qed.

(** The references one result adds to a group. *)
Lemma select_cons : forall (p : VerificationResult -> bool) l ls r rs,
  select p (l :: ls) (r :: rs)
  = (if p r then [l] else []) ++ select p ls rs.
Proof.
  intros p l ls r rs. unfold select. simpl. destruct (p r); reflexivity.
Qed.

Lemma pushGroupM_run : forall h c t v u l r,
  AtResult h l r ->
  pushGroupM (groupRefs h) l (groupHeap h c t v u)
  = if includes inheritedNames (status r) then None
    else Some (tt, groupHeap h
                     (c ++ if hasStatus CONTRADICTED r then [l] else [])
                     (t ++ if hasStatus CONTESTED r then [l] else [])
                     (v ++ if hasStatus VERIFIED r then [l] else [])
                     (u ++ if hasStatus UNVERIFIABLE r then [l] else [])).
Proof.
  intros h c t v u l r Hr. unfold pushGroupM.
  assert (Hg : getResult l (groupHeap h c t v u)
               = Some (r, groupHeap h c t v u)).
  { apply run_getResult. unfold AtResult, groupHeap.
    apply Stable_app. exact Hr. }
  rewrite (bind_run _ _ _ _ _ _ _ Hg). clear Hg.
  unfold groupRefs, hasStatus.
  cbn [ref_CONTRADICTED ref_CONTESTED ref_VERIFIED ref_UNVERIFIABLE].
  generalize (status r). intros s.
  destruct (str_eqb s CONTRADICTED) eqn:E1.
  { apply str_eqb_eq in E1. subst s.
    replace (length h) with (length h + 0) at 1 by lia.
    unfold groupHeap. rewrite (push_app h [Objects c; Objects t; Objects v; Objects u]
               0 c l eq_refl).
    simpl. rewrite !app_nil_r. reflexivity. }
  destruct (str_eqb s CONTESTED) eqn:E2.
  { apply str_eqb_eq in E2. subst s.
    unfold groupHeap. rewrite (push_app h [Objects c; Objects t; Objects v; Objects u]
               1 t l eq_refl).
    simpl. rewrite !app_nil_r. reflexivity. }
  destruct (str_eqb s VERIFIED) eqn:E3.
  { apply str_eqb_eq in E3. subst s.
    unfold groupHeap. rewrite (push_app h [Objects c; Objects t; Objects v; Objects u]
               2 v l eq_refl).
    simpl. rewrite !app_nil_r. reflexivity. }
  destruct (str_eqb s UNVERIFIABLE) eqn:E4.
  { apply str_eqb_eq in E4. subst s.
    unfold groupHeap. rewrite (push_app h [Objects c; Objects t; Objects v; Objects u]
               3 u l eq_refl).
    simpl. rewrite !app_nil_r. reflexivity. }
  destruct (includes inheritedNames s); [reflexivity|].
  rewrite !app_nil_r. reflexivity.
Qed.

Lemma groupLoopM_run : forall h elems rs,
  Forall2 (AtResult h) elems rs ->
  forall c t v u,
    forEach (pushGroupM (groupRefs h)) elems (groupHeap h c t v u)
    = if existsb (fun r => includes inheritedNames (status r)) rs then None
      else Some (tt, groupHeap h
                       (c ++ select (hasStatus CONTRADICTED) elems rs)
                       (t ++ select (hasStatus CONTESTED) elems rs)
                       (v ++ select (hasStatus VERIFIED) elems rs)
                       (u ++ select (hasStatus UNVERIFIABLE) elems rs)).
Proof.
  induction 1 as [|l r elems rs Hr _ IH]; intros c t v u.
  - cbn [forEach existsb]. unfold select. cbn [combine filter map].
    rewrite !app_nil_r. reflexivity.
  - cbn [forEach existsb]. unfold bind at 1.
    rewrite (pushGroupM_run h c t v u l r Hr).
    destruct (includes inheritedNames (status r)); [reflexivity|].
    cbn [orb]. rewrite IH. rewrite !select_cons, <- !app_assoc.
    reflexivity.
Qed.

Lemma groupClaimsByVerdict_None : forall rs,
  groupClaimsByVerdict (Some rs) = None <->
  existsb (fun r => includes inheritedNames (status r)) rs = true.
Proof.
  intros rs. unfold groupClaimsByVerdict.
  rewrite (proj1 (groupLoop_spec rs (mkGroups [] [] [] []))).
  rewrite existsb_exists. split; intros [r [Hin Hr]]; exists r;
    (split; [exact Hin | apply includes_In; exact Hr]).
Qed.

(** X26. [groupClaimsByVerdict] on the heap.  Whatever it is given, a
    call that returns has left every cell of the heap as it was and has
    only allocated.  Given an array of results, it throws exactly when
    the function on values does; otherwise it returns four new arrays
    that hold, status by status and in input order, the references of
    the input array itself: the grouped results are the caller's
    objects, not copies. *)
Theorem groupClaimsByVerdict_shares_the_results :
  forall (h : heap) (stage25Results : option loc),
    (forall g h',
       groupClaimsByVerdictM stage25Results h = Some (g, h') ->
       exists fresh, h' = h ++ fresh) /\
    (forall a elems rs,
       stage25Results = Some a ->
       nth_error h a = Some (Objects elems) ->
       Forall2 (AtResult h) elems rs ->
       groupClaimsByVerdictM stage25Results h
       = match groupClaimsByVerdict (Some rs) with
         | None => None
         | Some _ =>
             Some (groupRefs h,
                   groupHeap h
                     (select (hasStatus CONTRADICTED) elems rs)
                     (select (hasStatus CONTESTED) elems rs)
                     (select (hasStatus VERIFIED) elems rs)
                     (select (hasStatus UNVERIFIABLE) elems rs))
         end).
Proof.
  intros h stage25Results. split.
  - intros g h' E.
    exact (Keeps_extends _ _ _ h g h'
             (Keeps_groupClaimsByVerdictM (length h) stage25Results) E).
  - intros a elems rs -> Ha Hrs. unfold groupClaimsByVerdictM.
    unfold bind at 1. unfold alloc at 1.
    unfold bind at 1. unfold alloc at 1.
    unfold bind at 1. unfold alloc at 1.
    unfold bind at 1. unfold alloc at 1.
    rewrite !length_app. simpl length. rewrite <- !app_assoc. simpl app.
    replace (length h + 1 + 1) with (length h + 2) by lia.
    replace (length h + 2 + 1) with (length h + 3) by lia.
    fold (groupRefs h). fold (groupHeap h [] [] [] []).
    assert (Hg : getObjects a (groupHeap h [] [] [] [])
                 = Some (elems, groupHeap h [] [] [] [])).
    { apply run_getObjects. unfold groupHeap. apply Stable_app. exact Ha. }
    rewrite (bind_run _ _ _ _ _ _ _ Hg). unfold bind at 1.
    rewrite (groupLoopM_run h elems rs Hrs). simpl app.
    destruct (groupClaimsByVerdict (Some rs)) as [g|] eqn:Eg.
    + destruct (existsb _ rs) eqn:Ex.
      * apply groupClaimsByVerdict_None in Ex. congruence.
      * reflexivity.
    + apply groupClaimsByVerdict_None in Eg. rewrite Eg. reflexivity.
Qed.

Lemma groupClaimsByVerdict_shares_the_results_witness :
  groupClaimsByVerdictM (Some 3) sampleHeap
  = Some (groupRefs sampleHeap, groupHeap sampleHeap [] [2] [0] [1]).
Proof.
  apply (proj2 (groupClaimsByVerdict_shares_the_results sampleHeap (Some 3))
           3 [0; 1; 2]
           [result VERIFIED "sky is blue"; result UNVERIFIABLE "Water";
            result CONTESTED "The Sky"]);
    [reflexivity | reflexivity | repeat constructor].
Defined.

(* ================================================================== *)
(** ** [normalize]: what makes two claims the same *)
(* ================================================================== *)

Section Lowering.
Import Unicode.
Local Open Scope N_scope.

Lemma lowerTable_ok : forallb entryOk lowerTable = true.
Proof. vm_compute. reflexivity. Qed.

Lemma upto_In : forall n k, k <= n -> In k (upto n).
Proof.
  intros n k H. unfold upto. apply in_map_iff. exists (N.to_nat k).
  split; [apply N2Nat.id|]. apply in_seq. lia.
Qed.

Lemma keep_true : forall u,
  isWord u || isSpace u = true -> u <= 0x3000 \/ u = 0xFEFF.
Proof.
  intros u. unfold isWord, isSpace, in_range.
  rewrite !orb_true_iff, !andb_true_iff, !N.leb_le, !N.eqb_eq. lia.
Qed.

Lemma keep_high : forall u,
  0xD800 <= u -> u <= 0xDFFF -> isWord u || isSpace u = false.
Proof.
  intros u H1 H2. destruct (isWord u || isSpace u) eqn:E; [|reflexivity].
  apply keep_true in E. lia.
Qed.

Lemma settled_iff : forall u,
  settled u = true <-> ~ (65 <= u <= 90) /\ u <> 0x130 /\ u <> 0x212A.
Proof.
  intros u. unfold settled, in_range.
  rewrite !andb_true_iff, !negb_true_iff, andb_false_iff, !N.leb_gt,
          !N.eqb_neq. lia.
Qed.

Lemma kept_settled : forall u,
  settled u = true -> kept u = if isWord u || isSpace u then [u] else [].
Proof.
  intros u H. unfold settled in H.
  apply andb_true_iff in H. destruct H as [H H3].
  apply andb_true_iff in H. destruct H as [H1 H2].
  apply negb_true_iff in H1, H2, H3.
  unfold kept. rewrite H1, H2, H3. reflexivity.
Qed.

Lemma kept_beyond : forall u,
  0xD800 <= u <= 0xDFFF \/ 0x10000 <= u -> kept u = [].
Proof.
  intros u H. rewrite kept_settled by (apply settled_iff; lia).
  destruct (isWord u || isSpace u) eqn:E; [|reflexivity].
  apply keep_true in E. lia.
Qed.

Lemma utf16_pair : forall c,
  in_range 0x10000 0x10FFFF c = true ->
  exists hi lo, utf16 c = [hi; lo] /\
                0xD800 <= hi <= 0xDBFF /\ 0xDC00 <= lo <= 0xDFFF.
Proof.
  intros c H. unfold utf16. rewrite H. eexists. eexists.
  split; [reflexivity|].
  unfold in_range in H. apply andb_true_iff in H.
  rewrite !N.leb_le in H.
  assert (Hh : (c - 0x10000) / 0x400 < 0x400)
    by (apply N.Div0.div_lt_upper_bound; lia).
  assert (Hl : (c - 0x10000) mod 0x400 < 0x400) by (apply N.mod_lt; lia).
  revert Hh Hl.
  generalize ((c - 0x10000) / 0x400), ((c - 0x10000) mod 0x400).
  intros h l Hh Hl. lia.
Qed.

Lemma settled_point : forall c, settled c = true -> pointOk c c = true.
Proof.
  intros c Hs. unfold pointOk.
  destruct (in_range 0x10000 0x10FFFF c) eqn:E.
  - destruct (utf16_pair c E) as [hi [lo [-> [Hh Hl]]]].
    unfold in_range in E. apply andb_true_iff in E. rewrite !N.leb_le in E.
    cbn [forallb filter].
    rewrite (keep_high hi), (keep_high lo) by lia.
    rewrite (kept_beyond c) by lia.
    replace (settled hi) with true by (symmetry; apply settled_iff; lia).
    replace (settled lo) with true by (symmetry; apply settled_iff; lia).
    reflexivity.
  - unfold utf16. rewrite E. cbn [forallb filter]. rewrite Hs.
    rewrite (kept_settled c Hs).
    apply str_eqb_eq. destruct (isWord c || isSpace c); reflexivity.
Qed.

Lemma listed : forall c e,
  In e lowerTable -> covers c e = true ->
  find (covers c) lowerTable <> None.
Proof.
  intros c e Hin Hc Hf.
  rewrite (find_none _ _ Hf e Hin) in Hc. discriminate.
Qed.

Lemma unlisted_settled : forall c,
  find (covers c) lowerTable = None -> c <> 0x130 -> settled c = true.
Proof.
  intros c Hf Hc. apply settled_iff. repeat split; [|assumption|].
  - intros H. apply (listed c (0x41, 0x5A, 1, 0x61)); [left; reflexivity| |exact Hf].
    unfold covers, in_range. rewrite N.mod_1_r.
    apply andb_true_iff. split; [|reflexivity].
    apply andb_true_iff. rewrite !N.leb_le. lia.
  - intros ->. revert Hf. vm_compute. discriminate.
Qed.

Lemma simpleLower_ok : forall c,
  c <> 0x130 -> pointOk c (simpleLower c) = true.
Proof.
  intros c Hc. unfold simpleLower.
  destruct (find (covers c) lowerTable) as [[[[first last] step] image]|]
    eqn:Ef.
  - apply find_some in Ef. destruct Ef as [Hin Hcov].
    pose proof lowerTable_ok as Hok. rewrite forallb_forall in Hok.
    specialize (Hok _ Hin). cbn [entryOk] in Hok.
    apply andb_true_iff in Hok. destruct Hok as [Hstep Hall].
    apply N.ltb_lt in Hstep.
    cbn [covers] in Hcov. apply andb_true_iff in Hcov.
    destruct Hcov as [Hr Hm]. unfold in_range in Hr.
    apply andb_true_iff in Hr. rewrite !N.leb_le in Hr.
    apply N.eqb_eq in Hm.
    set (k := (c - first) / step).
    assert (Hk : c - first = k * step).
    { pose proof (N.div_mod (c - first) step) as D.
      rewrite Hm in D. unfold k. lia. }
    rewrite forallb_forall in Hall.
    specialize (Hall k). rewrite <- Hk in Hall.
    replace (first + (c - first)) with c in Hall by lia.
    apply Hall, upto_In. unfold k. apply N.Div0.div_le_mono. lia.
  - apply settled_point, unlisted_settled; assumption.
Qed.

(** Both halves of what [pointOk] checks. *)
Lemma pointOk_spec : forall c t,
  pointOk c t = true ->
  Forall (fun u => settled u = true) (utf16 t) /\
  filter (fun u => isWord u || isSpace u) (utf16 t) = kept c.
Proof.
  intros c t H. unfold pointOk in H. apply andb_true_iff in H.
  destruct H as [H1 H2]. split; [|apply str_eqb_eq, H2].
  apply Forall_forall. rewrite forallb_forall in H1. exact H1.
Qed.

(** Lower-casing, then dropping what is neither a word character nor
    white space, reads the code points one at a time; and no capital
    letter is left. *)
Lemma lowerPoints_kept : forall cps afterCased,
  Forall (fun u => settled u = true)
         (flat_map utf16 (lowerPoints afterCased cps)) /\
  filter (fun u => isWord u || isSpace u) (flat_map utf16 (lowerPoints afterCased cps))
  = flat_map kept cps.
Proof.
  induction cps as [|c cps IH]; intros b; [split; [constructor|reflexivity]|].
  cbn [lowerPoints flat_map].
  rewrite flat_map_app, filter_app.
  destruct (IH (if isCaseIgnorable c then b else isCased c)) as [IH1 IH2].
  rewrite IH2.
  assert (Hhead :
    Forall (fun u => settled u = true)
      (flat_map utf16
         (if c =? 0x130 then [0x69; 0x307]
          else if c =? 0x3A3
          then [if b && negb (followedByCased cps) then 0x3C2 else 0x3C3]
          else [simpleLower c])) /\
    filter (fun u => isWord u || isSpace u)
      (flat_map utf16
         (if c =? 0x130 then [0x69; 0x307]
          else if c =? 0x3A3
          then [if b && negb (followedByCased cps) then 0x3C2 else 0x3C3]
          else [simpleLower c])) = kept c).
  { destruct (N.eqb_spec c 0x130) as [-> | Hc].
    - split; [repeat constructor | reflexivity].
    - destruct (N.eqb_spec c 0x3A3) as [-> | Hs].
      + destruct (b && negb (followedByCased cps));
          (split; [repeat constructor | reflexivity]).
      + cbn [flat_map]. rewrite app_nil_r.
        apply pointOk_spec, simpleLower_ok, Hc. }
  destruct Hhead as [H1 H2]. rewrite H2.
  split; [apply Forall_app; split; assumption | reflexivity].
Qed.

Lemma codePoints_kept : forall s,
  flat_map kept (codePoints s) = flat_map kept s.
Proof.
  assert (H : forall s,
            flat_map kept (codePoints s) = flat_map kept s /\
            forall u, flat_map kept (codePoints (u :: s))
                      = flat_map kept (u :: s)).
  { induction s as [|v s [IH1 IH2]]; [split; [reflexivity|intros; reflexivity]|].
    split; [apply IH2|]. intros u.
    cbn [codePoints].
    destruct (isHighSurrogate u && isLowSurrogate v) eqn:E.
    - apply andb_true_iff in E. destruct E as [Eu Ev].
      unfold isHighSurrogate, isLowSurrogate, in_range in Eu, Ev.
      apply andb_true_iff in Eu, Ev. rewrite !N.leb_le in Eu, Ev.
      cbn [flat_map]. rewrite IH1.
      rewrite (kept_beyond u), (kept_beyond v) by lia.
      rewrite kept_beyond by lia. reflexivity.
    - change (codePoints (v :: s)) with (codePoints (v :: s)).
      cbn [flat_map]. f_equal. apply IH2. }
  intros s. apply H.
Qed.

Lemma toLowerCase_kept : forall s,
  filter (fun u => isWord u || isSpace u) (toLowerCase s) = flat_map kept s.
Proof.
  intros s. unfold toLowerCase.
  rewrite (proj2 (lowerPoints_kept _ _)). apply codePoints_kept.
Qed.

Lemma toLowerCase_settled : forall s,
  Forall (fun u => settled u = true) (toLowerCase s).
Proof. intros s. apply lowerPoints_kept. Qed.

Lemma kept_kept : forall u v, In v (kept u) -> kept v = [v].
Proof.
  intros u v. unfold kept at 1.
  destruct (in_range 65 90 u) eqn:E1.
  - intros [<- | []]. unfold in_range in E1.
    apply andb_true_iff in E1. rewrite !N.leb_le in E1.
    rewrite kept_settled by (apply settled_iff; lia).
    replace (isWord (u + 32) || isSpace (u + 32)) with true; [reflexivity|].
    symmetry. unfold isWord, isSpace, in_range.
    rewrite !orb_true_iff, !andb_true_iff, !N.leb_le, !N.eqb_eq. lia.
  - destruct (N.eqb_spec u 0x130) as [_ | E2]; [intros [<- | []]; reflexivity|].
    destruct (N.eqb_spec u 0x212A) as [_ | E3];
      [intros [<- | []]; reflexivity|].
    destruct (isWord u || isSpace u) eqn:E4; [|intros []].
    intros [<- | []].
    rewrite kept_settled, E4; [reflexivity|].
    unfold settled. rewrite E1.
    apply N.eqb_neq in E2, E3. rewrite E2, E3. reflexivity.
Qed.

Lemma kept_space : forall c, isSpace c = true -> kept c = [c].
Proof.
  intros c H.
  assert (Hs : settled c = true).
  { apply settled_iff. revert H. unfold isSpace, in_range.
    rewrite !orb_true_iff, !andb_true_iff, !N.leb_le, !N.eqb_eq. lia. }
  rewrite (kept_settled c Hs), H, orb_true_r. reflexivity.
Qed.

Lemma kept_dropped : forall p,
  isWord p = false -> isSpace p = false -> p <> 0x130 -> p <> 0x212A ->
  kept p = [].
Proof.
  intros p Hw Hs H1 H2.
  assert (Hp : settled p = true).
  { apply settled_iff. repeat split; try assumption.
    intros H. revert Hw. unfold isWord, in_range.
    rewrite !orb_false_iff, !andb_false_iff, !N.leb_gt. lia. }
  rewrite (kept_settled p Hp), Hw, Hs. reflexivity.
Qed.

End Lowering.

Lemma dropWhile_In : forall p s c, In c (dropWhile p s) -> In c s.
Proof.
  intros p. induction s as [|x s IH]; intros c H; simpl in *; [assumption|].
  destruct (p x); [right; apply IH, H | exact H].
Qed.

Lemma dropWhile_split : forall p s,
  exists pre, s = pre ++ dropWhile p s.
Proof.
  intros p. induction s as [|x s [pre E]]; simpl.
  - exists []. reflexivity.
  - destruct (p x).
    + exists (x :: pre). simpl. rewrite <- E. reflexivity.
    + exists []. reflexivity.
Qed.

Lemma dropWhile_head : forall p s c t,
  dropWhile p s = c :: t -> p c = false.
Proof.
  intros p. induction s as [|x s IH]; intros c t H; simpl in H;
    [discriminate|].
  destruct (p x) eqn:E; [eapply IH; exact H|].
  inversion H; subst. exact E.
Qed.

Lemma dropWhile_fix : forall p (s : str),
  (forall c t, s = c :: t -> p c = false) -> dropWhile p s = s.
Proof.
  intros p [|x s] H; [reflexivity|]. simpl.
  rewrite (H x s eq_refl). reflexivity.
Qed.

Lemma dropWhile_idem : forall p s,
  dropWhile p (dropWhile p s) = dropWhile p s.
Proof.
  intros p s. apply dropWhile_fix. intros c t E.
  eapply dropWhile_head. exact E.
Qed.

Lemma trim_In : forall s c, In c (trim s) -> In c s.
Proof.
  intros s c H. unfold trim in H.
  apply in_rev, dropWhile_In, in_rev, dropWhile_In in H. exact H.
Qed.

Lemma trim_idem : forall s, trim (trim s) = trim s.
Proof.
  intros s. unfold trim.
  set (z := dropWhile isSpace s).
  set (w := dropWhile isSpace (rev z)).
  assert (Hw : dropWhile isSpace (rev w) = rev w).
  { apply dropWhile_fix. intros c t E.
    destruct (dropWhile_split isSpace (rev z)) as [pre Ez]. fold w in Ez.
    assert (Hz : z = rev w ++ rev pre).
    { rewrite <- (rev_involutive z), Ez, rev_app_distr. reflexivity. }
    rewrite E in Hz. simpl in Hz.
    apply (dropWhile_head isSpace s c (t ++ rev pre)). exact Hz. }
  rewrite Hw, rev_involutive. unfold w. rewrite dropWhile_idem.
  reflexivity.
Qed.

Lemma trim_leading : forall c s, isSpace c = true -> trim (c :: s) = trim s.
Proof. intros c s H. unfold trim. simpl. rewrite H. reflexivity. Qed.

Lemma dropWhile_app : forall p (s t : str),
  dropWhile p (s ++ t)
  = match dropWhile p s with
    | [] => dropWhile p t
    | _ :: _ => dropWhile p s ++ t
    end.
Proof.
  intros p. induction s as [|x s IH]; intros t; simpl.
  - destruct (dropWhile p t); reflexivity.
  - destruct (p x); [apply IH | reflexivity].
Qed.

Lemma trim_trailing : forall c s,
  isSpace c = true -> trim (s ++ [c]) = trim s.
Proof.
  intros c s H. unfold trim. rewrite dropWhile_app.
  destruct (dropWhile isSpace s) as [|x z] eqn:E.
  - simpl. rewrite H. reflexivity.
  - rewrite rev_app_distr. simpl rev at 1. simpl app at 1.
    simpl dropWhile at 1. rewrite H. reflexivity.
Qed.

Lemma flat_map_fixed : forall (l : str),
  Forall (fun v => kept v = [v]) l -> flat_map kept l = l.
Proof.
  induction 1 as [|v l Hv _ IH]; [reflexivity|].
  cbn [flat_map]. rewrite Hv, IH. reflexivity.
Qed.

(** [normalize] reads a claim one code unit at a time. *)
Lemma normalize_kept : forall s, normalize s = trim (flat_map kept s).
Proof. intros s. unfold normalize. rewrite toLowerCase_kept. reflexivity. Qed.

Lemma trim_spaces : forall before s after,
  Forall (fun c => isSpace c = true) before ->
  Forall (fun c => isSpace c = true) after ->
  trim (before ++ s ++ after) = trim s.
Proof.
  intros before s after Hb Ha.
  assert (Hlead : forall x, trim (before ++ x) = trim x).
  { induction Hb as [|c ws Hc _ IH]; intros x; [reflexivity|].
    cbn [app]. rewrite trim_leading by assumption. apply IH. }
  assert (Htrail : forall x, trim (x ++ after) = trim x).
  { induction Ha as [|c ws Hc _ IH]; intros x.
    - rewrite app_nil_r. reflexivity.
    - replace (x ++ c :: ws) with ((x ++ [c]) ++ ws)
        by (rewrite <- app_assoc; reflexivity).
      rewrite IH. apply trim_trailing, Hc. }
  rewrite Hlead. apply Htrail.
Qed.

(** X27. What [normalize] makes of a claim.  It is idempotent; it does
    not see letter case; it does not see a code unit that is neither a
    word character nor white space, wherever it stands, unless the unit
    is U+0130 or U+212A, which it reads as the letters i and k; and it
    does not see white space around the claim. *)
Theorem normalize_laws :
  (forall s, normalize (normalize s) = normalize s) /\
  (forall s, normalize (toLowerCase s) = normalize s) /\
  (forall a p b,
     isWord p = false -> isSpace p = false ->
     p <> 0x130%N -> p <> 0x212A%N ->
     normalize (a ++ p :: b) = normalize (a ++ b)) /\
  (forall a b,
     normalize (a ++ 0x130%N :: b) = normalize (a ++ 0x69%N :: b) /\
     normalize (a ++ 0x212A%N :: b) = normalize (a ++ 0x6B%N :: b)) /\
  (forall before s after,
     Forall (fun c => isSpace c = true) before ->
     Forall (fun c => isSpace c = true) after ->
     normalize (before ++ s ++ after) = normalize s).
Proof.
  split; [|split; [|split; [|split]]].
  - intros s. rewrite (normalize_kept (normalize s)).
    rewrite flat_map_fixed; [unfold normalize; apply trim_idem|].
    apply Forall_forall. intros v Hv. rewrite normalize_kept in Hv.
    apply trim_In, in_flat_map in Hv. destruct Hv as [u [_ Hu]].
    exact (kept_kept u v Hu).
  - intros s. rewrite !normalize_kept. f_equal.
    rewrite <- (toLowerCase_kept s).
    generalize (toLowerCase s), (toLowerCase_settled s).
    induction 1 as [|u l Hu _ IH]; [reflexivity|].
    cbn [flat_map filter]. rewrite (kept_settled u Hu), IH.
    destruct (isWord u || isSpace u); reflexivity.
  - intros a p b Hw Hs H1 H2. rewrite !normalize_kept, !flat_map_app.
    cbn [flat_map]. rewrite (kept_dropped p Hw Hs H1 H2). reflexivity.
  - intros a b. rewrite !normalize_kept, !flat_map_app. split; reflexivity.
  - intros before s after Hb Ha. rewrite !normalize_kept, !flat_map_app.
    rewrite (flat_map_fixed before), (flat_map_fixed after).
    + apply trim_spaces; assumption.
    + eapply Forall_impl; [|exact Ha]. apply kept_space.
    + eapply Forall_impl; [|exact Hb]. apply kept_space.
Qed.

Lemma allClaims_same : forall rs rs' : list ModelResponse,
  Forall2 SameClaims rs rs' ->
  allClaims rs = allClaims rs' /\ confidences rs = confidences rs' /\
  length rs = length rs'.
Proof.
  induction 1 as [|r r' rs rs' [Hc Hf] _ [IH1 [IH2 IH3]]].
  - auto.
  - unfold allClaims, confidences in *. simpl. rewrite Hc, IH1, IH2, IH3.
    split; [|auto]. f_equal.
    destruct (factual_claims r) as [cs|], (factual_claims r') as [cs'|];
      try contradiction; [|reflexivity].
    induction Hf as [|c c' cs cs' Hcc _ IHf]; [reflexivity|].
    simpl. rewrite Hcc, IHf. reflexivity.
Qed.

(** X28. The verdict and the peer alignment read the claims through
    [normalize] only: two Stage 1 lists with the same confidences whose
    claims are, one by one, the same once normalized get the same
    verdict and the same alignment. *)
Theorem verdict_reads_normalized_claims :
  forall (stage25 : option (list VerificationResult))
         (rs rs' : list ModelResponse),
    Forall2 SameClaims rs rs' ->
    calcVerdict stage25 (Some rs) = calcVerdict stage25 (Some rs') /\
    calcPeerAlignment (Some rs) = calcPeerAlignment (Some rs').
Proof.
  intros stage25 rs rs' H.
  destruct (allClaims_same rs rs' H) as [Ha [Hc Hl]].
  assert (Hu : unique rs = unique rs') by (unfold unique; rewrite Ha; reflexivity).
  assert (Ho : overlapRatio rs = overlapRatio rs').
  { unfold overlapRatio, overlapping. rewrite Ha, Hu. reflexivity. }
  assert (Hv : avgConf rs = avgConf rs') by (unfold avgConf; rewrite Hc; reflexivity).
  split.
  - unfold calcVerdict. destruct (externalEvidence stage25); [reflexivity|].
    destruct rs as [|r rs0], rs' as [|r' rs0']; try discriminate Hl;
      [reflexivity|].
    rewrite !factualConsensus_cases by discriminate.
    rewrite Ha, Ho, Hv. reflexivity.
  - unfold calcPeerAlignment. rewrite Hl, Hu, Ho, Hc. reflexivity.
Qed.

Lemma verdict_reads_normalized_claims_witness :
  calcVerdict None
    (Some [response 80 ["Water boils at 100 C."]; response 80 ["The sky"]])
  = calcVerdict None
    (Some [response 80 ["water boils at 100 c"]; response 80 [" the SKY! "]])
  /\
  calcPeerAlignment
    (Some [response 80 ["Water boils at 100 C."]; response 80 ["The sky"]])
  = calcPeerAlignment
    (Some [response 80 ["water boils at 100 c"]; response 80 [" the SKY! "]]).
Proof.
  apply verdict_reads_normalized_claims.
  repeat constructor.
Defined.
